(** * cursor-explorer: conversation reconstruction, indexing, retrieval, clustering

    A shallow embedding of the pure core of the Python package
    [cursor_explorer] (and of [llm_utils.embed_texts]) together with the
    properties of its specification.

    Conventions of the embedding.
    - A Python [str] is a [string] whose characters are the code points
      below 256; [str.lower], [str.strip], [str.split] and
      [str.splitlines] are written out for that range.
    - A JSON document (the result of [json.loads]) is a [pyval].
    - A Python exception is the [Raise] outcome of the [exc] monad.
    - A Python [float] is an exact rational ([Q]) where only field
      operations and comparisons are used, and a real ([R]) where a
      square root is taken.
    - External collaborators ([json.loads], [hashlib.sha256], the embedding
      service, the annotation heuristics) are section variables. *)

From Stdlib Require Import String Ascii List ZArith QArith Reals Lra Lia Bool.
From Stdlib Require Import Numbers.DecimalString Sorting.Sorted Sorting.Permutation.
From stdpp Require Import gmap strings list fin_maps.
Import ListNotations.
Close Scope Q_scope.
Close Scope R_scope.

(* ===================================================================== *)
(** * Python strings *)
(* ===================================================================== *)

Module PyStr.

Definition NL : string := String "010"%char "".
(** The separator ["\n\n"] used when assistant texts are joined. *)
Definition NLNL : string := String "010"%char (String "010"%char "").

(** [str.isspace] on one code point below 256. *)
Definition is_space (c : ascii) : bool :=
  let n := nat_of_ascii c in
  ((9 <=? n) && (n <=? 13)) || ((28 <=? n) && (n <=? 32))
  || (n =? 133) || (n =? 160).

(** [str.lower] on one code point below 256. *)
Definition lower_char (c : ascii) : ascii :=
  let n := nat_of_ascii c in
  if ((65 <=? n) && (n <=? 90))
     || ((192 <=? n) && (n <=? 222) && negb (n =? 215))
  then ascii_of_nat (n + 32) else c.

Fixpoint lower (s : string) : string :=
  match s with
  | EmptyString => EmptyString
  | String c s' => String (lower_char c) (lower s')
  end.

Fixpoint lstrip (s : string) : string :=
  match s with
  | EmptyString => EmptyString
  | String c s' => if is_space c then lstrip s' else s
  end.

Fixpoint rstrip (s : string) : string :=
  match s with
  | EmptyString => EmptyString
  | String c s' =>
      match rstrip s' with
      | EmptyString => if is_space c then EmptyString else String c EmptyString
      | r => String c r
      end
  end.

(** [s.strip()] *)
Definition strip (s : string) : string := rstrip (lstrip s).

(** [s.rstrip(ch)] for a one-character argument. *)
Fixpoint rstrip_char (ch : ascii) (s : string) : string :=
  match s with
  | EmptyString => EmptyString
  | String c s' =>
      match rstrip_char ch s' with
      | EmptyString => if Ascii.eqb c ch then EmptyString else String c EmptyString
      | r => String c r
      end
  end.

Definition is_empty (s : string) : bool :=
  match s with EmptyString => true | _ => false end.

(** [needle in hay] *)
Fixpoint contains (needle hay : string) : bool :=
  String.prefix needle hay
  || match hay with
     | EmptyString => false
     | String _ hay' => contains needle hay'
     end.

(** [s.endswith(suffix)] *)
Fixpoint endswith (s suffix : string) : bool :=
  String.eqb s suffix
  || match s with
     | EmptyString => false
     | String _ s' => endswith s' suffix
     end.

(** [s.split()]: the maximal runs of non-space characters. *)
Fixpoint split_ws (s : string) : list string :=
  match s with
  | EmptyString => []
  | String c s' =>
      if is_space c then split_ws s'
      else match s' with
           | EmptyString => [String c EmptyString]
           | String c' _ =>
               if is_space c' then String c EmptyString :: split_ws s'
               else match split_ws s' with
                    | t :: ts => String c t :: ts
                    | [] => [String c EmptyString]
                    end
           end
  end.

(** [s.split(sep)] for a one-character separator. *)
Fixpoint split_on (sep : ascii) (s : string) : list string :=
  match s with
  | EmptyString => [EmptyString]
  | String c s' =>
      let r := split_on sep s' in
      if Ascii.eqb c sep then EmptyString :: r
      else match r with
           | t :: ts => String c t :: ts
           | [] => [String c EmptyString]
           end
  end.

(** [sep.join(parts)] *)
Definition join (sep : string) (parts : list string) : string :=
  String.concat sep parts.

(** [s[:n]] for [n >= 0]. *)
Fixpoint take (n : nat) (s : string) : string :=
  match n, s with
  | S n', String c s' => String c (take n' s')
  | _, _ => EmptyString
  end.

(** [s[:-n]] for [n >= 0]: all but the last [n] characters. *)
Definition drop_last (n : nat) (s : string) : string :=
  take (String.length s - n) s.

(** Line boundaries of [str.splitlines] below 256. *)
Definition is_linebreak (c : ascii) : bool :=
  let n := nat_of_ascii c in
  ((10 <=? n) && (n <=? 13)) || ((28 <=? n) && (n <=? 30)) || (n =? 133).

(** [s.splitlines()]: a carriage return followed by a line feed is one
    boundary, and a final boundary opens no further line. *)
Fixpoint splitlines (s : string) : list string :=
  match s with
  | EmptyString => []
  | String c s' =>
      if is_linebreak c then
        match s' with
        | String c' s'' =>
            if (nat_of_ascii c =? 13) && (nat_of_ascii c' =? 10)
            then EmptyString :: splitlines s''
            else EmptyString :: splitlines s'
        | EmptyString => [EmptyString]
        end
      else match splitlines s' with
           | t :: ts => String c t :: ts
           | [] => [String c EmptyString]
           end
  end.

(** [str(n)] for a Python [int]. *)
Definition str_of_int (z : Z) : string :=
  NilZero.string_of_int (Z.to_int z).

End PyStr.

(* ===================================================================== *)
(** * Python values and exceptions *)
(* ===================================================================== *)

(** The exceptions the modelled code can raise. *)
Inductive pyerr : Type :=
| AttributeError | TypeError | IndexError | ValueError | ZeroDivisionError.

Inductive exc (A : Type) : Type :=
| Ok (a : A)
| Raise (e : pyerr).
Arguments Ok {A} a.
Arguments Raise {A} e.

Definition exc_bind {A B : Type} (m : exc A) (k : A -> exc B) : exc B :=
  match m with
  | Ok a => k a
  | Raise e => Raise e
  end.

Notation "'do' x <- m ; k" := (exc_bind m (fun x => k))
  (at level 10, x name, m at level 100, k at level 200).

(** A [for] loop whose body may raise, threading the loop state. *)
Fixpoint exc_fold {A S : Type} (step : S -> A -> exc S) (l : list A) (s : S)
  : exc S :=
  match l with
  | [] => Ok s
  | x :: l' => do s' <- step s x; exc_fold step l' s'
  end.

(** The outcome with a function applied to the returned value. *)
Definition exc_fmap {A B : Type} (f : A -> B) (m : exc A) : exc B :=
  match m with
  | Ok a => Ok (f a)
  | Raise e => Raise e
  end.

(** A list comprehension whose element expression may raise. *)
Fixpoint exc_map {A B : Type} (f : A -> exc B) (l : list A) : exc (list B) :=
  match l with
  | [] => Ok []
  | x :: l' => do y <- f x; do ys <- exc_map f l'; Ok (y :: ys)
  end.

(** A decoded JSON document.  A [PDict] lists its items in insertion
    order; a key is looked up at its first occurrence. *)
#[warnings="-register-all"]
Inductive pyval : Type :=
| PNone
| PBool (b : bool)
| PInt (z : Z)
| PFloat (q : Q)
| PStr (s : string)
| PList (l : list pyval)
| PDict (kvs : list (string * pyval)).

(** Truth value of an object, as tested by [if x], [not x] and [x or y]. *)
Definition truthy (v : pyval) : bool :=
  match v with
  | PNone => false
  | PBool b => b
  | PInt z => negb (z =? 0)%Z
  | PFloat q => negb (Qeq_bool q 0)
  | PStr s => negb (PyStr.is_empty s)
  | PList l => match l with [] => false | _ => true end
  | PDict kvs => match kvs with [] => false | _ => true end
  end.

(** [x or y] *)
Definition py_or (x y : pyval) : pyval := if truthy x then x else y.

Fixpoint assoc_get (kvs : list (string * pyval)) (k : string) : option pyval :=
  match kvs with
  | [] => None
  | (k', v) :: kvs' => if String.eqb k' k then Some v else assoc_get kvs' k
  end.

(** [d.get(k)] on a dict: [None] when the key is absent. *)
Definition dict_get (kvs : list (string * pyval)) (k : string) : pyval :=
  match assoc_get kvs k with
  | Some v => v
  | None => PNone
  end.

(** [x.get(k)] on an arbitrary object: only a dict has the method. *)
Definition py_get (x : pyval) (k : string) : exc pyval :=
  match x with
  | PDict kvs => Ok (dict_get kvs k)
  | _ => Raise AttributeError
  end.

(* ===================================================================== *)
(** * parser.py: messages, coalescing and turn pairs *)
(* ===================================================================== *)

Module Parser.

(** A message dict as [reconstruct_conversation] builds it.  The text is
    whatever the blob held under ["text"] or ["content"]. *)
Record message : Type := Message {
  composer_id : string;
  bubble_id : pyval;
  server_bubble_id : pyval;
  role : string;
  text : pyval
}.

Definition set_text (m : message) (t : pyval) : message :=
  {| composer_id := composer_id m; bubble_id := bubble_id m;
     server_bubble_id := server_bubble_id m; role := role m; text := t |}.

(** A turn pair dict as [build_qa_pairs] emits it. *)
Record pair : Type := Pair {
  pair_composer_id : string;
  turn_index : Z;
  user : pyval;
  assistant : string
}.

(** The fields of a pair other than the conversation id. *)
Definition pair_content (p : pair) : Z * pyval * string :=
  (turn_index p, user p, assistant p).

(** Messages that alternate between the two roles, the first being of
    role ["user"] when [expect_user] holds, each with a [str] text. *)
Fixpoint alternating (expect_user : bool) (msgs : list message) : Prop :=
  match msgs with
  | [] => True
  | m :: rest =>
      role m = (if expect_user then "user" else "assistant")
      /\ (exists s, text m = PStr s)
      /\ alternating (negb expect_user) rest
  end.

(** [bool(text and text.strip())]: [strip] exists on a [str] only. *)
Definition _is_nonempty (t : pyval) : exc bool :=
  if truthy t then
    match t with
    | PStr s => Ok (negb (PyStr.is_empty (PyStr.strip s)))
    | _ => Raise AttributeError
    end
  else Ok false.

(** [(a + "\n\n" + b).strip()] *)
Definition concat_texts (a b : pyval) : exc pyval :=
  match a, b with
  | PStr x, PStr y => Ok (PStr (PyStr.strip (x +:+ PyStr.NLNL +:+ y)))
  | _, _ => Raise TypeError
  end.

(** Loop state of [coalesce_assistant_runs]: the output so far and the
    pending assistant message. *)
Definition coalesce_state : Type := (list message * option message)%type.

Definition coalesce_step (st : coalesce_state) (m : message)
  : exc coalesce_state :=
  let '(coalesced, pending_assistant) := st in
  if String.eqb (role m) "assistant" then
    do ne <- _is_nonempty (text m);
    if negb ne then Ok st
    else match pending_assistant with
         | None => Ok (coalesced, Some m)
         | Some p =>
             do t <- concat_texts (text p) (text m);
             Ok (coalesced, Some (set_text p t))
         end
  else
    match pending_assistant with
    | Some p => Ok (coalesced ++ [p; m], None)
    | None => Ok (coalesced ++ [m], None)
    end.

Definition coalesce_flush (st : coalesce_state) : list message :=
  match snd st with
  | Some p => fst st ++ [p]
  | None => fst st
  end.

Definition coalesce_assistant_runs (messages : list message)
  : exc (list message) :=
  do st <- exc_fold coalesce_step messages ([], None);
  Ok (coalesce_flush st).

(** Loop state of [build_qa_pairs]. *)
Record qa_state : Type := QaState {
  pairs : list pair;
  current_user : option message;
  current_assistant_text : list string;
  next_turn_index : Z
}.

Definition qa_init : qa_state :=
  {| pairs := []; current_user := None; current_assistant_text := [];
     next_turn_index := 0 |}.

Definition joined (parts : list string) : string :=
  PyStr.strip (PyStr.join PyStr.NLNL parts).

Definition qa_step (st : qa_state) (m : message) : exc qa_state :=
  if String.eqb (role m) "user" then
    let st' :=
      match current_user st, current_assistant_text st with
      | None, [] => st
      | cu, cat =>
          {| pairs := pairs st ++
               [{| pair_composer_id :=
                     match cu with
                     | Some u => composer_id u
                     | None => composer_id m
                     end;
                   turn_index := next_turn_index st;
                   user := match cu with
                           | Some u => text u
                           | None => PStr ""
                           end;
                   assistant := joined cat |}];
             current_user := cu;
             current_assistant_text := cat;
             next_turn_index := next_turn_index st + 1 |}
      end in
    Ok {| pairs := pairs st'; current_user := Some m;
          current_assistant_text := [];
          next_turn_index := next_turn_index st' |}
  else if String.eqb (role m) "assistant" then
    do ne <- _is_nonempty (text m);
    if ne then
      match text m with
      | PStr s =>
          Ok {| pairs := pairs st; current_user := current_user st;
                current_assistant_text := current_assistant_text st ++ [s];
                next_turn_index := next_turn_index st |}
      | _ => Raise TypeError (* not reached: a non-empty text is a str *)
      end
    else Ok st
  else Ok st.

Definition qa_flush (messages : list message) (st : qa_state) : list pair :=
  match current_user st, current_assistant_text st with
  | None, [] => pairs st
  | cu, cat =>
      pairs st ++
        [{| pair_composer_id :=
              match cu with
              | Some u => composer_id u
              | None => match messages with
                        | m0 :: _ => composer_id m0
                        | [] => ""
                        end
              end;
            turn_index := next_turn_index st;
            user := match cu with
                    | Some u => text u
                    | None => PStr ""
                    end;
            assistant := joined cat |}]
  end.

Definition build_qa_pairs (messages : list message) : exc (list pair) :=
  do msgs <- coalesce_assistant_runs messages;
  do st <- exc_fold qa_step msgs qa_init;
  Ok (qa_flush messages st).

(* ------------------------------------------------------------------- *)
(** ** Reading the key-value store *)

Section Store.

(** [db.kv_value(conn, key)]: the stored value, if the key exists. *)
Variable kv_value : string -> option string.
(** [formatting.to_text]: decoding a stored value never fails. *)
Variable to_text : string -> string.
(** [json.loads]: [None] when it raises. *)
Variable json_loads : string -> option pyval.
(** [str(x)] as an f-string renders a value that is not a [str]. *)
Variable py_repr : pyval -> string.

(** [f"{x}"] *)
Definition py_fmt (x : pyval) : string :=
  match x with
  | PStr s => s
  | _ => py_repr x
  end.

(** [parse_json]: any exception of [json.loads] becomes [None]. *)
Definition parse_json (value : string) : pyval :=
  match json_loads (to_text value) with
  | Some v => v
  | None => PNone
  end.

Definition load_composer (composer_id : string) : pyval :=
  match kv_value ("composerData:" +:+ composer_id) with
  | None => PNone
  | Some val => parse_json val
  end.

Definition load_bubble (composer_id : string) (bubble_id : pyval) : pyval :=
  match kv_value ("bubbleId:" +:+ composer_id +:+ ":" +:+ py_fmt bubble_id) with
  | None => PNone
  | Some val => parse_json val
  end.

(** [bubble_role]: [bubble_type == 1] also holds of [1.0] and [True]. *)
Definition bubble_role (bubble_type : pyval) : string :=
  let is_one :=
    match bubble_type with
    | PInt z => (z =? 1)%Z
    | PFloat q => Qeq_bool q 1
    | PBool b => b
    | _ => false
    end in
  if is_one then "user" else "assistant".

(** [for h in headers]: what iterating the object yields. *)
Definition py_iter (x : pyval) : exc (list pyval) :=
  match x with
  | PList l => Ok l
  | PDict kvs => Ok (map (fun kv => PStr (fst kv)) kvs)
  | PStr s => Ok (map (fun c => PStr (String c EmptyString))
                    (list_ascii_of_string s))
  | _ => Raise TypeError
  end.

(** One round of the loop of [reconstruct_conversation] over the
    headers that [iter_bubble_headers] visits: a header without a
    bubble id is not yielded, a header whose blob is absent or falsy is
    skipped by [continue]. *)
Definition reconstruct_step (composer_id : string)
    (messages : list message) (h : pyval) : exc (list message) :=
  do bubble_id <- py_get h "bubbleId";
  do bubble_type <- py_get h "type";
  do server_bubble_id <- py_get h "serverBubbleId";
  if negb (truthy bubble_id) then Ok messages
  else
    let bubble := load_bubble composer_id bubble_id in
    if negb (truthy bubble) then Ok messages
    else
      let text0 := match bubble with
                   | PDict kvs => dict_get kvs "text"
                   | _ => PNone
                   end in
      do text1 <- (if negb (truthy text0)
                   then do c <- py_get bubble "content";
                        Ok (py_or c (PStr ""))
                   else Ok text0);
      Ok (messages ++
            [{| composer_id := composer_id;
                bubble_id := bubble_id;
                server_bubble_id := server_bubble_id;
                role := bubble_role bubble_type;
                text := py_or text1 (PStr "") |}]).

(** The loop of [reconstruct_conversation] over a list of headers. *)
Definition messages_of_headers (composer_id : string)
    (headers : list pyval) : exc (list message) :=
  exc_fold (reconstruct_step composer_id) headers [].

Definition reconstruct_conversation (composer_id : string)
  : exc (list message) :=
  let composer := load_composer composer_id in
  if negb (truthy composer) then Ok []
  else
    do hs <- py_get composer "fullConversationHeadersOnly";
    do headers <- py_iter (py_or hs (PList []));
    messages_of_headers composer_id headers.

End Store.

(* ------------------------------------------------------------------- *)
(** ** Repository hint *)

(** [_walk_dict]: every (key, value) of every nested dict, a dict's own
    items before those nested in them. *)
Fixpoint _walk_dict (d : pyval) : list (string * pyval) :=
  match d with
  | PDict kvs =>
      (fix items (kvs : list (string * pyval)) : list (string * pyval) :=
         match kvs with
         | [] => []
         | (k, v) :: rest => (k, v) :: _walk_dict v ++ items rest
         end) kvs
  | PList l =>
      (fix elems (l : list pyval) : list (string * pyval) :=
         match l with
         | [] => []
         | it :: rest => _walk_dict it ++ elems rest
         end) l
  | _ => []
  end.

Definition key_pat : list string :=
  ["repo"; "repository"; "git"; "workspace"; "root"; "cwd"; "path"; "url"].

Definition key_matches (k : string) : bool :=
  existsb (fun p => PyStr.contains p (PyStr.lower k)) key_pat.

Definition candidates_of (composer_obj : pyval) : list string :=
  flat_map (fun kv =>
              match snd kv with
              | PStr v =>
                  if key_matches (fst kv) && negb (PyStr.is_empty v)
                  then [v] else []
              | _ => []
              end)
           (_walk_dict composer_obj).

Definition SLASH : string := "/".
Definition BACKSLASH : string := String "092"%char "".

Definition is_git (s : string) : bool :=
  PyStr.contains "github.com" (PyStr.lower s)
  || PyStr.endswith (PyStr.lower s) ".git".

Definition is_path (s : string) : bool :=
  PyStr.contains SLASH s || PyStr.contains BACKSLASH s.

(** The first component of the sort key: 2 for a git remote, 1 for a
    path, 0 for any other string. *)
Definition rank (s : string) : Z :=
  (if is_git s then 2 else if is_path s then 1 else 0)%Z.

Definition score (s : string) : Z * Z :=
  (rank s, (- Z.of_nat (String.length s))%Z).

(** Tuple order [a < b]. *)
Definition key_ltb (a b : Z * Z) : bool :=
  (fst a <? fst b)%Z || ((fst a =? fst b)%Z && (snd a <? snd b)%Z).

(** [list.sort(key=score, reverse=True)]: descending, and stable. *)
Fixpoint insert_desc (x : string) (l : list string) : list string :=
  match l with
  | [] => [x]
  | y :: l' =>
      if key_ltb (score x) (score y) then y :: insert_desc x l'
      else x :: y :: l'
  end.

Definition sort_desc (l : list string) : list string :=
  fold_right insert_desc [] l.

Definition last_two (parts : list string) : list string :=
  skipn (List.length parts - 2) parts.

(** The body of the loop over the ranked candidates: [Some] when it
    returns. *)
Definition hint_of (s : string) : option string :=
  let val := PyStr.strip s in
  let low := PyStr.lower val in
  if PyStr.contains "github.com" low then
    let parts := PyStr.split_on "/" (PyStr.rstrip_char "/" val) in
    let name := List.last parts EmptyString in
    Some (if PyStr.endswith name ".git" then PyStr.drop_last 4 name else name)
  else if is_path val then
    let sep := if PyStr.contains SLASH val then "/"%char else "092"%char in
    let parts := List.filter (fun p => negb (PyStr.is_empty p)) (PyStr.split_on sep val) in
    match parts with
    | [] => None
    | [p] => Some p
    | _ => Some (PyStr.join SLASH (last_two parts))
    end
  else None.

Fixpoint first_hint (cands : list string) : option string :=
  match cands with
  | [] => None
  | s :: rest =>
      match hint_of s with
      | Some h => Some h
      | None => first_hint rest
      end
  end.

(** [extract_repo_hint]: [None] is Python's [None]. *)
Definition extract_repo_hint (composer_obj : pyval) : option string :=
  if negb (truthy composer_obj) then None
  else
    let candidates := sort_desc (candidates_of composer_obj) in
    match first_hint candidates with
    | Some h => Some h
    | None => List.head candidates
    end.

End Parser.

(* ===================================================================== *)
(** * rag.py: turn items and the sparse scorer *)
(* ===================================================================== *)

Module Rag.

(** [sum(...)] over Python ints. *)
Definition sum_Z (l : list Z) : Z := fold_left Z.add l 0%Z.

(** [_score]: a [text] of [None] reads as the empty string. *)
Definition _score (query : string) (text : option string) : Z :=
  let q := PyStr.split_ws (PyStr.lower query) in
  let low := PyStr.lower (match text with Some t => t | None => EmptyString end) in
  sum_Z (map (fun _ => 1%Z)
           (List.filter (fun token => negb (PyStr.is_empty token)
                                 && PyStr.contains token low) q)).

(** [(x or "")] used as the receiver of a [str] method. *)
Definition str_or_empty (x : pyval) : exc string :=
  if truthy x then
    match x with
    | PStr s => Ok s
    | _ => Raise AttributeError
    end
  else Ok EmptyString.

Definition _head (text : string) (n : nat) : string :=
  match PyStr.splitlines (PyStr.strip text) with
  | [] => EmptyString
  | line :: _ => PyStr.take n line
  end.

(** One record of the per-turn index. *)
Record item : Type := Item {
  it_composer_id : string;
  it_turn_index : Z;
  it_user : pyval;
  it_assistant : string;
  user_head : string;
  assistant_head : string;
  annotations : pyval;
  repo : option string
}.

Definition set_repo (hint : option string) (it : item) : item :=
  match hint with
  | Some h =>
      if PyStr.is_empty h then it
      else {| it_composer_id := it_composer_id it;
              it_turn_index := it_turn_index it;
              it_user := it_user it; it_assistant := it_assistant it;
              user_head := user_head it;
              assistant_head := assistant_head it;
              annotations := annotations it; repo := Some h |}
  | None => it
  end.

Section Items.

(** [annotate.annotate_pair_rich] on the user and assistant texts. *)
Variable annotate_pair_rich : string -> string -> pyval.

Definition item_of_pair (p : Parser.pair) : exc item :=
  do u <- str_or_empty (Parser.user p);
  Ok {| it_composer_id := Parser.pair_composer_id p;
        it_turn_index := Parser.turn_index p;
        it_user := Parser.user p;
        it_assistant := Parser.assistant p;
        user_head := _head u 160;
        assistant_head := _head (Parser.assistant p) 200;
        annotations := annotate_pair_rich u (Parser.assistant p);
        repo := None |}.

Definition build_turn_items (messages : list Parser.message)
  : exc (list item) :=
  do pairs <- Parser.build_qa_pairs messages;
  exc_map item_of_pair pairs.

End Items.

End Rag.

(* ===================================================================== *)
(** * index.py: the JSONL and the SQLite index builders *)
(* ===================================================================== *)

Module Index.

(** [l[:n]] *)
Definition py_take {A : Type} (n : Z) (l : list A) : list A :=
  if (0 <=? n)%Z then firstn (Z.to_nat n) l
  else firstn (List.length l - Z.to_nat (- n)) l.

(** [k.split(":", 1)[1]]: [None] when there is no colon. *)
Fixpoint after_colon (k : string) : option string :=
  match k with
  | EmptyString => None
  | String c k' => if Ascii.eqb c ":" then Some k' else after_colon k'
  end.

Definition _composer_ids (keys : list string) : list string :=
  flat_map (fun k => match after_colon k with
                     | Some cid => if PyStr.is_empty cid then [] else [cid]
                     | None => []
                     end) keys.

(** A row of the items table, without its key columns. *)
Record row : Type := Row {
  r_user : pyval;
  r_assistant : string;
  r_user_head : string;
  r_assistant_head : string;
  r_annotations : string
}.

(** [re.fullmatch(r"[A-Za-z0-9_]+", table or "")] *)
Definition word_char (c : ascii) : bool :=
  let n := nat_of_ascii c in
  ((48 <=? n) && (n <=? 57)) || ((65 <=? n) && (n <=? 90))
  || ((97 <=? n) && (n <=? 122)) || (n =? 95).

Definition valid_table_name (table : string) : bool :=
  negb (PyStr.is_empty table)
  && forallb word_char (list_ascii_of_string table).

Section Builders.

Variable kv_value : string -> option string.
Variable to_text : string -> string.
Variable json_loads : string -> option pyval.
Variable py_repr : pyval -> string.
Variable annotate_pair_rich : string -> string -> pyval.
(** [db.composer_data_keys(conn, limit=1000000)] *)
Variable composer_data_keys : list string.
(** [json.dumps(it, ensure_ascii=False)] on an item and on a value. *)
Variable json_dumps_item : Rag.item -> string.
Variable json_dumps : pyval -> string.

Variable limit_composers : option Z.
Variable max_turns_per : option Z.

(** The conversations the loop visits before [break]. *)
Definition visited : list string :=
  match limit_composers with
  | None => _composer_ids composer_data_keys
  | Some n => firstn (Z.to_nat n) (_composer_ids composer_data_keys)
  end.

(** The items of one conversation, as both builders compute them. *)
Definition items_of (cid : string) : exc (list Rag.item) :=
  do msgs <- Parser.reconstruct_conversation kv_value to_text json_loads py_repr cid;
  let repo_hint :=
    Parser.extract_repo_hint
      (Parser.load_composer kv_value to_text json_loads cid) in
  do items <- Rag.build_turn_items annotate_pair_rich msgs;
  let items := match max_turns_per with
               | Some n => py_take n items
               | None => items
               end in
  Ok (map (Rag.set_repo repo_hint) items).

(** The loop of [build_index]: the lines written so far survive an
    exception. *)
Fixpoint index_loop (cids : list string) (lines : list string) (count : Z)
  : list string * exc Z :=
  match cids with
  | [] => (lines, Ok count)
  | cid :: rest =>
      match items_of cid with
      | Raise e => (lines, Raise e)
      | Ok items =>
          index_loop rest
            (lines ++ map (fun it => json_dumps_item it +:+ PyStr.NL) items)
            (count + Z.of_nat (List.length items))%Z
      end
  end.

(** [build_index]: [open(out_path, "w")] starts from an empty file
    whatever the path held.  A file is the list of its lines. *)
Definition build_index (out_path : string)
    (fs : gmap string (list string))
  : gmap string (list string) * exc Z :=
  let '(lines, result) := index_loop visited [] 0%Z in
  (<[out_path := lines]> fs, result).

Definition row_of (it : Rag.item) : row :=
  {| r_user := Rag.it_user it;
     r_assistant := Rag.it_assistant it;
     r_user_head := Rag.user_head it;
     r_assistant_head := Rag.assistant_head it;
     r_annotations := json_dumps (py_or (Rag.annotations it) (PDict [])) |}.

(** [INSERT ... ON CONFLICT(composer_id, turn_index) DO UPDATE SET ...] *)
Definition upsert (rows : gmap (string * Z) row) (it : Rag.item)
  : gmap (string * Z) row :=
  <[(Rag.it_composer_id it, Rag.it_turn_index it) := row_of it]> rows.

Definition sqlite_step (st : gmap (string * Z) row * Z) (cid : string)
  : exc (gmap (string * Z) row * Z) :=
  do items <- items_of cid;
  Ok (fold_left upsert items (fst st),
      (snd st + Z.of_nat (List.length items))%Z).

(** [build_index_sqlite] on the rows of the target table: the single
    [commit] at the end makes the run all-or-nothing. *)
Definition build_index_sqlite (table : string)
    (rows : gmap (string * Z) row)
  : gmap (string * Z) row * exc Z :=
  if negb (valid_table_name table) then (rows, Raise ValueError)
  else
    match exc_fold sqlite_step visited (rows, 0%Z) with
    | Ok (rows', count) => (rows', Ok count)
    | Raise e => (rows, Raise e)
    end.

End Builders.

End Index.

(* ===================================================================== *)
(** * llm_utils.py: cached embedding *)
(* ===================================================================== *)

Module Llm.

(** What [llm_cache] holds under a key, read through [json.loads]: the
    dump of a vector, or a text that does not decode to a list.  The cache
    is taken to be in working order: [llm_cache.get] and [llm_cache.set]
    swallow their own failures, which read as a miss and as a lost store. *)
Inductive cached : Type :=
| CachedVec (v : list Q)
| CachedOther.

(** [l[lo:hi]] *)
Definition py_slice {A : Type} (lo hi : Z) (l : list A) : list A :=
  let len := Z.of_nat (List.length l) in
  let norm i := if (i <? 0)%Z then Z.max 0 (len + i) else Z.min i len in
  skipn (Z.to_nat (norm lo)) (firstn (Z.to_nat (norm hi)) l).

Section Embed.

(** [hashlib.sha256(s.encode("utf-8")).hexdigest()] *)
Variable sha256_hex : string -> string.
(** [client.embeddings.create(model=model, input=inputs)], read as the
    list of the returned vectors. *)
Variable embeddings_create : string -> list string -> list (list Q).
(** [int(os.getenv("EMBED_BATCH", "128"))] *)
Variable max_batch_size : Z.

(** [_hash_key]: the parts are fed to one hash, one after the other. *)
Definition _hash_key (parts : list string) : string :=
  sha256_hex (String.concat EmptyString parts).

Definition _embedding_cache_key (model scope ident text : string) : string :=
  _hash_key ["embed"; model; scope; ident; sha256_hex text].

Definition key_at (model scope id_prefix : string) (i : nat) (t : string)
  : string :=
  _embedding_cache_key model scope
    (id_prefix +:+ PyStr.str_of_int (Z.of_nat i)) t.

(** The state of a call: the result list, the cache and the inputs of the
    external calls issued so far. *)
Record state : Type := State {
  results : list (list Q);
  cache : gmap string cached;
  calls : list (list string)
}.

(** First pass: a cached vector is a hit, anything else a miss. *)
Fixpoint first_pass (model scope id_prefix : string) (c : gmap string cached)
    (i : nat) (texts : list string)
  : list (list Q) * list (nat * string) :=
  match texts with
  | [] => ([], [])
  | t :: rest =>
      let '(res, missing) := first_pass model scope id_prefix c (S i) rest in
      match c !! key_at model scope id_prefix i t with
      | Some (CachedVec v) => (v :: res, missing)
      | _ => ([] :: res, (i, t) :: missing)
      end
  end.

(** The body of [for (idx, text), vec in zip(chunk, vecs)]. *)
Definition store_one (model scope id_prefix : string) (st : state)
    (e : (nat * string) * list Q) : state :=
  let '((idx, text), vec) := e in
  {| results := <[idx := vec]> (results st);
     cache := <[key_at model scope id_prefix idx text := CachedVec vec]>
                (cache st);
     calls := calls st |}.

(** The [while start_index < len(missing)] loop; [None] when the fuel
    runs out before the loop ends. *)
Fixpoint batch_loop (fuel : nat) (model scope id_prefix : string)
    (missing : list (nat * string)) (start_index : Z) (st : state)
  : option state :=
  if (start_index <? Z.of_nat (List.length missing))%Z then
    match fuel with
    | O => None
    | S fuel' =>
        let chunk := py_slice start_index (start_index + max_batch_size) missing in
        let inputs := map snd chunk in
        let vecs := embeddings_create model inputs in
        let st1 := {| results := results st; cache := cache st;
                      calls := calls st ++ [inputs] |} in
        let st2 := fold_left (store_one model scope id_prefix)
                     (combine chunk vecs) st1 in
        batch_loop fuel' model scope id_prefix missing
          (start_index + max_batch_size)%Z st2
    end
  else Some st.

Definition embed_texts (fuel : nat) (c : gmap string cached)
    (texts : list string) (model scope id_prefix : string)
  : option state :=
  let '(res, missing) := first_pass model scope id_prefix c 0 texts in
  batch_loop fuel model scope id_prefix missing 0%Z
    {| results := res; cache := c; calls := [] |}.

(** [embed_text]: one text, under the identifier [ident]. *)
Definition embed_text (fuel : nat) (c : gmap string cached)
    (text model scope ident : string) : option state :=
  embed_texts fuel c [text] model scope (ident +:+ ":").

End Embed.

End Llm.

(* ===================================================================== *)
(** * toolchat.py: the hybrid merge *)
(* ===================================================================== *)

Module Toolchat.

(** A hit of [index.search_index]. *)
Record sparse_row : Type := SparseRow {
  sp_composer_id : string;
  sp_turn_index : Z;
  sp_user_head : string;
  sp_assistant_head : string;
  sp_score : Z
}.

(** A hit of [index.vec_search]; [vr_id] is [None] when the row has no
    ["id"]. *)
Record vec_row : Type := VecRow {
  vr_id : option string;
  vr_composer_id : string;
  vr_turn_index : Z;
  vr_user_head : string;
  vr_assistant_head : string;
  vr_distance : Q
}.

(** A merged item; an absent key is [None]. *)
Record merged_item : Type := MergedItem {
  m_id : string;
  m_composer_id : string;
  m_turn_index : Z;
  m_user_head : string;
  m_assistant_head : string;
  sparse_score : option Z;
  vec_distance : option Q
}.

(** [f"{composer_id}:{turn_index}"] *)
Definition ident_of (cid : string) (tix : Z) : string :=
  cid +:+ ":" +:+ PyStr.str_of_int tix.

Definition sparse_id (r : sparse_row) : string :=
  ident_of (sp_composer_id r) (sp_turn_index r).

(** [r.get("id") or f"..."] *)
Definition vec_id (r : vec_row) : string :=
  match vr_id r with
  | Some i => if PyStr.is_empty i then ident_of (vr_composer_id r) (vr_turn_index r) else i
  | None => ident_of (vr_composer_id r) (vr_turn_index r)
  end.

(** [merged.get(k)] on the insertion-ordered dict. *)
Fixpoint dict_lookup (merged : list (string * merged_item)) (k : string)
  : option merged_item :=
  match merged with
  | [] => None
  | (k', v) :: rest => if String.eqb k' k then Some v else dict_lookup rest k
  end.

(** [merged[k] = v]: an existing key keeps its place. *)
Fixpoint dict_set (merged : list (string * merged_item)) (k : string)
    (v : merged_item) : list (string * merged_item) :=
  match merged with
  | [] => [(k, v)]
  | (k', v') :: rest =>
      if String.eqb k' k then (k', v) :: rest
      else (k', v') :: dict_set rest k v
  end.

Definition merge_sparse (merged : list (string * merged_item))
    (r : sparse_row) : list (string * merged_item) :=
  let idv := sparse_id r in
  dict_set merged idv
    {| m_id := idv; m_composer_id := sp_composer_id r;
       m_turn_index := sp_turn_index r; m_user_head := sp_user_head r;
       m_assistant_head := sp_assistant_head r;
       sparse_score := Some (sp_score r); vec_distance := None |}.

Definition set_distance (m : merged_item) (d : Q) : merged_item :=
  {| m_id := m_id m; m_composer_id := m_composer_id m;
     m_turn_index := m_turn_index m; m_user_head := m_user_head m;
     m_assistant_head := m_assistant_head m;
     sparse_score := sparse_score m; vec_distance := Some d |}.

Definition merge_vec (merged : list (string * merged_item))
    (r : vec_row) : list (string * merged_item) :=
  let idv := vec_id r in
  let m := match dict_lookup merged idv with
           | Some m => m
           | None =>
               {| m_id := idv; m_composer_id := vr_composer_id r;
                  m_turn_index := vr_turn_index r;
                  m_user_head := vr_user_head r;
                  m_assistant_head := vr_assistant_head r;
                  sparse_score := None; vec_distance := None |}
           end in
  dict_set merged idv (set_distance m (vr_distance r)).

(** [_tool_hybrid_search] on the hits that [index.search_index] and
    [index.vec_search] returned: the items of its result. *)
Definition _tool_hybrid_search (sp : list sparse_row) (vec : list vec_row)
  : list merged_item :=
  map snd (fold_left merge_vec vec (fold_left merge_sparse sp [])).

End Toolchat.

(* ===================================================================== *)
(** * cluster.py: bisecting 2-means *)
(* ===================================================================== *)

Module Cluster.

(** [sum(x*y for x, y in zip(v, c))] *)
Definition dot (v c : list Q) : Q :=
  fold_left Qplus (map (fun xy => (fst xy * snd xy)%Q) (combine v c)) 0%Q.

(** [[x + y for x, y in zip(s, v)]] *)
Definition vec_add (s v : list Q) : list Q :=
  map (fun xy => (fst xy + snd xy)%Q) (combine s v).

(** The assignment pass: 0 when [d0 <= d1], else 1. *)
Definition assign_all (vecs : list (list Q)) (c0 c1 : list Q) : list nat :=
  map (fun v =>
         let d0 := (1 - dot v c0)%Q in
         let d1 := (1 - dot v c1)%Q in
         if Qle_bool d0 d1 then 0 else 1) vecs.

(** The update pass: the sums and the counts of the two groups. *)
Definition accumulate (dim : nat) (vecs : list (list Q)) (assign : list nat)
  : (list Q * nat) * (list Q * nat) :=
  fold_left
    (fun acc va =>
       let '((s0, n0), (s1, n1)) := acc in
       if Nat.eqb (snd va) 0
       then ((vec_add s0 (fst va), S n0), (s1, n1))
       else ((s0, n0), (vec_add s1 (fst va), S n1)))
    (combine vecs assign)
    ((repeat 0%Q dim, 0), (repeat 0%Q dim, 0)).

(** [[x / max(1, n) for x in s]] *)
Definition mean (s : list Q) (n : nat) : list Q :=
  map (fun x => (x / inject_Z (Z.of_nat (Nat.max 1 n)))%Q) s.

Definition kmeans_round (vecs : list (list Q))
    (st : list nat * list Q * list Q) : list nat * list Q * list Q :=
  let '(_, c0, c1) := st in
  let assign := assign_all vecs c0 c1 in
  let dim := List.length (List.hd [] vecs) in
  let '((s0, n0), (s1, n1)) := accumulate dim vecs assign in
  (assign,
   if Nat.eqb n0 0 then c0 else mean s0 n0,
   if Nat.eqb n1 0 then c1 else mean s1 n1).

(** [_kmeans2]: seeds are the first and the last vector. *)
Definition _kmeans2 (vecs : list (list Q)) (iters : Z)
  : list nat * list Q * list Q :=
  match vecs with
  | [] => ([], [], [])
  | v0 :: _ =>
      Nat.iter (Z.to_nat (Z.max 1 iters)) (kmeans_round vecs)
        (repeat 0 (List.length vecs), v0, List.last vecs v0)
  end.

(** A node of the cluster tree: a leaf [{"size", "ids"}] or an inner node
    [{"size", "left", "right"}]. *)
Inductive tree : Type :=
| Leaf (size : nat) (ids : list nat)
| Node (size : nat) (left_child right_child : tree).

Definition tree_size (t : tree) : nat :=
  match t with
  | Leaf n _ => n
  | Node n _ _ => n
  end.

(** [[vecs[i] for i in idxs]] *)
Definition subset_of (vecs : list (list Q)) (idxs : list nat)
  : exc (list (list Q)) :=
  exc_map (fun i => match nth_error vecs i with
                    | Some v => Ok v
                    | None => Raise IndexError
                    end) idxs.

(** The members sent to one side by the assignment. *)
Definition side (to_left : bool) (idxs : list nat) (assign : list nat)
  : list nat :=
  map fst (List.filter (fun ia => Bool.eqb (Nat.eqb (snd ia) 0) to_left)
             (combine idxs assign)).

(** The two sides of the 2-means assignment of a subset. *)
Definition split_of (subset : list (list Q)) (idxs : list nat)
  : list nat * list nat :=
  let '(assign, _, _) := _kmeans2 subset 15 in
  (side true idxs assign, side false idxs assign).

Definition is_nil {A : Type} (l : list A) : bool :=
  match l with [] => true | _ => false end.

(** [_bisect_recursive] with the depth budget [d] counted down to zero. *)
Fixpoint bisect (d : nat) (vecs : list (list Q)) (idxs : list nat)
    (min_size : Z) : exc tree :=
  match d with
  | O => Ok (Leaf (List.length idxs) idxs)
  | S d' =>
      if (Z.of_nat (List.length idxs) <=? Z.max 2 min_size)%Z
      then Ok (Leaf (List.length idxs) idxs)
      else
        do subset <- subset_of vecs idxs;
        let '(lefts, rights) := split_of subset idxs in
        if is_nil lefts || is_nil rights
        then Ok (Leaf (List.length idxs) idxs)
        else
          do l <- bisect d' vecs lefts min_size;
          do r <- bisect d' vecs rights min_size;
          Ok (Node (List.length idxs) l r)
  end.

(** [_bisect_recursive]: [depth <= 0] is an exhausted budget, and each
    level passes [depth - 1] on. *)
Definition _bisect_recursive (vecs : list (list Q)) (idxs : list nat)
    (depth min_size : Z) : exc tree :=
  bisect (Z.to_nat depth) vecs idxs min_size.

End Cluster.

(* ===================================================================== *)
(** * embeddings.py: L2 normalisation *)
(* ===================================================================== *)

Module Embeddings.

(** [sum((x * x) for x in vec)] *)
Definition sum_sq (vec : list R) : R :=
  fold_left Rplus (map (fun x => (x * x)%R) vec) 0%R.

(** [x / den]: a zero divisor raises. *)
Definition py_div (x den : R) : exc R :=
  if Req_dec_T den 0%R then Raise ZeroDivisionError else Ok (x / den)%R.

Definition l2_normalize (vec : list R) : exc (list R) :=
  if Rle_dec (sum_sq vec) 0%R then Ok vec
  else
    let den := sqrt (sum_sq vec) in
    if Req_dec_T den 0%R then Ok vec
    else exc_map (fun x => py_div x den) vec.

End Embeddings.

(* ===================================================================== *)
(** * Sorting as [list.sort(key=..., reverse=True)] *)
(* ===================================================================== *)

Module PySort.

Section Sort.
Context {A : Type}.
(** [ltb x y]: the key of [x] is below the key of [y]. *)
Variable ltb : A -> A -> bool.

(** Putting [x] in front of a sorted list whose members all came after it:
    [x] passes the members with a greater key only, so that equal keys
    keep their order. *)
Fixpoint insert_desc (x : A) (l : list A) : list A :=
  match l with
  | [] => [x]
  | y :: l' => if ltb x y then y :: insert_desc x l' else x :: y :: l'
  end.

Definition sort_desc (l : list A) : list A := fold_right insert_desc [] l.

End Sort.

End PySort.

(* ===================================================================== *)
(** * parser.py: conversation ids of the store *)
(* ===================================================================== *)

Module ParserIds.

(** [k.split(":", 1)]: the part before the first colon and, when there is
    a colon, the part after it. *)
Fixpoint split_colon (k : string) : string * option string :=
  match k with
  | EmptyString => (EmptyString, None)
  | String c k' =>
      if Ascii.eqb c ":" then (EmptyString, Some k')
      else let '(h, t) := split_colon k' in (String c h, t)
  end.

(** [list_composer_ids] over the keys that
    [db.composer_data_keys(conn, limit=10_000)] returns. *)
Definition list_composer_ids (keys : list string) : list string :=
  flat_map (fun k =>
              match split_colon k with
              | (h, Some t) =>
                  if String.eqb h "composerData" && negb (PyStr.is_empty t)
                  then [t] else []
              | (_, None) => []
              end) keys.

End ParserIds.

(* ===================================================================== *)
(** * rag.py: searching the items *)
(* ===================================================================== *)

Module Search.
Import Rag.

(** [(it.get("user", "") + "\n" + it.get("assistant", "")).strip()] *)
Definition item_text (it : item) : exc string :=
  match it_user it with
  | PStr u => Ok (PyStr.strip (u +:+ PyStr.NL +:+ it_assistant it))
  | _ => Raise TypeError
  end.

(** One round of the loop over the tags:
    [if t and t.lower() in query.lower(): s += 2]. *)
Definition tag_boost (query : string) (s : Z) (t : pyval) : exc Z :=
  if truthy t then
    match t with
    | PStr tag =>
        Ok (if PyStr.contains (PyStr.lower tag) (PyStr.lower query)
            then (s + 2)%Z else s)
    | _ => Raise AttributeError
    end
  else Ok s.

(** The score of one item, with the item. *)
Definition scored_item (query : string) (it : item) : exc (Z * item) :=
  do text <- item_text it;
  let s := _score query (Some text) in
  do tags0 <- py_get (py_or (annotations it) (PDict [])) "tags";
  do tags <- Parser.py_iter (py_or tags0 (PList []));
  do s' <- exc_fold (tag_boost query) tags s;
  Ok (s', it).

Definition score_ltb (x y : Z * item) : bool := (fst x <? fst y)%Z.

Definition search_items (items : list item) (query : string) (k : Z)
  : exc (list item) :=
  do scored <- exc_map (scored_item query) items;
  Ok (map snd
        (List.filter (fun si => (0 <? fst si)%Z)
           (Index.py_take k (PySort.sort_desc score_ltb scored)))).

End Search.

(* ===================================================================== *)
(** * annotate.py: the scales of a conversation *)
(* ===================================================================== *)

Module Annotate.

(** [s.splitlines()[0][:n]] *)
Definition first_line (n : nat) (s : string) : exc string :=
  match PyStr.splitlines s with
  | [] => Raise IndexError
  | line :: _ => Ok (PyStr.take n line)
  end.

Record micro_entry : Type := Micro {
  turn : Z;
  micro_user_head : string;
  micro_assistant_head : string
}.

Definition micro_of (p : Parser.pair) : exc micro_entry :=
  do u <- Rag.str_or_empty (Parser.user p);
  do user_head <- first_line 120 u;
  do assistant_head <- first_line 160 (Parser.assistant p);
  Ok {| turn := Parser.turn_index p;
        micro_user_head := user_head;
        micro_assistant_head := assistant_head |}.

Definition starts : list string :=
  ["i'll"; "let me"; "now"; "created"; "added"; "done"; "next"; "then";
   "updated"].

Definition is_milestone (line : string) : bool :=
  existsb (fun x => String.prefix x (PyStr.lower (PyStr.strip line))) starts.

(** The first line of an assistant text that opens with a cue. *)
Definition milestone_of (assistant_text : string) : list string :=
  match List.find is_milestone (PyStr.splitlines assistant_text) with
  | Some line => [PyStr.take 200 (PyStr.strip line)]
  | None => []
  end.

(** The earliest user text that is not blank. *)
Fixpoint macro_of (pairs : list Parser.pair) : exc string :=
  match pairs with
  | [] => Ok EmptyString
  | p :: rest =>
      do u <- Rag.str_or_empty (Parser.user p);
      if PyStr.is_empty (PyStr.strip u) then macro_of rest
      else Ok (PyStr.take 200 (PyStr.strip u))
  end.

Record scales : Type := Scales {
  micro : list micro_entry;
  meso : list string;
  macro : string
}.

Definition annotate_conversation_scales (pairs : list Parser.pair)
  : exc scales :=
  do mi <- exc_map micro_of (firstn 10 pairs);
  let milestones := flat_map (fun p => milestone_of (Parser.assistant p)) pairs in
  do ma <- macro_of pairs;
  Ok {| micro := mi; meso := firstn 10 milestones; macro := ma |}.

End Annotate.

(* ===================================================================== *)
(** * vector.py: cosine similarity and top-k *)
(* ===================================================================== *)

Module Vector.

(** [sum(x * y for x, y in zip(a, b))] *)
Definition _dot (a b : list R) : R :=
  fold_left Rplus (map (fun xy => (fst xy * snd xy)%R) (combine a b)) 0%R.

(** [s ** 0.5 if s > 0.0 else 0.0] *)
Definition _norm (a : list R) : R :=
  let s := fold_left Rplus (map (fun x => (x * x)%R) a) 0%R in
  if Rlt_dec 0%R s then sqrt s else 0%R.

(** [x / den]: a zero divisor raises. *)
Definition py_div (x den : R) : exc R :=
  if Req_dec_T den 0%R then Raise ZeroDivisionError else Ok (x / den)%R.

Definition cosine_similarity (a b : list R) : exc R :=
  let n1 := _norm a in
  let n2 := _norm b in
  if Req_dec_T n1 0%R then Ok 0%R
  else if Req_dec_T n2 0%R then Ok 0%R
  else py_div (_dot a b) (n1 * n2)%R.

Definition sim_ltb (x y : nat * R) : bool :=
  if Rlt_dec (snd x) (snd y) then true else false.

(** [enumerate(l)] *)
Definition enumerate {A : Type} (l : list A) : list (nat * A) :=
  combine (seq 0 (List.length l)) l.

Definition topk (query_vec : list R) (corpus_vecs : list (list R)) (k : Z)
  : exc (list (nat * R)) :=
  do scores <- exc_map (fun iv =>
                          do s <- cosine_similarity query_vec (snd iv);
                          Ok (fst iv, s))
                       (enumerate corpus_vecs);
  Ok (firstn (Z.to_nat (Z.max 0 k)) (PySort.sort_desc sim_ltb scores)).

End Vector.

(* ===================================================================== *)
(** * tag_cluster.py: 2-means over tag embeddings *)
(* ===================================================================== *)

Module TagCluster.

(** [sum((a - b) * (a - b) for a, b in zip(v, c))] *)
Definition sq_dist (v c : list Q) : Q :=
  fold_left Qplus
    (map (fun ab => ((fst ab - snd ab) * (fst ab - snd ab))%Q) (combine v c))
    0%Q.

Definition assign_all (vectors : list (list Q)) (c0 c1 : list Q) : list nat :=
  map (fun v => if Qle_bool (sq_dist v c0) (sq_dist v c1) then 0 else 1)
      vectors.

(** [x / n]: a zero count raises. *)
Definition div_count (n : nat) (x : Q) : exc Q :=
  if Nat.eqb n 0 then Raise ZeroDivisionError
  else Ok (x / inject_Z (Z.of_nat n))%Q.

(** [if n: c = [x / n for x in s]] *)
Definition centroid (c s : list Q) (n : nat) : exc (list Q) :=
  if Nat.eqb n 0 then Ok c else exc_map (div_count n) s.

Definition kmeans_round (vectors : list (list Q))
    (st : list Q * list Q * list nat) : exc (list Q * list Q * list nat) :=
  let '(c0, c1, _) := st in
  let assign := assign_all vectors c0 c1 in
  let dim := List.length (List.hd [] vectors) in
  let '((s0, n0), (s1, n1)) := Cluster.accumulate dim vectors assign in
  do c0' <- centroid c0 s0 n0;
  do c1' <- centroid c1 s1 n1;
  Ok (c0', c1', assign).

(** [for _ in range(n)] over a body that may raise. *)
Fixpoint rounds {S : Type} (n : nat) (body : S -> exc S) (s : S) : exc S :=
  match n with
  | O => Ok s
  | S n' => do s' <- body s; rounds n' body s'
  end.

Definition _kmeans_2 (vectors : list (list Q)) (iters : Z)
  : exc (list Q * list Q * list nat) :=
  match vectors with
  | [] => Ok ([], [], [])
  | v0 :: _ =>
      rounds (Z.to_nat (Z.max 1 iters)) (kmeans_round vectors)
        (v0, List.last vectors v0, repeat 0 (List.length vectors))
  end.

End TagCluster.

(* ===================================================================== *)
(** * streams.py: overlap of token lists *)
(* ===================================================================== *)

Module Streams.

(** [_jaccard]: the quotient is a float, read as a rational. *)
Definition _jaccard (a b : list string) : Q :=
  let sa : gset string := list_to_set a in
  let sb : gset string := list_to_set b in
  if decide (sa = ∅) then
    if decide (sb = ∅) then 1%Q else 0%Q
  else if decide (sb = ∅) then 0%Q
  else (inject_Z (Z.of_nat (size (sa ∩ sb)))
        / inject_Z (Z.of_nat (Nat.max 1 (size (sa ∪ sb)))))%Q.

(** The features of one length: [words[i:i+n]] joined by ["_"], for
    every start [i] in [range(0, max(0, len(words) - n + 1))]. *)
Definition windows (n : nat) (words : list string) : list string :=
  map (fun i => PyStr.join "_" (firstn n (skipn i words)))
      (seq 0 (List.length words + 1 - n)).

(** The body of the loop over [n]. *)
Definition grams (n : nat) (words : list string) : list string :=
  if Nat.eqb n 1 then words else windows n words.

Definition _make_ngrams (words : list string) (n_min n_max : Z) : list string :=
  let lo := Z.max 1 n_min in
  let hi := Z.max lo n_max in
  match words with
  | [] => []
  | _ => flat_map (fun n => grams n words)
           (seq (Z.to_nat lo) (Z.to_nat (hi + 1 - lo)))
  end.

End Streams.

(* ===================================================================== *)
(** * cluster.py: the members of a node *)
(* ===================================================================== *)

Module ClusterSummary.
Import Cluster.

(** [collect_ids] inside [summarize_clusters]: the identifiers of the
    leaves below a node, left to right, read from the [ids] list of the
    tree file. *)
Fixpoint collect_ids (ids : list string) (node : tree) : exc (list string) :=
  match node with
  | Leaf _ members =>
      exc_map (fun i => match nth_error ids i with
                        | Some ident => Ok ident
                        | None => Raise IndexError
                        end) members
  | Node _ l r =>
      do a <- collect_ids ids l;
      do b <- collect_ids ids r;
      Ok (a ++ b)
  end.

End ClusterSummary.

(* ===================================================================== *)
(** * index.py: sampling the index *)
(* ===================================================================== *)

Module Sampling.

(** [l[i] = x]: a negative index counts from the end, an index out of
    range raises. *)
Definition py_setitem {A : Type} (l : list A) (i : Z) (x : A) : exc (list A) :=
  let len := Z.of_nat (List.length l) in
  if (0 <=? i)%Z && (i <? len)%Z then Ok (<[Z.to_nat i := x]> l)
  else if (- len <=? i)%Z && (i <? 0)%Z then Ok (<[Z.to_nat (len + i) := x]> l)
  else Raise IndexError.

Section Sample.

(** [random.randint(1, t)] as drawn at line [t]. *)
Variable randint : nat -> Z.
(** The size of the sample. *)
Variable n : Z.

(** One line of the file: [None] is a line that [json.loads] rejects. *)
Definition sample_step (reservoir : list pyval) (tl : nat * option pyval)
  : exc (list pyval) :=
  match snd tl with
  | None => Ok reservoir
  | Some obj =>
      if (Z.of_nat (List.length reservoir) <? n)%Z then Ok (reservoir ++ [obj])
      else
        let j := randint (fst tl) in
        if (j <=? n)%Z then py_setitem reservoir (j - 1)%Z obj
        else Ok reservoir
  end.

(** [sample_index] over the lines of the index file. *)
Definition sample_index (lines : list (option pyval)) : exc (list pyval) :=
  exc_fold sample_step (combine (seq 1 (List.length lines)) lines) [].

End Sample.

End Sampling.

(* ===================================================================== *)
(** * index.py: sparse search over the items table *)
(* ===================================================================== *)

Module ItemsSearch.

(** One result of [items_search]. *)
Record hit : Type := Hit {
  h_composer_id : string;
  h_turn_index : Z;
  h_user_head : string;
  h_assistant_head : string;
  h_score : Z
}.

Definition meta_keys : list string :=
  ["contains_design"; "contains_preference"; "contains_learning";
   "unfinished_thread"; "has_useful_output"].

(** [(user or "")] as the left operand of [+ "\n"]. *)
Definition text_operand (user : pyval) : exc string :=
  if truthy user then
    match user with
    | PStr s => Ok s
    | _ => Raise TypeError
    end
  else Ok EmptyString.

(** [uh or (text or "").splitlines()[0][:n]] for a head that is a [str]. *)
Definition head_or (head text : string) (n : nat) : exc string :=
  if PyStr.is_empty head then Annotate.first_line n text else Ok head.

Section Search.

(** [json.loads]: [None] when it raises. *)
Variable json_loads : string -> option pyval.
Variable query : string.

(** [json.loads(ann_text) if ann_text else {}], and [{}] on failure. *)
Definition ann_of (ann_text : string) : pyval :=
  if PyStr.is_empty ann_text then PDict []
  else match json_loads ann_text with
       | Some v => v
       | None => PDict []
       end.

Definition meta_bits (ann : pyval) : exc (list string) :=
  match ann with
  | PDict kvs =>
      let flags := List.filter (fun k => truthy (dict_get kvs k)) meta_keys in
      do tags <- Parser.py_iter (py_or (dict_get kvs "tags") (PList []));
      Ok (flags
          ++ flat_map (fun t => match t with
                                | PStr tag =>
                                    if PyStr.is_empty tag then []
                                    else ["tag:" +:+ tag]
                                | _ => []
                                end) tags)
  | _ => Ok []
  end.

(** The text a row is scored on. *)
Definition search_text (r : Index.row) : exc string :=
  do u <- text_operand (Index.r_user r);
  let base_text := PyStr.strip (u +:+ PyStr.NL +:+ Index.r_assistant r) in
  do bits <- meta_bits (ann_of (Index.r_annotations r));
  let meta_text := PyStr.strip (PyStr.join " " bits) in
  Ok (PyStr.strip
        (base_text +:+ (if PyStr.is_empty meta_text then EmptyString
                        else PyStr.NL +:+ meta_text))).

(** The body of the loop over the rows: the hit appended, if any. *)
Definition row_hit (kr : (string * Z) * Index.row) : exc (list hit) :=
  let '((cid, tix), r) := kr in
  do text <- search_text r;
  let s := Rag._score query (Some text) in
  if (0 <? s)%Z then
    do u <- text_operand (Index.r_user r);
    do uh <- head_or (Index.r_user_head r) u 160;
    do ah <- head_or (Index.r_assistant_head r) (Index.r_assistant r) 200;
    Ok [{| h_composer_id := cid; h_turn_index := tix;
           h_user_head := uh; h_assistant_head := ah; h_score := s |}]
  else Ok [].

Definition hit_ltb (x y : hit) : bool := (h_score x <? h_score y)%Z.

(** [items_search] over the rows of the table in key order. *)
Definition items_search (table : string)
    (rows : list ((string * Z) * Index.row)) (k : Z) : exc (list hit) :=
  if negb (Index.valid_table_name table) then Raise ValueError
  else
    do hits <- exc_map row_hit rows;
    Ok (Index.py_take k (PySort.sort_desc hit_ltb (concat hits))).

End Search.

End ItemsSearch.

(* ===================================================================== *)
(** * Properties *)
(* ===================================================================== *)

(** ** Loops and strings *)

Lemma exc_fold_app {A S : Type} (step : S -> A -> exc S) (l1 l2 : list A) (s : S) :
  exc_fold step (l1 ++ l2) s
  = exc_bind (exc_fold step l1 s) (fun s' => exc_fold step l2 s').
Proof.
  revert s. induction l1 as [|x l1 IH]; intros s; simpl; [reflexivity|].
  destruct (step s x) as [s'|e]; simpl; [apply IH | reflexivity].
Qed.

Lemma exc_fold_cons {A S : Type} (step : S -> A -> exc S) (x : A) (l : list A) (s : S) :
  exc_fold step (x :: l) s
  = exc_bind (step s x) (fun s' => exc_fold step l s').
Proof. reflexivity. Qed.

Module PyStrFacts.
Import PyStr.

(** A text with no white space at either end, and not empty. *)
Definition trimmed (s : string) : Prop :=
  s <> EmptyString /\ lstrip s = s /\ rstrip s = s.

Lemma lstrip_length (s : string) : String.length (lstrip s) <= String.length s.
Proof.
  induction s as [|c s IH]; simpl; [lia|].
  destruct (is_space c); simpl; lia.
Qed.

Lemma lstrip_fixed_head (c : ascii) (s : string) :
  lstrip (String c s) = String c s -> is_space c = false.
Proof.
  simpl. destruct (is_space c); [|reflexivity].
  intros H. pose proof (lstrip_length s) as L. rewrite H in L. simpl in L. lia.
Qed.

Lemma app_cons (c : ascii) (a b : string) :
  String c a +:+ b = String c (a +:+ b).
Proof. reflexivity. Qed.

Lemma lstrip_app (a x : string) :
  a <> EmptyString -> lstrip a = a -> lstrip (a +:+ x) = a +:+ x.
Proof.
  destruct a as [|c a]; [congruence|]. intros _ H.
  apply lstrip_fixed_head in H. simpl. now rewrite H.
Qed.

Lemma app_nonempty_r (x b : string) :
  b <> EmptyString -> x +:+ b <> EmptyString.
Proof. destruct x; simpl; [auto | discriminate]. Qed.

Lemma rstrip_app (x b : string) :
  b <> EmptyString -> rstrip b = b -> rstrip (x +:+ b) = x +:+ b.
Proof.
  intros Hne Hb. induction x as [|c x IH]; [exact Hb|].
  pose proof (app_nonempty_r x b Hne) as Hn.
  change (String c x +:+ b) with (String c (x +:+ b)).
  remember (x +:+ b) as y eqn:Ey. simpl. rewrite IH.
  destruct y; [congruence | reflexivity].
Qed.

Lemma append_assoc (a b c : string) : (a +:+ b) +:+ c = a +:+ (b +:+ c).
Proof.
  induction a as [|x a IH]; [reflexivity|].
  rewrite !app_cons. f_equal. exact IH.
Qed.

Lemma strip_join (a b : string) :
  trimmed a -> trimmed b -> strip (a +:+ NLNL +:+ b) = a +:+ NLNL +:+ b.
Proof.
  intros (Ha & La & _) (Hb & _ & Rb). unfold strip.
  rewrite lstrip_app by assumption.
  rewrite <- append_assoc. now apply rstrip_app.
Qed.

Lemma trimmed_join (a b : string) :
  trimmed a -> trimmed b -> trimmed (a +:+ NLNL +:+ b).
Proof.
  intros (Ha & La & Ra) (Hb & Lb & Rb). repeat split.
  - destruct a; [congruence | discriminate].
  - now apply lstrip_app.
  - rewrite <- append_assoc. now apply rstrip_app.
Qed.

Lemma trimmed_strip (a : string) : trimmed a -> strip a = a.
Proof. intros (_ & L & R). unfold strip. now rewrite L. Qed.

End PyStrFacts.

(** ** Coalescing and turn pairs *)

Module ParserFacts.
Import Parser PyStr PyStrFacts.

Lemma is_nonempty_trimmed (s : string) :
  trimmed s -> _is_nonempty (PStr s) = Ok true.
Proof.
  intros T. pose proof (trimmed_strip s T) as E. destruct T as (Hne & _).
  unfold _is_nonempty. simpl. destruct s; [congruence|]. simpl is_empty. simpl negb.
  cbv iota. rewrite E. reflexivity.
Qed.

Lemma is_nonempty_blank (s : string) :
  strip s = EmptyString -> _is_nonempty (PStr s) = Ok false.
Proof.
  intros E. unfold _is_nonempty. simpl. destruct s; simpl; [reflexivity|].
  rewrite E. reflexivity.
Qed.

(** A true answer of [_is_nonempty] is given on a [str] only. *)
Lemma is_nonempty_true_str (t : pyval) :
  _is_nonempty t = Ok true -> exists s, t = PStr s.
Proof.
  unfold _is_nonempty. destruct (truthy t); [|discriminate].
  destruct t; try discriminate. eauto.
Qed.

Lemma coalesce_step_blank (st : coalesce_state) (e : message) (s : string) :
  role e = "assistant" -> text e = PStr s -> strip s = EmptyString ->
  coalesce_step st e = Ok st.
Proof.
  intros Hr Ht Hs. unfold coalesce_step. destruct st as [co pend].
  rewrite Hr, Ht. simpl. rewrite (is_nonempty_blank s Hs). reflexivity.
Qed.

Lemma coalesce_skip (pre post : list message) (e : message) (s : string) :
  role e = "assistant" -> text e = PStr s -> strip s = EmptyString ->
  coalesce_assistant_runs (pre ++ e :: post) = coalesce_assistant_runs (pre ++ post).
Proof.
  intros Hr Ht Hs. unfold coalesce_assistant_runs.
  rewrite !exc_fold_app.
  destruct (exc_fold coalesce_step pre ([], None)) as [st|err]; simpl; [|reflexivity].
  rewrite (coalesce_step_blank st e s Hr Ht Hs). reflexivity.
Qed.

Lemma set_text_twice (m : message) (t1 t2 : pyval) :
  set_text (set_text m t1) t2 = set_text m t2.
Proof. reflexivity. Qed.

Lemma coalesce_three (m1 m2 m3 : message) (a b c : string) :
  role m1 = "assistant" -> role m2 = "assistant" -> role m3 = "assistant" ->
  text m1 = PStr a -> text m2 = PStr b -> text m3 = PStr c ->
  trimmed a -> trimmed b -> trimmed c ->
  coalesce_assistant_runs [m1; m2; m3]
  = Ok [set_text m1 (PStr (a +:+ NLNL +:+ b +:+ NLNL +:+ c))].
Proof.
  intros R1 R2 R3 T1 T2 T3 Ta Tb Tc.
  unfold coalesce_assistant_runs. simpl exc_fold.
  unfold coalesce_step at 1. rewrite R1, T1. simpl String.eqb. cbv iota.
  rewrite (is_nonempty_trimmed a Ta). simpl.
  rewrite R2, T2. simpl String.eqb. cbv iota.
  rewrite (is_nonempty_trimmed b Tb). simpl.
  rewrite T1. simpl. rewrite (strip_join a b Ta Tb).
  rewrite R3, T3. simpl String.eqb. cbv iota.
  rewrite (is_nonempty_trimmed c Tc). simpl.
  rewrite (strip_join _ c (trimmed_join a b Ta Tb) Tc).
  unfold coalesce_flush. simpl. rewrite append_assoc. reflexivity.
Qed.

Lemma qa_flush_content (ms1 ms2 : list message) (st : qa_state) :
  map pair_content (qa_flush ms1 st) = map pair_content (qa_flush ms2 st).
Proof.
  unfold qa_flush.
  destruct (current_user st), (current_assistant_text st);
    rewrite ?map_app; reflexivity.
Qed.

Lemma qa_flush_head (ms1 ms2 : list message) (st : qa_state) :
  List.head ms1 = List.head ms2 -> qa_flush ms1 st = qa_flush ms2 st.
Proof.
  unfold qa_flush. intros H.
  destruct ms1, ms2; simpl in H; try discriminate; [reflexivity|].
  injection H as ->. reflexivity.
Qed.

Lemma build_skip_content (pre post : list message) (e : message) (s : string) :
  role e = "assistant" -> text e = PStr s -> strip s = EmptyString ->
  exc_fmap (map pair_content) (build_qa_pairs (pre ++ e :: post))
  = exc_fmap (map pair_content) (build_qa_pairs (pre ++ post)).
Proof.
  intros Hr Ht Hs. unfold build_qa_pairs.
  rewrite (coalesce_skip pre post e s Hr Ht Hs).
  destruct (coalesce_assistant_runs (pre ++ post)) as [msgs|err]; simpl; [|reflexivity].
  destruct (exc_fold qa_step msgs qa_init) as [st|err]; simpl; [|reflexivity].
  f_equal. apply qa_flush_content.
Qed.

Lemma build_skip_inner (pre post : list message) (e : message) (s : string) :
  role e = "assistant" -> text e = PStr s -> strip s = EmptyString ->
  pre <> [] ->
  build_qa_pairs (pre ++ e :: post) = build_qa_pairs (pre ++ post).
Proof.
  intros Hr Ht Hs Hpre. unfold build_qa_pairs.
  rewrite (coalesce_skip pre post e s Hr Ht Hs).
  destruct (coalesce_assistant_runs (pre ++ post)) as [msgs|err]; simpl; [|reflexivity].
  destruct (exc_fold qa_step msgs qa_init) as [st|err]; simpl; [|reflexivity].
  f_equal. apply qa_flush_head. destruct pre; [congruence | reflexivity].
Qed.

End ParserFacts.

(** C2. Three consecutive assistant messages whose texts are not empty and
    carry no white space at their ends (such as "A", "B" and "C") coalesce
    into one assistant message whose text is the three texts, in order,
    joined by blank lines.  An assistant message whose text is empty or
    white space only, put anywhere in a conversation, changes neither the
    output of [coalesce_assistant_runs] nor the number, the indices or the
    texts of the turn pairs: it is dropped and ends no turn. *)
Theorem C2_coalesce_joins_and_drops_blank
    (m1 m2 m3 : Parser.message) (a b c : string)
    (pre post : list Parser.message) (e : Parser.message) (blank : string)
    (R1 : Parser.role m1 = "assistant") (R2 : Parser.role m2 = "assistant")
    (R3 : Parser.role m3 = "assistant")
    (T1 : Parser.text m1 = PStr a) (T2 : Parser.text m2 = PStr b)
    (T3 : Parser.text m3 = PStr c)
    (Ta : PyStrFacts.trimmed a) (Tb : PyStrFacts.trimmed b)
    (Tc : PyStrFacts.trimmed c)
    (Re : Parser.role e = "assistant") (Te : Parser.text e = PStr blank)
    (Be : PyStr.strip blank = EmptyString) :
  Parser.coalesce_assistant_runs [m1; m2; m3]
  = Ok [Parser.set_text m1
          (PStr (a +:+ PyStr.NLNL +:+ b +:+ PyStr.NLNL +:+ c))]
  /\ Parser.coalesce_assistant_runs (pre ++ e :: post)
     = Parser.coalesce_assistant_runs (pre ++ post)
  /\ exc_fmap (map Parser.pair_content) (Parser.build_qa_pairs (pre ++ e :: post))
     = exc_fmap (map Parser.pair_content) (Parser.build_qa_pairs (pre ++ post))
  /\ (pre <> [] ->
      Parser.build_qa_pairs (pre ++ e :: post) = Parser.build_qa_pairs (pre ++ post)).
Proof.
  split; [now apply ParserFacts.coalesce_three|].
  split; [now apply (ParserFacts.coalesce_skip pre post e blank)|].
  split; [now apply (ParserFacts.build_skip_content pre post e blank)|].
  now apply (ParserFacts.build_skip_inner pre post e blank).
Qed.

Module ParserExamples.
Import Parser.
Definition asst (t : string) : message :=
  Message "c" PNone PNone "assistant" (PStr t).
Definition usr (t : string) : message :=
  Message "c" PNone PNone "user" (PStr t).
End ParserExamples.

Lemma C2_coalesce_joins_and_drops_blank_witness :
  let m1 := ParserExamples.asst "A" in
  let m2 := ParserExamples.asst "B" in
  let m3 := ParserExamples.asst "C" in
  let e := ParserExamples.asst " " in
  let pre := [ParserExamples.usr "q"; ParserExamples.asst "A"] in
  let post := [ParserExamples.asst "B"] in
  Parser.coalesce_assistant_runs [m1; m2; m3]
  = Ok [Parser.set_text m1
          (PStr ("A" +:+ PyStr.NLNL +:+ "B" +:+ PyStr.NLNL +:+ "C"))]
  /\ Parser.coalesce_assistant_runs (pre ++ e :: post)
     = Parser.coalesce_assistant_runs (pre ++ post)
  /\ exc_fmap (map Parser.pair_content) (Parser.build_qa_pairs (pre ++ e :: post))
     = exc_fmap (map Parser.pair_content) (Parser.build_qa_pairs (pre ++ post))
  /\ (pre <> [] ->
      Parser.build_qa_pairs (pre ++ e :: post) = Parser.build_qa_pairs (pre ++ post)).
Proof.
  intros m1 m2 m3 e pre post.
  apply (C2_coalesce_joins_and_drops_blank m1 m2 m3 "A" "B" "C" pre post e " ");
    try reflexivity; repeat split; try discriminate; reflexivity.
Defined.

Module TurnFacts.
Import Parser PyStr ParserFacts.

(** The answer of [_is_nonempty] on a [str]. *)
Definition nonblank (s : string) : bool :=
  negb (is_empty s) && negb (is_empty (strip s)).

Lemma is_nonempty_str (s : string) : _is_nonempty (PStr s) = Ok (nonblank s).
Proof. unfold _is_nonempty, nonblank. simpl. destruct s; reflexivity. Qed.

(** The messages that survive coalescing in an alternating conversation. *)
Definition keep (m : message) : bool :=
  String.eqb (role m) "user"
  || match text m with
     | PStr s => nonblank s
     | _ => false
     end.

Definition opt_list {A : Type} (o : option A) : list A :=
  match o with Some x => [x] | None => [] end.

Lemma coalesce_alternating (l : list message) :
  forall (b : bool) (acc : list message) (pend : option message),
    alternating b l -> (b = false -> pend = None) ->
    exists st, exc_fold coalesce_step l (acc, pend) = Ok st
               /\ coalesce_flush st = acc ++ opt_list pend ++ List.filter keep l.
Proof.
  induction l as [|m l IH]; intros b acc pend Halt Hp.
  - exists (acc, pend). split; [reflexivity|].
    unfold coalesce_flush. simpl. destruct pend; simpl; now rewrite ?app_nil_r.
  - destruct Halt as (Hr & (s & Ht) & Hrest). destruct b.
    + (* a user message flushes the pending assistant *)
      assert (Hstep : coalesce_step (acc, pend) m = Ok (acc ++ opt_list pend ++ [m], None)).
      { unfold coalesce_step. rewrite Hr. simpl. destruct pend; reflexivity. }
      destruct (IH false (acc ++ opt_list pend ++ [m]) None Hrest (fun _ => eq_refl))
        as (st & Hst & Hfl).
      exists st. split.
      * rewrite exc_fold_cons, Hstep. exact Hst.
      * assert (Hk : keep m = true) by (unfold keep; rewrite Hr; reflexivity).
        rewrite Hfl. simpl. rewrite Hk, <- !app_assoc. reflexivity.
    + rewrite (Hp eq_refl). simpl opt_list.
      assert (Hstep : coalesce_step (acc, None) m
                      = Ok (acc, if nonblank s then Some m else None)).
      { unfold coalesce_step. rewrite Hr, Ht. simpl.
        rewrite is_nonempty_str. simpl. destruct (nonblank s); reflexivity. }
      destruct (IH true acc (if nonblank s then Some m else None) Hrest)
        as (st & Hst & Hfl); [discriminate|].
      exists st. split.
      * rewrite exc_fold_cons, Hstep. exact Hst.
      * assert (Hk : keep m = nonblank s)
          by (unfold keep; rewrite Hr, Ht; reflexivity).
        rewrite Hfl. simpl. rewrite Hk. destruct (nonblank s); reflexivity.
Qed.

(** The turn indices emitted so far are 0, 1, 2, ... and the counter is
    the next one. *)
Definition idx_ok (st : qa_state) : Prop :=
  next_turn_index st = Z.of_nat (List.length (pairs st))
  /\ map turn_index (pairs st)
     = map Z.of_nat (seq 0 (List.length (pairs st))).

Lemma indices_snoc (ps : list pair) (p : pair) :
  map turn_index ps = map Z.of_nat (seq 0 (List.length ps)) ->
  turn_index p = Z.of_nat (List.length ps) ->
  map turn_index (ps ++ [p])
  = map Z.of_nat (seq 0 (List.length (ps ++ [p]))).
Proof.
  intros Hm Hp. rewrite map_app, length_app. simpl.
  rewrite Nat.add_1_r, seq_S, map_app. simpl. now rewrite Hm, Hp.
Qed.

Lemma qa_step_idx (st st' : qa_state) (m : message) :
  qa_step st m = Ok st' -> idx_ok st -> idx_ok st'.
Proof.
  unfold qa_step, idx_ok. intros H (Hn & Hm).
  destruct (String.eqb (role m) "user").
  - injection H as <-.
    destruct (current_user st) as [u|], (current_assistant_text st) as [|t ts];
      simpl; try (split; assumption);
      (split; [rewrite length_app; simpl; lia
              | apply indices_snoc; [assumption | simpl; assumption]]).
  - destruct (String.eqb (role m) "assistant"); [|injection H as <-; now split].
    destruct (_is_nonempty (text m)) as [[|]|]; simpl in H; try discriminate.
    + destruct (text m); try discriminate. injection H as <-. now split.
    + injection H as <-. now split.
Qed.

Lemma qa_fold_idx (l : list message) :
  forall st st', exc_fold qa_step l st = Ok st' -> idx_ok st -> idx_ok st'.
Proof.
  induction l as [|m l IH]; intros st st' H Hok; simpl in H.
  - injection H as <-. exact Hok.
  - destruct (qa_step st m) as [st1|] eqn:E; simpl in H; [|discriminate].
    eapply IH; [exact H|]. eapply qa_step_idx; eauto.
Qed.

Lemma qa_flush_idx (msgs : list message) (st : qa_state) :
  idx_ok st ->
  map turn_index (qa_flush msgs st)
  = map Z.of_nat (seq 0 (List.length (qa_flush msgs st))).
Proof.
  intros (Hn & Hm). unfold qa_flush.
  destruct (current_user st), (current_assistant_text st);
    try assumption; apply indices_snoc; assumption.
Qed.

(** In every conversation the turn indices are 0, 1, 2, ... in emission
    order. *)
Lemma build_qa_pairs_indices (msgs : list message) (ps : list pair) :
  build_qa_pairs msgs = Ok ps ->
  map turn_index ps = map Z.of_nat (seq 0 (List.length ps)).
Proof.
  unfold build_qa_pairs. intros H.
  destruct (coalesce_assistant_runs msgs) as [co|]; simpl in H; [|discriminate].
  destruct (exc_fold qa_step co qa_init) as [st|] eqn:E; simpl in H; [|discriminate].
  injection H as <-. apply qa_flush_idx.
  eapply qa_fold_idx; [exact E|]. split; reflexivity.
Qed.

(** The pairs a flush would return: those emitted plus the open one. *)
Definition total (st : qa_state) : nat :=
  List.length (pairs st)
  + match current_user st, current_assistant_text st with
    | None, [] => 0
    | _, _ => 1
    end.

Lemma qa_flush_length (msgs : list message) (st : qa_state) :
  List.length (qa_flush msgs st) = total st.
Proof.
  unfold qa_flush, total.
  destruct (current_user st), (current_assistant_text st);
    rewrite ?length_app; simpl; lia.
Qed.

(** The user messages among [n] alternating messages. *)
Definition users (b : bool) (n : nat) : nat :=
  if b then Nat.div2 (S n) else Nat.div2 n.

Lemma qa_alternating (l : list message) :
  forall (b : bool) (st : qa_state),
    alternating b l -> (b = false -> current_user st <> None) ->
    exists st', exc_fold qa_step (List.filter keep l) st = Ok st'
                /\ total st' = total st + users b (List.length l).
Proof.
  induction l as [|m l IH]; intros b st Halt Hcu.
  - exists st. split; [reflexivity|]. destruct b; simpl; lia.
  - destruct Halt as (Hr & (s & Ht) & Hrest). destruct b.
    + assert (Hk : keep m = true) by (unfold keep; rewrite Hr; reflexivity).
      simpl List.filter. rewrite Hk. simpl exc_fold.
      unfold qa_step at 1. rewrite Hr. simpl String.eqb. cbv iota. simpl exc_bind.
      match goal with |- exists st', exc_fold _ _ ?s1 = _ /\ _ =>
        destruct (IH false s1 Hrest) as (st' & Hst & Htot); [simpl; discriminate|];
        exists st'; split; [exact Hst|]; rewrite Htot
      end.
      unfold total at 1 2. simpl.
      destruct (current_user st), (current_assistant_text st); simpl;
        rewrite ?length_app; simpl; destruct (List.length l); simpl; lia.
    + specialize (Hcu eq_refl).
      assert (Hu : users false (List.length (m :: l)) = users true (List.length l))
        by reflexivity.
      assert (Hk : keep m = nonblank s)
        by (unfold keep; rewrite Hr, Ht; reflexivity).
      rewrite Hu. simpl List.filter. rewrite Hk.
      destruct (nonblank s) eqn:Enb.
      * simpl exc_fold. unfold qa_step at 1. rewrite Hr, Ht. simpl String.eqb.
        cbv iota. rewrite is_nonempty_str, Enb. simpl exc_bind.
        match goal with |- exists st', exc_fold _ _ ?s1 = _ /\ _ =>
          destruct (IH true s1 Hrest) as (st' & Hst & Htot); [discriminate|];
          exists st'; split; [exact Hst|]; rewrite Htot
        end.
        unfold total. simpl. destruct (current_user st); [|congruence].
        destruct (current_assistant_text st); simpl; lia.
      * destruct (IH true st Hrest) as (st' & Hst & Htot); [discriminate|].
        exists st'. split; assumption.
Qed.

(** A conversation that opens with an assistant message has one pair more:
    the leading assistant text is a pair of its own, with no user text. *)
Example assistant_first_extra_pair :
  exc_fmap (@List.length pair)
    (build_qa_pairs [ParserExamples.asst "a1"; ParserExamples.usr "u1"]) = Ok 2.
Proof. reflexivity. Qed.

End TurnFacts.

(** C1. A conversation of [n] messages that alternate user, assistant,
    user, ..., each with a text, is rebuilt without error into exactly
    ceil(n/2) turn pairs, whose turn indices are 0, 1, 2, ... in emission
    order. *)
Theorem C1_alternating_turn_pairs (msgs : list Parser.message)
    (H : Parser.alternating true msgs) :
  exists ps : list Parser.pair,
    Parser.build_qa_pairs msgs = Ok ps
    /\ List.length ps = (List.length msgs + 1) / 2
    /\ map Parser.turn_index ps = map Z.of_nat (seq 0 (List.length ps)).
Proof.
  destruct (TurnFacts.coalesce_alternating msgs true [] None H) as (st & Hst & Hfl);
    [discriminate|].
  destruct (TurnFacts.qa_alternating msgs true Parser.qa_init H) as (st' & Hq & Htot);
    [discriminate|].
  assert (Hb : Parser.build_qa_pairs msgs = Ok (Parser.qa_flush msgs st')).
  { unfold Parser.build_qa_pairs, Parser.coalesce_assistant_runs.
    rewrite Hst. simpl. rewrite Hfl. simpl. rewrite Hq. reflexivity. }
  exists (Parser.qa_flush msgs st'). split; [exact Hb|]. split.
  - rewrite TurnFacts.qa_flush_length, Htot.
    change (TurnFacts.total Parser.qa_init) with 0.
    unfold TurnFacts.users. rewrite Nat.add_1_r, Nat.add_0_l.
    apply Nat.div2_div.
  - apply (TurnFacts.build_qa_pairs_indices msgs). exact Hb.
Qed.

Lemma C1_alternating_turn_pairs_witness :
  exists ps : list Parser.pair,
    Parser.build_qa_pairs
      [ParserExamples.usr "u1"; ParserExamples.asst "a1"; ParserExamples.usr "u2"] = Ok ps
    /\ List.length ps = 2
    /\ map Parser.turn_index ps = map Z.of_nat (seq 0 (List.length ps)).
Proof.
  apply (C1_alternating_turn_pairs
           [ParserExamples.usr "u1"; ParserExamples.asst "a1"; ParserExamples.usr "u2"]).
  simpl. repeat split; eauto.
Defined.

(** ** Reconstruction from the store *)

Module StoreFacts.
Import Parser.

Section Store.
Variable kv_value : string -> option string.
Variable to_text : string -> string.
Variable json_loads : string -> option pyval.
Variable py_repr : pyval -> string.

(** The value under [key] is absent, or [json.loads] raises on it. *)
Definition unreadable (key : string) : Prop :=
  match kv_value key with
  | None => True
  | Some val => json_loads (to_text val) = None
  end.

Definition bubble_key (composer_id : string) (bubble_id : pyval) : string :=
  "bubbleId:" +:+ composer_id +:+ ":" +:+ py_fmt py_repr bubble_id.

Lemma load_composer_unreadable (cid : string) :
  unreadable ("composerData:" +:+ cid) ->
  load_composer kv_value to_text json_loads cid = PNone.
Proof.
  unfold unreadable, load_composer, parse_json.
  destruct (kv_value _) as [val|]; [|reflexivity].
  intros ->. reflexivity.
Qed.

Lemma load_bubble_unreadable (cid : string) (b : pyval) :
  unreadable (bubble_key cid b) ->
  load_bubble kv_value to_text json_loads py_repr cid b = PNone.
Proof.
  unfold unreadable, bubble_key, load_bubble, parse_json.
  destruct (kv_value _) as [val|]; [|reflexivity].
  intros ->. reflexivity.
Qed.

Local Abbreviation step := (reconstruct_step kv_value to_text json_loads py_repr).
Local Abbreviation of_headers := (messages_of_headers kv_value to_text json_loads py_repr).

(** A header whose blob cannot be read leaves the messages as they are. *)
Lemma step_unreadable (cid : string) (msgs : list message)
    (hd : list (string * pyval)) :
  unreadable (bubble_key cid (dict_get hd "bubbleId")) ->
  step cid msgs (PDict hd) = Ok msgs.
Proof.
  intros U. unfold reconstruct_step. simpl.
  destruct (truthy (dict_get hd "bubbleId")); simpl; [|reflexivity].
  rewrite (load_bubble_unreadable cid _ U). reflexivity.
Qed.

(** A round of the loop only appends to the messages. *)
Lemma step_appends (cid : string) (acc : list message) (h : pyval) :
  step cid acc h = exc_fmap (app acc) (step cid [] h).
Proof.
  unfold reconstruct_step.
  destruct (py_get h "bubbleId") as [b|]; simpl; [|reflexivity].
  destruct (py_get h "type") as [ty|]; simpl; [|reflexivity].
  destruct (py_get h "serverBubbleId") as [sb|]; simpl; [|reflexivity].
  destruct (truthy b); simpl; [|now rewrite app_nil_r].
  destruct (truthy (load_bubble _ _ _ _ cid b)); simpl; [|now rewrite app_nil_r].
  match goal with
  | |- exc_bind ?m _ = _ => destruct m as [t|]; simpl; reflexivity
  end.
Qed.

Lemma fold_appends (cid : string) (hs : list pyval) :
  forall acc,
    exc_fold (step cid) hs acc
    = exc_fmap (app acc) (exc_fold (step cid) hs []).
Proof.
  induction hs as [|h hs IH]; intros acc.
  - simpl. now rewrite app_nil_r.
  - rewrite !exc_fold_cons, (step_appends cid acc h).
    destruct (step cid [] h) as [x|]; simpl; [|reflexivity].
    rewrite (IH (acc ++ x)), (IH x).
    destruct (exc_fold (step cid) hs []) as [ys|]; simpl; [|reflexivity].
    now rewrite app_assoc.
Qed.

(** The messages of a header list in which one blob cannot be read are
    those of the headers before it followed by those of the headers
    after it. *)
Lemma of_headers_skip (cid : string) (pre post : list pyval)
    (hd : list (string * pyval)) :
  unreadable (bubble_key cid (dict_get hd "bubbleId")) ->
  of_headers cid (pre ++ PDict hd :: post)
  = exc_bind (of_headers cid pre)
      (fun a => exc_bind (of_headers cid post) (fun b => Ok (a ++ b))).
Proof.
  intros U. unfold messages_of_headers.
  rewrite exc_fold_app.
  destruct (exc_fold (step cid) pre []) as [a|]; simpl; [|reflexivity].
  rewrite (step_unreadable cid a hd U). simpl.
  rewrite (fold_appends cid post a).
  destruct (exc_fold (step cid) post []); reflexivity.
Qed.

End Store.
End StoreFacts.

(** C8. When the record of a conversation is absent from the store, or is
    not JSON, [reconstruct_conversation] returns the empty list.  When the
    blob of one referenced message is absent or is not JSON, the result is
    what the headers before it yield followed by what the headers after it
    yield: that message alone is left out, and nothing is raised for it. *)
Theorem C8_reconstruction_absorbs_store_failures
    (kv_value : string -> option string) (to_text : string -> string)
    (json_loads : string -> option pyval) (py_repr : pyval -> string)
    (cid : string) :
  (StoreFacts.unreadable kv_value to_text json_loads ("composerData:" +:+ cid) ->
   Parser.reconstruct_conversation kv_value to_text json_loads py_repr cid = Ok [])
  /\ (forall (obj hd : list (string * pyval)) (pre post : list pyval),
        Parser.load_composer kv_value to_text json_loads cid = PDict obj ->
        dict_get obj "fullConversationHeadersOnly" = PList (pre ++ PDict hd :: post) ->
        StoreFacts.unreadable kv_value to_text json_loads
          (StoreFacts.bubble_key py_repr cid (dict_get hd "bubbleId")) ->
        Parser.reconstruct_conversation kv_value to_text json_loads py_repr cid
        = exc_bind
            (Parser.messages_of_headers kv_value to_text json_loads py_repr cid pre)
            (fun a =>
               exc_bind
                 (Parser.messages_of_headers kv_value to_text json_loads py_repr cid post)
                 (fun b => Ok (a ++ b)))).
Proof.
  split.
  - intros U. unfold Parser.reconstruct_conversation.
    rewrite (StoreFacts.load_composer_unreadable _ _ _ cid U). reflexivity.
  - intros obj hd pre post Hc Hh U. unfold Parser.reconstruct_conversation.
    rewrite Hc. destruct obj as [|kv0 obj']; [discriminate Hh|].
    simpl negb. cbv iota. simpl py_get. simpl exc_bind. rewrite Hh.
    assert (Ht : truthy (PList (pre ++ PDict hd :: post)) = true)
      by (destruct pre; reflexivity).
    unfold py_or. rewrite Ht. simpl.
    now apply StoreFacts.of_headers_skip.
Qed.

Module StoreExamples.

Definition header (bubble : string) (kind : Z) : pyval :=
  PDict [("bubbleId", PStr bubble); ("type", PInt kind)].

Definition composer_doc : pyval :=
  PDict [("fullConversationHeadersOnly",
          PList [header "b1" 1; header "b2" 2; header "b4" 2])].

(** A store with one conversation: the blob of [b2] is not JSON. *)
Definition kv_value (key : string) : option string :=
  if String.eqb key "composerData:cid" then Some "COMPOSER"
  else if String.eqb key "bubbleId:cid:b1" then Some "B1"
  else if String.eqb key "bubbleId:cid:b2" then Some "{not json"
  else if String.eqb key "bubbleId:cid:b4" then Some "B4"
  else None.

Definition json_loads (t : string) : option pyval :=
  if String.eqb t "COMPOSER" then Some composer_doc
  else if String.eqb t "B1" then Some (PDict [("text", PStr "hello")])
  else if String.eqb t "B4" then Some (PDict [("content", PStr "world")])
  else None.

Definition to_text (v : string) : string := v.
Definition py_repr (v : pyval) : string := "?".

End StoreExamples.

Lemma C8_reconstruction_absorbs_store_failures_witness :
  Parser.reconstruct_conversation StoreExamples.kv_value StoreExamples.to_text
    StoreExamples.json_loads StoreExamples.py_repr "absent" = Ok []
  /\ Parser.reconstruct_conversation StoreExamples.kv_value StoreExamples.to_text
       StoreExamples.json_loads StoreExamples.py_repr "cid"
     = Ok [Parser.Message "cid" (PStr "b1") PNone "user" (PStr "hello");
           Parser.Message "cid" (PStr "b4") PNone "assistant" (PStr "world")].
Proof.
  split.
  - apply (C8_reconstruction_absorbs_store_failures StoreExamples.kv_value
             StoreExamples.to_text StoreExamples.json_loads StoreExamples.py_repr
             "absent").
    exact I.
  - rewrite (proj2 (C8_reconstruction_absorbs_store_failures StoreExamples.kv_value
             StoreExamples.to_text StoreExamples.json_loads StoreExamples.py_repr
             "cid")
             [("fullConversationHeadersOnly",
               PList [StoreExamples.header "b1" 1; StoreExamples.header "b2" 2;
                      StoreExamples.header "b4" 2])]
             [("bubbleId", PStr "b2"); ("type", PInt 2)]
             [StoreExamples.header "b1" 1] [StoreExamples.header "b4" 2]
             eq_refl eq_refl eq_refl).
    reflexivity.
Defined.

(** ** Repository hint *)

Module HintFacts.
Import Parser.

(** [a] does not sort after [b]: the key of [a] is not below that of [b]. *)
Definition key_ge (a b : string) : Prop := key_ltb (score a) (score b) = false.

Lemma key_ltb_spec (a b : Z * Z) :
  key_ltb a b = true
  <-> (fst a < fst b \/ (fst a = fst b /\ snd a < snd b))%Z.
Proof.
  unfold key_ltb.
  rewrite orb_true_iff, andb_true_iff, !Z.ltb_lt, Z.eqb_eq. reflexivity.
Qed.

Lemma key_ltb_false (a b : Z * Z) :
  key_ltb a b = false
  <-> (fst b < fst a \/ (fst a = fst b /\ snd b <= snd a))%Z.
Proof.
  rewrite <- not_true_iff_false, key_ltb_spec. lia.
Qed.

Lemma key_ge_trans (a b c : string) : key_ge a b -> key_ge b c -> key_ge a c.
Proof. unfold key_ge. rewrite !key_ltb_false. lia. Qed.

Lemma key_lt_ge (a b : string) :
  key_ltb (score a) (score b) = true -> key_ge b a.
Proof. unfold key_ge. rewrite key_ltb_spec, key_ltb_false. lia. Qed.

Lemma key_ge_rank (a b : string) : key_ge a b -> (rank b <= rank a)%Z.
Proof. unfold key_ge. rewrite key_ltb_false. unfold score. simpl. lia. Qed.

Lemma insert_desc_perm (x : string) (l : list string) :
  Permutation (insert_desc x l) (x :: l).
Proof.
  induction l as [|y l IH]; simpl; [reflexivity|].
  destruct (key_ltb (score x) (score y)); [|reflexivity].
  rewrite IH. apply perm_swap.
Qed.

Lemma sort_desc_perm (l : list string) : Permutation (sort_desc l) l.
Proof.
  induction l as [|x l IH]; simpl; [reflexivity|].
  rewrite insert_desc_perm. now apply perm_skip.
Qed.

Lemma insert_desc_sorted (x : string) (l : list string) :
  StronglySorted key_ge l -> StronglySorted key_ge (insert_desc x l).
Proof.
  induction 1 as [|y l Hs IH Hall]; simpl.
  - constructor; constructor.
  - destruct (key_ltb (score x) (score y)) eqn:E.
    + constructor; [exact IH|].
      apply (Permutation_Forall (Permutation_sym (insert_desc_perm x l))).
      constructor; [now apply key_lt_ge | exact Hall].
    + constructor; [constructor; assumption|].
      constructor; [exact E|].
      eapply List.Forall_impl; [|exact Hall].
      intros z Hz. now apply (key_ge_trans x y z).
Qed.

Lemma sort_desc_sorted (l : list string) : StronglySorted key_ge (sort_desc l).
Proof.
  induction l as [|x l IH]; simpl; [constructor|].
  now apply insert_desc_sorted.
Qed.

Lemma sorted_weaken {A : Type} (R R' : A -> A -> Prop) (l : list A) :
  (forall a b, R a b -> R' a b) -> StronglySorted R l -> StronglySorted R' l.
Proof.
  intros HR. induction 1 as [|x l Hs IH Hall]; constructor; [exact IH|].
  eapply List.Forall_impl; [|exact Hall]. intros b. apply HR.
Qed.

Lemma rank_cases (s : string) :
  rank s = (if is_git s then 2 else if is_path s then 1 else 0)%Z.
Proof. reflexivity. Qed.

Lemma single_candidate (k v : string) :
  key_matches k = true -> v <> EmptyString ->
  candidates_of (PDict [(k, PStr v)]) = [v].
Proof.
  intros Hk Hv. unfold candidates_of. simpl. rewrite Hk.
  destruct v; [congruence | reflexivity].
Qed.

(** Evaluate the hint of a composer object from its candidate list. *)
Ltac hint_of_candidates He l :=
  let E := fresh "E" in
  assert (E := He l);
  simpl map in E; rewrite E;
  [vm_compute; reflexivity | repeat constructor; discriminate | discriminate].

End HintFacts.

(** C9. A composer object whose one candidate field holds
    [https://github.com/org/myrepo.git] has the hint [myrepo]; one whose
    candidate holds the path [/home/u/projects/foo/bar] has the hint
    [foo/bar].  The candidates are tried in the order of their rank, a git
    remote (rank 2) before a path (rank 1) before any other string
    (rank 0): the ranked list is a rearrangement of the candidates in which
    no candidate comes after one of lower rank. *)
Theorem C9_repo_hint_examples_and_ranking (k : string) (composer_obj : pyval)
    (Hk : Parser.key_matches k = true) :
  Parser.extract_repo_hint (PDict [(k, PStr "https://github.com/org/myrepo.git")])
  = Some "myrepo"
  /\ Parser.extract_repo_hint (PDict [(k, PStr "/home/u/projects/foo/bar")])
     = Some "foo/bar"
  /\ Permutation (Parser.sort_desc (Parser.candidates_of composer_obj))
       (Parser.candidates_of composer_obj)
  /\ StronglySorted (fun a b => (Parser.rank b <= Parser.rank a)%Z)
       (Parser.sort_desc (Parser.candidates_of composer_obj))
  /\ Parser.rank "https://github.com/org/myrepo.git" = 2%Z
  /\ Parser.rank "/home/u/projects/foo/bar" = 1%Z
  /\ Parser.rank "plain" = 0%Z
  /\ Parser.extract_repo_hint
       (PDict [(k, PStr "plain"); (k, PStr "/home/u/projects/foo/bar");
               (k, PStr "https://github.com/org/myrepo.git")])
     = Some "myrepo"
  /\ Parser.extract_repo_hint
       (PDict [(k, PStr "plain"); (k, PStr "/home/u/projects/foo/bar")])
     = Some "foo/bar".
Proof.
  assert (Hc : forall l : list string,
             Forall (fun v => v <> EmptyString) l ->
             Parser.candidates_of (PDict (map (fun v => (k, PStr v)) l)) = l).
  { induction l as [|v l IH]; intros Hl; [reflexivity|].
    inversion Hl as [|? ? Hv Hl']; subst.
    unfold Parser.candidates_of in *. simpl. rewrite Hk.
    destruct v; [congruence|]. simpl. f_equal. now apply IH. }
  assert (He : forall l : list string,
             Forall (fun v => v <> EmptyString) l -> l <> [] ->
             Parser.extract_repo_hint (PDict (map (fun v => (k, PStr v)) l))
             = match Parser.first_hint (Parser.sort_desc l) with
               | Some h => Some h
               | None => List.head (Parser.sort_desc l)
               end).
  { intros l Hl Hne. unfold Parser.extract_repo_hint. rewrite (Hc l Hl).
    destruct l; [congruence | reflexivity]. }
  repeat split.
  - HintFacts.hint_of_candidates He (["https://github.com/org/myrepo.git"]).
  - HintFacts.hint_of_candidates He (["/home/u/projects/foo/bar"]).
  - apply HintFacts.sort_desc_perm.
  - eapply HintFacts.sorted_weaken; [|apply HintFacts.sort_desc_sorted].
    intros a b. apply HintFacts.key_ge_rank.
  - HintFacts.hint_of_candidates He (["plain"; "/home/u/projects/foo/bar";
                            "https://github.com/org/myrepo.git"]).
  - HintFacts.hint_of_candidates He (["plain"; "/home/u/projects/foo/bar"]).
Qed.

Lemma C9_repo_hint_examples_and_ranking_witness :
  Parser.extract_repo_hint
    (PDict [("repoUrl", PStr "https://github.com/org/myrepo.git")])
  = Some "myrepo"
  /\ Parser.extract_repo_hint
       (PDict [("repoUrl", PStr "/home/u/projects/foo/bar")])
     = Some "foo/bar".
Proof.
  destruct (C9_repo_hint_examples_and_ranking "repoUrl" PNone eq_refl)
    as (H1 & H2 & _).
  split; [exact H1 | exact H2].
Defined.

(** ** The sparse scorer *)

Module ScoreFacts.
Import PyStr.

(** The score as the specification words it: the number of the
    white-space separated tokens of the query that, case-folded, are
    substrings of the case-folded text. *)
Definition spec_score (query text : string) : Z :=
  Z.of_nat (List.length
              (List.filter (fun token => contains (lower token) (lower text))
                 (split_ws query))).

Lemma split_ws_cons (c : ascii) (s : string) :
  split_ws (String c s)
  = if is_space c then split_ws s
    else match s with
         | EmptyString => [String c EmptyString]
         | String c' _ =>
             if is_space c' then String c EmptyString :: split_ws s
             else match split_ws s with
                  | t :: ts => String c t :: ts
                  | [] => [String c EmptyString]
                  end
         end.
Proof. destruct s; reflexivity. Qed.

(** [str.split()] returns no empty token. *)
Lemma split_ws_nonempty (s : string) :
  Forall (fun t => is_empty t = false) (split_ws s).
Proof.
  induction s as [|c s IH]; [constructor|].
  rewrite split_ws_cons. destruct (is_space c); [exact IH|].
  destruct s as [|c' s']; [repeat constructor|].
  destruct (is_space c'); [constructor; [reflexivity | exact IH]|].
  destruct (split_ws (String c' s')) as [|t ts]; [repeat constructor|].
  inversion IH; subst. constructor; [reflexivity | assumption].
Qed.

Lemma is_space_lower (c : ascii) : is_space (lower_char c) = is_space c.
Proof. destruct c as [[] [] [] [] [] [] [] []]; reflexivity. Qed.

(** Folding the case and splitting commute. *)
Lemma split_ws_lower (s : string) :
  split_ws (lower s) = map lower (split_ws s).
Proof.
  induction s as [|c s IH]; [reflexivity|].
  change (lower (String c s)) with (String (lower_char c) (lower s)).
  rewrite !split_ws_cons, is_space_lower.
  destruct (is_space c); [exact IH|].
  destruct s as [|c' s']; [reflexivity|].
  change (lower (String c' s')) with (String (lower_char c') (lower s')) in *.
  cbv beta match. rewrite is_space_lower.
  destruct (is_space c'); [simpl; f_equal; exact IH|].
  rewrite IH. destruct (split_ws (String c' s')); reflexivity.
Qed.

Lemma sum_ones {A : Type} (l : list A) :
  Rag.sum_Z (map (fun _ => 1%Z) l) = Z.of_nat (List.length l).
Proof.
  unfold Rag.sum_Z.
  assert (H : forall acc, fold_left Z.add (map (fun _ : A => 1%Z) l) acc
                          = (acc + Z.of_nat (List.length l))%Z).
  { induction l as [|x l IH]; intros acc; simpl List.length; simpl fold_left.
    - lia.
    - rewrite IH. lia. }
  rewrite H. lia.
Qed.

Lemma filter_ext_Forall {A : Type} (P f g : A -> bool) (l : list A) :
  Forall (fun x => P x = true) l ->
  (forall x, P x = true -> f x = g x) ->
  List.filter f l = List.filter g l.
Proof.
  intros Hall Hfg. induction Hall as [|x l Hx Hl IH]; [reflexivity|].
  simpl. rewrite (Hfg x Hx), IH. reflexivity.
Qed.

Lemma filter_map_length {A B : Type} (f : A -> B) (p : B -> bool) (l : list A) :
  List.length (List.filter p (map f l))
  = List.length (List.filter (fun x => p (f x)) l).
Proof.
  induction l as [|x l IH]; [reflexivity|].
  simpl. destruct (p (f x)); simpl; now rewrite IH.
Qed.

(** The code's score counts the tokens of the folded query found in the
    folded text. *)
Lemma score_count (query : string) (text : option string) :
  Rag._score query text
  = Z.of_nat (List.length
                (List.filter
                   (fun token =>
                      contains token
                        (lower (match text with Some t => t | None => EmptyString end)))
                   (split_ws (lower query)))).
Proof.
  unfold Rag._score. rewrite sum_ones. do 2 f_equal.
  apply (filter_ext_Forall (fun t => negb (is_empty t))).
  - eapply List.Forall_impl; [|apply split_ws_nonempty].
    intros t Ht. simpl in Ht. now rewrite Ht.
  - intros t Ht. now rewrite Ht.
Qed.

Lemma filter_nil_iff {A : Type} (p : A -> bool) (l : list A) :
  List.length (List.filter p l) = 0 <-> Forall (fun x => p x = false) l.
Proof.
  induction l as [|x l IH]; simpl.
  - split; [constructor | reflexivity].
  - destruct (p x) eqn:E; simpl.
    + split; [discriminate|]. intros H. inversion H; subst. congruence.
    + rewrite IH. split; [now constructor|]. intros H. now inversion H.
Qed.

(** [needle in hay] holds exactly when [hay] is some text, then
    [needle], then some text. *)
Lemma prefix_spec (n h : string) :
  String.prefix n h = true <-> exists b, h = n +:+ b.
Proof.
  revert h. induction n as [|c n IH]; intros h.
  - split; [exists h; reflexivity|]. destruct h; reflexivity.
  - destruct h as [|d h]; simpl.
    + split; [discriminate|]. intros (b & Hb). discriminate.
    + destruct (ascii_dec c d) as [->|Hne].
      * rewrite IH. split; intros (b & Hb); exists b.
        -- rewrite PyStrFacts.app_cons. now f_equal.
        -- rewrite PyStrFacts.app_cons in Hb. now injection Hb.
      * split; [discriminate|]. intros (b & Hb).
        rewrite PyStrFacts.app_cons in Hb. injection Hb as -> _. congruence.
Qed.

Lemma contains_spec (n h : string) :
  contains n h = true <-> exists a b, h = a +:+ n +:+ b.
Proof.
  induction h as [|d h IH].
  - change (contains n EmptyString) with (String.prefix n EmptyString || false).
    rewrite orb_false_r, prefix_spec. split.
    + intros (b & Hb). exists EmptyString, b. exact Hb.
    + intros (a & b & Hab). destruct a; [now exists b|discriminate].
  - change (contains n (String d h))
      with (String.prefix n (String d h) || contains n h).
    rewrite orb_true_iff, prefix_spec, IH. split.
    + intros [(b & Hb)|(a & b & Hab)].
      * exists EmptyString, b. exact Hb.
      * exists (String d a), b. rewrite PyStrFacts.app_cons. now f_equal.
    + intros (a & b & Hab). destruct a as [|x a].
      * left. now exists b.
      * right. rewrite PyStrFacts.app_cons in Hab. injection Hab as _ Hh.
        now exists a, b.
Qed.

End ScoreFacts.

(** C5. The sparse score is the number of white-space separated,
    case-folded tokens of the query that are substrings of the case-folded
    text; it is not negative; it is zero exactly when no token of the query
    is a substring of the text; and the query "hello world" scores 1 on
    "say hello to everyone". *)
Theorem C5_sparse_score (query text : string) :
  Rag._score query (Some text) = ScoreFacts.spec_score query text
  /\ (0 <= Rag._score query (Some text))%Z
  /\ (Rag._score query (Some text) = 0%Z
      <-> Forall (fun token =>
                    ~ exists a b, PyStr.lower text = a +:+ token +:+ b)
            (PyStr.split_ws (PyStr.lower query)))
  /\ Rag._score "hello world" (Some "say hello to everyone") = 1%Z.
Proof.
  rewrite (ScoreFacts.score_count query (Some text)).
  split; [|split; [lia | split; [|reflexivity]]].
  - unfold ScoreFacts.spec_score. f_equal.
    rewrite ScoreFacts.split_ws_lower. apply ScoreFacts.filter_map_length.
  - rewrite <- Nat2Z.inj_0, Nat2Z.inj_iff, ScoreFacts.filter_nil_iff.
    split; intros H; (eapply List.Forall_impl; [|exact H]); intros t Ht; simpl in *.
    + rewrite <- ScoreFacts.contains_spec. congruence.
    + rewrite <- ScoreFacts.contains_spec in Ht.
      now destruct (PyStr.contains t (PyStr.lower text)).
Qed.


(** ** L2 normalisation *)

Module NormFacts.
Import Embeddings.
Local Open Scope R_scope.

Lemma fold_plus_shift (l : list R) (a : R) :
  fold_left Rplus l a = a + fold_left Rplus l 0.
Proof.
  revert a. induction l as [|x l IH]; intros a; simpl.
  - lra.
  - rewrite (IH (a + x)), (IH (0 + x)). lra.
Qed.

Lemma sum_sq_nil : sum_sq [] = 0.
Proof. reflexivity. Qed.

Lemma sum_sq_cons (x : R) (v : list R) : sum_sq (x :: v) = x * x + sum_sq v.
Proof.
  unfold sum_sq. simpl. rewrite fold_plus_shift. lra.
Qed.


Lemma sum_sq_zeros (n : nat) : sum_sq (repeat 0 n) = 0.
Proof.
  induction n as [|n IH]; [reflexivity|].
  simpl repeat. rewrite sum_sq_cons, IH. lra.
Qed.

Lemma sum_sq_scaled (d : R) (v : list R) :
  d <> 0 -> sum_sq (map (fun x => x / d) v) = sum_sq v / (d * d).
Proof.
  intros Hd. induction v as [|x v IH].
  - simpl. rewrite sum_sq_nil. unfold Rdiv. lra.
  - simpl map. rewrite !sum_sq_cons, IH. field. exact Hd.
Qed.

(** Dividing every component by a non-zero number raises nothing. *)
Lemma divide_all (d : R) (v : list R) :
  d <> 0 -> exc_map (fun x => py_div x d) v = Ok (map (fun x => x / d) v).
Proof.
  intros Hd. induction v as [|x v IH]; [reflexivity|].
  simpl. unfold py_div at 1. destruct (Req_dec_T d 0) as [E|_]; [contradiction|].
  simpl. rewrite IH. reflexivity.
Qed.

Lemma norm_positive (v : list R) : 0 < sum_sq v -> 0 < sqrt (sum_sq v).
Proof. apply sqrt_lt_R0. Qed.

Lemma l2_normalize_nonpositive (v : list R) :
  sum_sq v <= 0 -> l2_normalize v = Ok v.
Proof.
  intros H. unfold l2_normalize. destruct (Rle_dec (sum_sq v) 0); [reflexivity|contradiction].
Qed.

Lemma l2_normalize_positive (v : list R) :
  0 < sum_sq v ->
  l2_normalize v = Ok (map (fun x => x / sqrt (sum_sq v)) v).
Proof.
  intros H. pose proof (norm_positive v H) as Hs.
  unfold l2_normalize.
  destruct (Rle_dec (sum_sq v) 0) as [Hle|_]; [lra|].
  destruct (Req_dec_T (sqrt (sum_sq v)) 0) as [E|Hne]; [lra|].
  now apply divide_all.
Qed.

Lemma unit_norm (v : list R) :
  0 < sum_sq v -> sum_sq (map (fun x => x / sqrt (sum_sq v)) v) = 1.
Proof.
  intros H. pose proof (norm_positive v H) as Hs.
  rewrite sum_sq_scaled by lra.
  rewrite sqrt_sqrt by lra. field. lra.
Qed.

End NormFacts.

(** C10. [l2_normalize] returns for every vector and raises nothing, a
    division by zero included.  A vector whose sum of squares is at most
    zero, such as the empty vector and every all-zero vector, is returned
    unchanged.  Any other vector is returned with each component divided by
    its L2 norm, which is not zero, and the sum of the squares of the result
    is 1 (floats read as real numbers). *)
Theorem C10_l2_normalize_total_and_unit (vec : list R) :
  (exists out, Embeddings.l2_normalize vec = Ok out)
  /\ ((Embeddings.sum_sq vec <= 0)%R -> Embeddings.l2_normalize vec = Ok vec)
  /\ ((0 < Embeddings.sum_sq vec)%R ->
      sqrt (Embeddings.sum_sq vec) <> 0%R
      /\ Embeddings.l2_normalize vec
         = Ok (map (fun x => (x / sqrt (Embeddings.sum_sq vec))%R) vec)
      /\ Embeddings.sum_sq
           (map (fun x => (x / sqrt (Embeddings.sum_sq vec))%R) vec) = 1%R)
  /\ Embeddings.l2_normalize [] = Ok []
  /\ (forall n, Embeddings.l2_normalize (repeat 0%R n) = Ok (repeat 0%R n)).
Proof.
  split; [|split; [|split; [|split]]].
  - destruct (Rle_dec (Embeddings.sum_sq vec) 0) as [Hle|Hgt].
    + exists vec. now apply NormFacts.l2_normalize_nonpositive.
    + eexists. apply NormFacts.l2_normalize_positive. lra.
  - apply NormFacts.l2_normalize_nonpositive.
  - intros H. pose proof (NormFacts.norm_positive vec H) as Hs.
    split; [lra|]. split.
    + now apply NormFacts.l2_normalize_positive.
    + now apply NormFacts.unit_norm.
  - apply NormFacts.l2_normalize_nonpositive. rewrite NormFacts.sum_sq_nil. lra.
  - intros n. apply NormFacts.l2_normalize_nonpositive.
    rewrite NormFacts.sum_sq_zeros. lra.
Qed.

Lemma C10_l2_normalize_total_and_unit_witness :
  Embeddings.l2_normalize [0%R; 0%R] = Ok [0%R; 0%R]
  /\ Embeddings.sum_sq
       (map (fun x => (x / sqrt (Embeddings.sum_sq [3%R; 4%R]))%R) [3%R; 4%R]) = 1%R.
Proof.
  split.
  - apply (proj1 (proj2 (C10_l2_normalize_total_and_unit [0%R; 0%R]))).
    unfold Embeddings.sum_sq. simpl. lra.
  - apply (proj1 (proj2 (proj2 (C10_l2_normalize_total_and_unit [3%R; 4%R])))).
    unfold Embeddings.sum_sq. simpl. lra.
Defined.

(** ** Bisection *)

Module ClusterFacts.
Import Cluster.

(** Sizes are consistent and every inner node has two non-empty children. *)
Fixpoint tree_ok (t : tree) : Prop :=
  match t with
  | Leaf n ids => n = List.length ids
  | Node n l r =>
      n = tree_size l + tree_size r
      /\ 0 < tree_size l /\ 0 < tree_size r
      /\ tree_ok l /\ tree_ok r
  end.

Definition leaf_of (idxs : list nat) : tree := Leaf (List.length idxs) idxs.

Lemma is_nil_false {A : Type} (l : list A) : is_nil l = false <-> l <> [].
Proof. destruct l; simpl; split; congruence. Qed.

(** One level of [bisect], with its guards read off. *)
Lemma bisect_S (d : nat) (vecs : list (list Q)) (idxs : list nat) (min_size : Z) :
  bisect (S d) vecs idxs min_size
  = if (Z.of_nat (List.length idxs) <=? Z.max 2 min_size)%Z then Ok (leaf_of idxs)
    else exc_bind (subset_of vecs idxs)
           (fun subset =>
              if is_nil (fst (split_of subset idxs)) || is_nil (snd (split_of subset idxs))
              then Ok (leaf_of idxs)
              else exc_bind (bisect d vecs (fst (split_of subset idxs)) min_size)
                     (fun l =>
                        exc_bind (bisect d vecs (snd (split_of subset idxs)) min_size)
                          (fun r => Ok (Node (List.length idxs) l r)))).
Proof.
  simpl. destruct (Z.of_nat (List.length idxs) <=? Z.max 2 min_size)%Z; [reflexivity|].
  destruct (subset_of vecs idxs) as [subset|]; [|reflexivity].
  simpl. destruct (split_of subset idxs) as [lefts rights]. reflexivity.
Qed.

Lemma bisect_size (d : nat) :
  forall vecs idxs min_size t,
    bisect d vecs idxs min_size = Ok t -> tree_size t = List.length idxs.
Proof.
  destruct d as [|d]; intros vecs idxs min_size t.
  - simpl. intros [= <-]. reflexivity.
  - rewrite bisect_S.
    destruct (Z.of_nat (List.length idxs) <=? Z.max 2 min_size)%Z; [intros [= <-]; reflexivity|].
    destruct (subset_of vecs idxs) as [subset|]; [|discriminate]. simpl.
    destruct (is_nil _ || is_nil _); [intros [= <-]; reflexivity|].
    destruct (bisect d vecs _ min_size) as [l|]; [|discriminate]. simpl.
    destruct (bisect d vecs _ min_size) as [r|]; [|discriminate]. simpl.
    intros [= <-]. reflexivity.
Qed.

Lemma subset_of_length (vecs : list (list Q)) (idxs : list nat) (subset : list (list Q)) :
  subset_of vecs idxs = Ok subset -> List.length subset = List.length idxs.
Proof.
  revert subset. unfold subset_of.
  induction idxs as [|i idxs IH]; intros subset; simpl.
  - intros [= <-]. reflexivity.
  - destruct (nth_error vecs i); [|discriminate]. simpl.
    destruct (exc_map _ idxs) as [ys|]; [|discriminate]. simpl.
    intros [= <-]. simpl. f_equal. now apply IH.
Qed.

Lemma subset_of_in_range (vecs : list (list Q)) (idxs : list nat) :
  Forall (fun i => i < List.length vecs) idxs ->
  exists subset, subset_of vecs idxs = Ok subset.
Proof.
  unfold subset_of. induction 1 as [|i idxs Hi Hall (ys & IH)]; simpl.
  - eexists; reflexivity.
  - destruct (nth_error vecs i) as [v|] eqn:E.
    + simpl. rewrite IH. simpl. eexists; reflexivity.
    + apply nth_error_None in E. lia.
Qed.

Lemma iter_round_length (vecs : list (list Q)) (n : nat) (st : list nat * list Q * list Q) :
  List.length (fst (fst st)) = List.length vecs ->
  List.length (fst (fst (Nat.iter n (kmeans_round vecs) st))) = List.length vecs.
Proof.
  intros H. induction n as [|n IH]; [exact H|].
  simpl. destruct (Nat.iter n (kmeans_round vecs) st) as [[a c0] c1].
  unfold kmeans_round.
  destruct (accumulate _ vecs (assign_all vecs c0 c1)) as [[s0 n0] [s1 n1]].
  simpl. unfold assign_all. now rewrite length_map.
Qed.

(** The assignment has one entry per vector. *)
Lemma kmeans2_length (vecs : list (list Q)) (iters : Z) :
  List.length (fst (fst (_kmeans2 vecs iters))) = List.length vecs.
Proof.
  unfold _kmeans2. destruct vecs as [|v0 vecs]; [reflexivity|].
  apply iter_round_length. exact (repeat_length 0 (List.length (v0 :: vecs))).
Qed.

Lemma sides_length (idxs assign : list nat) :
  List.length assign = List.length idxs ->
  List.length (side true idxs assign) + List.length (side false idxs assign)
  = List.length idxs.
Proof.
  revert assign. unfold side.
  induction idxs as [|i idxs IH]; intros [|a assign] H; simpl in *; try lia.
  specialize (IH assign ltac:(lia)).
  destruct (Nat.eqb a 0); simpl; rewrite !length_map in *; simpl; lia.
Qed.

Lemma side_subset (b : bool) (idxs assign : list nat) (P : nat -> Prop) :
  Forall P idxs -> Forall P (side b idxs assign).
Proof.
  intros H. revert assign. unfold side.
  induction H as [|i idxs Hi Hall IH]; intros [|a assign]; simpl; try constructor.
  destruct (Bool.eqb (Nat.eqb a 0) b); simpl; [constructor; [exact Hi|]|]; apply IH.
Qed.

Lemma split_lengths (subset : list (list Q)) (idxs : list nat) :
  List.length subset = List.length idxs ->
  List.length (fst (split_of subset idxs)) + List.length (snd (split_of subset idxs))
  = List.length idxs.
Proof.
  intros H. unfold split_of.
  pose proof (kmeans2_length subset 15) as L.
  destruct (_kmeans2 subset 15) as [[assign c0] c1]. simpl in *.
  apply sides_length. lia.
Qed.

Lemma split_subset (subset : list (list Q)) (idxs : list nat) (P : nat -> Prop) :
  Forall P idxs ->
  Forall P (fst (split_of subset idxs)) /\ Forall P (snd (split_of subset idxs)).
Proof.
  intros H. unfold split_of.
  destruct (_kmeans2 subset 15) as [[assign c0] c1]. simpl.
  split; now apply side_subset.
Qed.

(** With every index in range, [bisect] returns a well-formed tree. *)
Lemma bisect_total (d : nat) :
  forall vecs idxs min_size,
    Forall (fun i => i < List.length vecs) idxs ->
    exists t, bisect d vecs idxs min_size = Ok t /\ tree_ok t.
Proof.
  induction d as [|d IH]; intros vecs idxs min_size Hr.
  - exists (leaf_of idxs). split; reflexivity.
  - rewrite bisect_S.
    destruct (Z.of_nat (List.length idxs) <=? Z.max 2 min_size)%Z;
      [exists (leaf_of idxs); split; reflexivity|].
    destruct (subset_of_in_range vecs idxs Hr) as (subset & Hs).
    rewrite Hs. simpl.
    pose proof (split_lengths subset idxs (subset_of_length _ _ _ Hs)) as Hlen.
    destruct (split_subset subset idxs _ Hr) as (Hl & Hrr).
    destruct (is_nil (fst (split_of subset idxs))) eqn:El;
      [exists (leaf_of idxs); split; reflexivity|].
    destruct (is_nil (snd (split_of subset idxs))) eqn:Er;
      [exists (leaf_of idxs); split; reflexivity|].
    simpl.
    destruct (IH vecs _ min_size Hl) as (l & Hbl & Hokl).
    destruct (IH vecs _ min_size Hrr) as (r & Hbr & Hokr).
    rewrite Hbl, Hbr. simpl. eexists. split; [reflexivity|].
    pose proof (bisect_size _ _ _ _ _ Hbl) as Sl.
    pose proof (bisect_size _ _ _ _ _ Hbr) as Sr.
    apply is_nil_false in El, Er.
    simpl. rewrite Sl, Sr. repeat split; try assumption; try lia.
    + destruct (fst (split_of subset idxs)); [congruence | simpl; lia].
    + destruct (snd (split_of subset idxs)); [congruence | simpl; lia].
Qed.

End ClusterFacts.

(** C7. [_bisect_recursive] returns a single leaf for a subset whose size
    is at most the minimum-size threshold, whatever the depth budget, and
    for any subset once the depth budget is used up.  It returns an inner
    node only when the budget is positive, the subset is larger than the
    threshold and both sides of the 2-means assignment are non-empty, the
    children being the trees of the two sides at the budget less one; when
    one side is empty the subset is a leaf.  With every index in range
    nothing is raised, and in the returned tree every inner node has two
    non-empty children. *)
Theorem C7_bisect_leaves_and_splits
    (vecs : list (list Q)) (idxs : list nat) (depth min_size : Z) :
  let leaf := Ok (Cluster.Leaf (List.length idxs) idxs) in
  ((Z.of_nat (List.length idxs) <= min_size)%Z ->
   Cluster._bisect_recursive vecs idxs depth min_size = leaf)
  /\ ((depth <= 0)%Z -> Cluster._bisect_recursive vecs idxs depth min_size = leaf)
  /\ (forall n l r,
        Cluster._bisect_recursive vecs idxs depth min_size = Ok (Cluster.Node n l r) ->
        exists subset,
          Cluster.subset_of vecs idxs = Ok subset
          /\ fst (Cluster.split_of subset idxs) <> []
          /\ snd (Cluster.split_of subset idxs) <> []
          /\ Cluster._bisect_recursive vecs (fst (Cluster.split_of subset idxs))
               (depth - 1) min_size = Ok l
          /\ Cluster._bisect_recursive vecs (snd (Cluster.split_of subset idxs))
               (depth - 1) min_size = Ok r
          /\ n = List.length idxs
          /\ (0 < depth)%Z
          /\ (Z.max 2 min_size < Z.of_nat (List.length idxs))%Z)
  /\ (forall subset,
        Cluster.subset_of vecs idxs = Ok subset ->
        fst (Cluster.split_of subset idxs) = []
        \/ snd (Cluster.split_of subset idxs) = [] ->
        Cluster._bisect_recursive vecs idxs depth min_size = leaf)
  /\ (Forall (fun i => i < List.length vecs) idxs ->
      exists t, Cluster._bisect_recursive vecs idxs depth min_size = Ok t
                /\ ClusterFacts.tree_ok t).
Proof.
  intros leaf. unfold Cluster._bisect_recursive.
  assert (Hd : forall d, Z.to_nat depth = S d -> Z.to_nat (depth - 1) = d) by lia.
  split; [|split; [|split; [|split]]].
  - intros Hsz. destruct (Z.to_nat depth) as [|d]; [reflexivity|].
    rewrite ClusterFacts.bisect_S.
    destruct (Z.leb_spec (Z.of_nat (List.length idxs)) (Z.max 2 min_size)) as [_|Hgt];
      [reflexivity | lia].
  - intros Hdep. replace (Z.to_nat depth) with 0 by lia. reflexivity.
  - intros n l r. destruct (Z.to_nat depth) as [|d] eqn:Ed; [discriminate|].
    rewrite (Hd d eq_refl), ClusterFacts.bisect_S.
    destruct (Z.leb_spec (Z.of_nat (List.length idxs)) (Z.max 2 min_size)) as [_|Hgt];
      [discriminate|].
    destruct (Cluster.subset_of vecs idxs) as [subset|]; [|discriminate]. simpl.
    destruct (Cluster.is_nil (fst _)) eqn:El; [discriminate|].
    destruct (Cluster.is_nil (snd _)) eqn:Er; [discriminate|]. simpl.
    destruct (Cluster.bisect d vecs (fst _) min_size) as [l'|] eqn:Hbl; [|discriminate].
    simpl.
    destruct (Cluster.bisect d vecs (snd _) min_size) as [r'|] eqn:Hbr; [|discriminate].
    simpl. intros [= <- <- <-]. exists subset.
    apply ClusterFacts.is_nil_false in El, Er.
    repeat split; try assumption; try reflexivity; lia.
  - intros subset Hs Hempty. destruct (Z.to_nat depth) as [|d]; [reflexivity|].
    rewrite ClusterFacts.bisect_S, Hs.
    destruct (Z.of_nat (List.length idxs) <=? Z.max 2 min_size)%Z; [reflexivity|].
    simpl. destruct Hempty as [-> | ->]; simpl; [reflexivity|].
    now rewrite orb_true_r.
  - apply ClusterFacts.bisect_total.
Qed.

Module ClusterExamples.
Definition e1 : list Q := [1%Q; 0%Q].
Definition e2 : list Q := [0%Q; 1%Q].
End ClusterExamples.

Lemma C7_bisect_leaves_and_splits_witness :
  Cluster._bisect_recursive
    [ClusterExamples.e1; ClusterExamples.e1; ClusterExamples.e2; ClusterExamples.e2]
    [0; 1; 2; 3] 3 10 = Ok (Cluster.Leaf 4 [0; 1; 2; 3])
  /\ Cluster._bisect_recursive
       [ClusterExamples.e1; ClusterExamples.e1; ClusterExamples.e1] [0; 1; 2] 3 0
     = Ok (Cluster.Leaf 3 [0; 1; 2])
  /\ exists t,
       Cluster._bisect_recursive
         [ClusterExamples.e1; ClusterExamples.e1; ClusterExamples.e2; ClusterExamples.e2]
         [0; 1; 2; 3] 3 0 = Ok t
       /\ ClusterFacts.tree_ok t.
Proof.
  split; [|split].
  - apply (proj1 (C7_bisect_leaves_and_splits
                    [ClusterExamples.e1; ClusterExamples.e1;
                     ClusterExamples.e2; ClusterExamples.e2] [0; 1; 2; 3] 3 10)).
    simpl. lia.
  - apply (proj1 (proj2 (proj2 (proj2 (C7_bisect_leaves_and_splits
                    [ClusterExamples.e1; ClusterExamples.e1; ClusterExamples.e1]
                    [0; 1; 2] 3 0))))
             [ClusterExamples.e1; ClusterExamples.e1; ClusterExamples.e1]).
    + reflexivity.
    + right. vm_compute. reflexivity.
  - apply (proj2 (proj2 (proj2 (proj2 (C7_bisect_leaves_and_splits
                    [ClusterExamples.e1; ClusterExamples.e1;
                     ClusterExamples.e2; ClusterExamples.e2] [0; 1; 2; 3] 3 0))))).
    repeat constructor.
Defined.

(** ** Hybrid merge *)

Module MergeFacts.
Import Toolchat.

Definition keys (merged : list (string * merged_item)) : list string :=
  map fst merged.

(** The identities in the order of their first occurrence. *)
Definition add_key (ks : list string) (k : string) : list string :=
  if existsb (String.eqb k) ks then ks else ks ++ [k].

Definition first_occurrences (ids : list string) : list string :=
  fold_left add_key ids [].

Lemma eqb_sym (a b : string) : String.eqb a b = String.eqb b a.
Proof.
  destruct (String.eqb_spec a b) as [->|Hne].
  - now rewrite String.eqb_refl.
  - symmetry. apply String.eqb_neq. congruence.
Qed.

Lemma existsb_keys (k : string) (merged : list (string * merged_item)) :
  existsb (String.eqb k) (keys merged)
  = match dict_lookup merged k with Some _ => true | None => false end.
Proof.
  induction merged as [|[k' v'] merged IH]; [reflexivity|].
  simpl. rewrite (eqb_sym k k').
  destruct (String.eqb k' k); [reflexivity | exact IH].
Qed.

Lemma keys_dict_set (merged : list (string * merged_item)) (k : string) (v : merged_item) :
  keys (dict_set merged k v) = add_key (keys merged) k.
Proof.
  unfold add_key. induction merged as [|[k' v'] merged IH]; [reflexivity|].
  simpl. rewrite (eqb_sym k k').
  destruct (String.eqb k' k); [reflexivity|].
  simpl. unfold keys in *. rewrite IH.
  destruct (existsb (String.eqb k) (map fst merged)); reflexivity.
Qed.

Lemma lookup_dict_set (merged : list (string * merged_item)) (k k' : string)
    (v : merged_item) :
  dict_lookup (dict_set merged k v) k'
  = if String.eqb k k' then Some v else dict_lookup merged k'.
Proof.
  induction merged as [|[k0 v0] merged IH]; simpl.
  - destruct (String.eqb k k'); reflexivity.
  - destruct (String.eqb_spec k0 k) as [->|Hne]; simpl.
    + destruct (String.eqb k k'); reflexivity.
    + rewrite IH. destruct (String.eqb_spec k0 k') as [->|Hne'].
      * destruct (String.eqb_spec k k'); [congruence | reflexivity].
      * reflexivity.
Qed.

Lemma in_add_key (ks : list string) (k x : string) :
  In x (add_key ks k) <-> In x ks \/ x = k.
Proof.
  unfold add_key. destruct (existsb (String.eqb k) ks) eqn:E.
  - split; [auto|]. intros [H| ->]; [exact H|].
    apply existsb_exists in E. destruct E as (y & Hy & Ey).
    apply String.eqb_eq in Ey. now subst.
  - rewrite in_app_iff. simpl. intuition.
Qed.

Lemma nodup_add_key (ks : list string) (k : string) :
  List.NoDup ks -> List.NoDup (add_key ks k).
Proof.
  intros H. unfold add_key. destruct (existsb (String.eqb k) ks) eqn:E; [exact H|].
  apply List.NoDup_app; [exact H | |].
  - repeat constructor. simpl. tauto.
  - intros x Hx [Hxk|[]]. subst x.
    assert (existsb (String.eqb k) ks = true); [|congruence].
    apply existsb_exists. exists k. split; [exact Hx | apply String.eqb_refl].
Qed.

Lemma fold_add_key_in (ids : list string) :
  forall ks x, In x (fold_left add_key ids ks) <-> In x ks \/ In x ids.
Proof.
  induction ids as [|i ids IH]; intros ks x; simpl; [tauto|].
  rewrite IH, in_add_key. intuition.
Qed.

Lemma fold_add_key_nodup (ids : list string) :
  forall ks, List.NoDup ks -> List.NoDup (fold_left add_key ids ks).
Proof.
  induction ids as [|i ids IH]; intros ks H; simpl; [exact H|].
  apply IH. now apply nodup_add_key.
Qed.

Lemma lookup_in_keys (merged : list (string * merged_item)) (k : string)
    (v : merged_item) :
  dict_lookup merged k = Some v -> In k (keys merged).
Proof.
  induction merged as [|[k1 v1] merged IH]; simpl; [discriminate|].
  destruct (String.eqb_spec k1 k) as [->|Hne]; [now left | right; now apply IH].
Qed.

(** With distinct keys, the values of the dict are what its keys look up. *)
Lemma in_values (merged : list (string * merged_item)) (v : merged_item) :
  List.NoDup (keys merged) ->
  In v (map snd merged) -> exists k, dict_lookup merged k = Some v.
Proof.
  induction merged as [|[k0 v0] merged IH]; simpl; [tauto|].
  intros Hnd [<-|Hin].
  - exists k0. now rewrite String.eqb_refl.
  - inversion Hnd as [|? ? Hnotin Hnd']; subst.
    destruct (IH Hnd' Hin) as (k & Hk). exists k.
    destruct (String.eqb_spec k0 k) as [->|Hne]; [|exact Hk].
    exfalso. apply Hnotin. now apply (lookup_in_keys merged k v).
Qed.

(** What is known of the item stored under a key once the rows [sp] and
    [vec] have been merged. *)
Definition item_ok (sp : list sparse_row) (vec : list vec_row)
    (k : string) (v : merged_item) : Prop :=
  m_id v = k
  /\ (In k (map sparse_id sp) ->
      exists r, In r sp /\ sparse_id r = k /\ sparse_score v = Some (sp_score r))
  /\ (~ In k (map sparse_id sp) -> sparse_score v = None)
  /\ (In k (map vec_id vec) ->
      exists r, In r vec /\ vec_id r = k /\ vec_distance v = Some (vr_distance r))
  /\ (~ In k (map vec_id vec) -> vec_distance v = None).

Definition dict_ok (sp : list sparse_row) (vec : list vec_row)
    (merged : list (string * merged_item)) : Prop :=
  keys merged = first_occurrences (map sparse_id sp ++ map vec_id vec)
  /\ forall k v, dict_lookup merged k = Some v -> item_ok sp vec k v.

Lemma first_occurrences_snoc (ids : list string) (k : string) :
  first_occurrences (ids ++ [k]) = add_key (first_occurrences ids) k.
Proof. unfold first_occurrences. now rewrite fold_left_app. Qed.

Definition sparse_item (r : sparse_row) : merged_item :=
  {| m_id := sparse_id r; m_composer_id := sp_composer_id r;
     m_turn_index := sp_turn_index r; m_user_head := sp_user_head r;
     m_assistant_head := sp_assistant_head r;
     sparse_score := Some (sp_score r); vec_distance := None |}.

Definition vec_item (merged : list (string * merged_item)) (r : vec_row)
  : merged_item :=
  set_distance
    match dict_lookup merged (vec_id r) with
    | Some m => m
    | None =>
        {| m_id := vec_id r; m_composer_id := vr_composer_id r;
           m_turn_index := vr_turn_index r; m_user_head := vr_user_head r;
           m_assistant_head := vr_assistant_head r;
           sparse_score := None; vec_distance := None |}
    end (vr_distance r).

Lemma merge_sparse_eq (merged : list (string * merged_item)) (r : sparse_row) :
  merge_sparse merged r = dict_set merged (sparse_id r) (sparse_item r).
Proof. reflexivity. Qed.

Lemma merge_vec_eq (merged : list (string * merged_item)) (r : vec_row) :
  merge_vec merged r = dict_set merged (vec_id r) (vec_item merged r).
Proof. reflexivity. Qed.

Lemma sparse_phase (sp : list sparse_row) :
  dict_ok sp [] (fold_left merge_sparse sp []).
Proof.
  induction sp as [|r sp IH] using rev_ind.
  - split; [reflexivity|]. intros k v H. discriminate.
  - rewrite fold_left_app. simpl fold_left. destruct IH as (Hk & Hv).
    rewrite merge_sparse_eq. split.
    + rewrite keys_dict_set, Hk. simpl. rewrite !app_nil_r, map_app. simpl.
      now rewrite first_occurrences_snoc.
    + intros k v. rewrite lookup_dict_set.
      destruct (String.eqb_spec (sparse_id r) k) as [E|Hne].
      * intros [= <-]. unfold item_ok. simpl. repeat split; try tauto.
        -- intros _. exists r. rewrite in_app_iff. simpl. auto.
        -- intros Hn. exfalso. apply Hn. rewrite map_app, in_app_iff. simpl. auto.
      * intros H. destruct (Hv k v H) as (H1 & H2 & H3 & H4 & H5).
        unfold item_ok. repeat split; try assumption.
        -- rewrite map_app, in_app_iff. simpl. intros [Hin|[Hin|[]]]; [|congruence].
           destruct (H2 Hin) as (r0 & Hr0 & Hid & Hsc). exists r0.
           rewrite in_app_iff. auto.
        -- intros Hn. apply H3. intros Hin. apply Hn.
           rewrite map_app, in_app_iff. auto.
Qed.

Lemma vec_phase (sp : list sparse_row) (vec : list vec_row) :
  dict_ok sp vec (fold_left merge_vec vec (fold_left merge_sparse sp [])).
Proof.
  induction vec as [|r vec IH] using rev_ind; [apply sparse_phase|].
  rewrite fold_left_app. simpl fold_left. destruct IH as (Hk & Hv).
  set (merged := fold_left merge_vec vec (fold_left merge_sparse sp [])) in *.
  rewrite merge_vec_eq. split.
  - rewrite keys_dict_set, Hk, map_app, app_assoc. simpl.
    now rewrite first_occurrences_snoc.
  - intros k v. rewrite lookup_dict_set.
    destruct (String.eqb_spec (vec_id r) k) as [E|Hne].
    + intros [= <-]. subst k. unfold vec_item.
      destruct (dict_lookup merged (vec_id r)) as [m|] eqn:El.
      * destruct (Hv _ _ El) as (H1 & H2 & H3 & H4 & H5).
        unfold item_ok. simpl. repeat split; try assumption.
        -- intros _. exists r. rewrite in_app_iff. simpl. auto.
        -- intros Hn. exfalso. apply Hn. rewrite map_app, in_app_iff. simpl. auto.
      * assert (Hnk : ~ In (vec_id r) (keys merged)).
        { intros Hin. pose proof (existsb_keys (vec_id r) merged) as Ex.
          rewrite El in Ex.
          assert (existsb (String.eqb (vec_id r)) (keys merged) = true); [|congruence].
          apply existsb_exists. eexists. split; [exact Hin | apply String.eqb_refl]. }
        unfold item_ok. simpl. repeat split; try reflexivity.
        -- intros Hin. exfalso. apply Hnk. rewrite Hk.
           apply fold_add_key_in. right. rewrite in_app_iff. auto.
        -- intros _. exists r. rewrite in_app_iff. simpl. auto.
        -- intros Hn. exfalso. apply Hn. rewrite map_app, in_app_iff. simpl. auto.
    + intros H. destruct (Hv k v H) as (H1 & H2 & H3 & H4 & H5).
      unfold item_ok. repeat split; try assumption.
      * rewrite map_app, in_app_iff. simpl. intros [Hin|[Hin|[]]]; [|congruence].
        destruct (H4 Hin) as (r0 & Hr0 & Hid & Hd). exists r0.
        rewrite in_app_iff. auto.
      * intros Hn. apply H5. intros Hin. apply Hn.
        rewrite map_app, in_app_iff. auto.
Qed.

Lemma ids_are_keys (merged : list (string * merged_item)) :
  (forall k v, dict_lookup merged k = Some v -> m_id v = k) ->
  List.NoDup (keys merged) ->
  map m_id (map snd merged) = keys merged.
Proof.
  induction merged as [|[k0 v0] merged IH]; intros Hid Hnd; [reflexivity|].
  inversion Hnd as [|? ? Hnotin Hnd']; subst. simpl. f_equal.
  - apply Hid. simpl. now rewrite String.eqb_refl.
  - apply IH; [|exact Hnd']. intros k v Hl. apply Hid. simpl.
    destruct (String.eqb_spec k0 k) as [->|Hne]; [|exact Hl].
    exfalso. apply Hnotin. now apply (lookup_in_keys merged k v).
Qed.

End MergeFacts.

Module MergeExamples.
Import Toolchat.
Definition sparse_hits : list sparse_row :=
  [SparseRow "c1" 1 "u1" "a1" 3; SparseRow "c2" 2 "u2" "a2" 2].
Definition vector_hits : list vec_row :=
  [VecRow (Some "c1:1") "c1" 1 "u1v" "a1v" (12 # 100);
   VecRow (Some "c3:3") "c3" 3 "u3" "a3" (2 # 10)].
End MergeExamples.

(** C6. The hybrid merge is a union by identity.  The merged items carry
    distinct identities, those of the sparse hits and of the vector hits
    in the order of their first occurrence, sparse hits first: no identity
    is dropped and none is moved.  An item whose identity is among the
    sparse hits carries the score of such a hit, unchanged, and otherwise no
    sparse score; an item whose identity is among the vector hits carries
    the distance of such a hit, unchanged, and otherwise no distance.  The
    identity of a vector hit is [conversation id : turn index] when the row
    carries that id or none.  Sparse hits c1:1, c2:2 and vector hits c1:1,
    c3:3 merge into exactly c1:1 with both scores, c2:2 with the sparse
    score only and c3:3 with the distance only. *)
Theorem C6_hybrid_merge_is_union_join
    (sp : list Toolchat.sparse_row) (vec : list Toolchat.vec_row) :
  let items := Toolchat._tool_hybrid_search sp vec in
  map Toolchat.m_id items
  = MergeFacts.first_occurrences
      (map Toolchat.sparse_id sp ++ map Toolchat.vec_id vec)
  /\ List.NoDup (map Toolchat.m_id items)
  /\ (forall id,
        In id (map Toolchat.m_id items)
        <-> In id (map Toolchat.sparse_id sp) \/ In id (map Toolchat.vec_id vec))
  /\ (forall it, In it items ->
        (In (Toolchat.m_id it) (map Toolchat.sparse_id sp) ->
         exists r, In r sp /\ Toolchat.sparse_id r = Toolchat.m_id it
                   /\ Toolchat.sparse_score it = Some (Toolchat.sp_score r))
        /\ (~ In (Toolchat.m_id it) (map Toolchat.sparse_id sp) ->
            Toolchat.sparse_score it = None)
        /\ (In (Toolchat.m_id it) (map Toolchat.vec_id vec) ->
            exists r, In r vec /\ Toolchat.vec_id r = Toolchat.m_id it
                      /\ Toolchat.vec_distance it = Some (Toolchat.vr_distance r))
        /\ (~ In (Toolchat.m_id it) (map Toolchat.vec_id vec) ->
            Toolchat.vec_distance it = None))
  /\ (forall r,
        Toolchat.vr_id r = None
        \/ Toolchat.vr_id r
           = Some (Toolchat.ident_of (Toolchat.vr_composer_id r) (Toolchat.vr_turn_index r)) ->
        Toolchat.vec_id r
        = Toolchat.ident_of (Toolchat.vr_composer_id r) (Toolchat.vr_turn_index r))
  /\ Toolchat._tool_hybrid_search MergeExamples.sparse_hits MergeExamples.vector_hits
     = [Toolchat.MergedItem "c1:1" "c1" 1 "u1" "a1" (Some 3%Z) (Some (12 # 100)%Q);
        Toolchat.MergedItem "c2:2" "c2" 2 "u2" "a2" (Some 2%Z) None;
        Toolchat.MergedItem "c3:3" "c3" 3 "u3" "a3" None (Some (2 # 10)%Q)].
Proof.
  intros items. unfold items, Toolchat._tool_hybrid_search.
  destruct (MergeFacts.vec_phase sp vec) as (Hk & Hv).
  set (merged := fold_left Toolchat.merge_vec vec
                   (fold_left Toolchat.merge_sparse sp [])) in *.
  assert (Hnd : List.NoDup (MergeFacts.keys merged)).
  { rewrite Hk. apply MergeFacts.fold_add_key_nodup. constructor. }
  assert (Hids : map Toolchat.m_id (map snd merged) = MergeFacts.keys merged).
  { apply MergeFacts.ids_are_keys; [|exact Hnd].
    intros k v Hl. now destruct (Hv k v Hl). }
  split; [now rewrite Hids|].
  split; [now rewrite Hids|].
  split.
  { intros id. rewrite Hids, Hk. unfold MergeFacts.first_occurrences.
    rewrite MergeFacts.fold_add_key_in, in_app_iff. simpl. tauto. }
  split.
  { intros it Hin. destruct (MergeFacts.in_values merged it Hnd Hin) as (k & Hl).
    destruct (Hv k it Hl) as (H1 & H2 & H3 & H4 & H5). rewrite H1.
    split; [|split; [exact H3|split; [|exact H5]]].
    - intros Hi. destruct (H2 Hi) as (r & ? & ? & ?). eauto.
    - intros Hi. destruct (H4 Hi) as (r & ? & ? & ?). eauto. }
  split; [|reflexivity].
  intros r [Hr|Hr]; unfold Toolchat.vec_id; rewrite Hr; [reflexivity|].
  unfold Toolchat.ident_of.
  destruct (Toolchat.vr_composer_id r); reflexivity.
Qed.

(** ** Index builders *)

Module IndexFacts.
Import Index.

Section Builders.
Variable kv_value : string -> option string.
Variable to_text : string -> string.
Variable json_loads : string -> option pyval.
Variable py_repr : pyval -> string.
Variable annotate_pair_rich : string -> string -> pyval.
Variable composer_data_keys : list string.
Variable json_dumps_item : Rag.item -> string.
Variable json_dumps : pyval -> string.
Variable limit_composers : option Z.
Variable max_turns_per : option Z.

Local Abbreviation items_of :=
  (Index.items_of kv_value to_text json_loads py_repr annotate_pair_rich max_turns_per).
Local Abbreviation visited := (Index.visited composer_data_keys limit_composers).
Local Abbreviation upsert := (Index.upsert json_dumps).
Local Abbreviation row_of := (Index.row_of json_dumps).
Local Abbreviation sqlite_step :=
  (Index.sqlite_step kv_value to_text json_loads py_repr annotate_pair_rich
     json_dumps max_turns_per).
Local Abbreviation index_loop :=
  (Index.index_loop kv_value to_text json_loads py_repr annotate_pair_rich
     json_dumps_item max_turns_per).

(** The items of a run, conversation after conversation. *)
Definition items_all (cids : list string) : exc (list Rag.item) :=
  exc_fmap (@concat Rag.item) (exc_map items_of cids).

Definition item_key (it : Rag.item) : string * Z :=
  (Rag.it_composer_id it, Rag.it_turn_index it).

(** The row of the last item written under a key. *)
Fixpoint last_row (k : string * Z) (items : list Rag.item) : option row :=
  match items with
  | [] => None
  | it :: rest =>
      match last_row k rest with
      | Some r => Some r
      | None => if decide (item_key it = k) then Some (row_of it) else None
      end
  end.

Lemma items_all_cons (cid : string) (cids : list string) :
  items_all (cid :: cids)
  = exc_bind (items_of cid)
      (fun a => exc_fmap (fun b => a ++ b) (items_all cids)).
Proof.
  unfold items_all. simpl.
  destruct (items_of cid) as [a|]; simpl; [|reflexivity].
  destruct (exc_map _ cids); reflexivity.
Qed.

Lemma sqlite_fold (cids : list string) :
  forall (rows : gmap (string * Z) row) (n : Z),
    exc_fold sqlite_step cids (rows, n)
    = exc_fmap (fun items => (fold_left upsert items rows,
                              (n + Z.of_nat (List.length items))%Z))
        (items_all cids).
Proof.
  induction cids as [|cid cids IH]; intros rows n.
  - simpl. do 2 f_equal. lia.
  - rewrite exc_fold_cons, items_all_cons. unfold Index.sqlite_step at 1.
    destruct (items_of cid) as [a|]; simpl; [|reflexivity].
    rewrite IH. destruct (items_all cids) as [b|]; simpl; [|reflexivity].
    rewrite fold_left_app, length_app. do 2 f_equal. lia.
Qed.

Lemma index_loop_ok (cids : list string) :
  forall (lines : list string) (n : Z) (items : list Rag.item),
    items_all cids = Ok items ->
    index_loop cids lines n
    = (lines ++ map (fun it => json_dumps_item it +:+ PyStr.NL) items,
       Ok (n + Z.of_nat (List.length items))%Z).
Proof.
  induction cids as [|cid cids IH]; intros lines n items.
  - intros [= <-]. simpl. rewrite app_nil_r. do 2 f_equal. lia.
  - rewrite items_all_cons. simpl.
    destruct (items_of cid) as [a|]; simpl; [|discriminate].
    destruct (items_all cids) as [b|] eqn:Eb; simpl; [|discriminate].
    intros [= <-]. rewrite (IH _ _ b eq_refl).
    rewrite map_app, length_app, app_assoc. do 2 f_equal. lia.
Qed.

Lemma lookup_upserts (items : list Rag.item) :
  forall (rows : gmap (string * Z) row) (k : string * Z),
    fold_left upsert items rows !! k
    = match last_row k items with
      | Some r => Some r
      | None => rows !! k
      end.
Proof.
  induction items as [|it items IH]; intros rows k; [reflexivity|].
  simpl. rewrite IH. destruct (last_row k items); [reflexivity|].
  unfold Index.upsert. fold (item_key it).
  destruct (decide (item_key it = k)) as [->|Hne].
  - apply lookup_insert_eq.
  - now apply lookup_insert_ne.
Qed.

(** Writing the same items again changes nothing. *)
Lemma upserts_idempotent (items : list Rag.item) (rows : gmap (string * Z) row) :
  fold_left upsert items (fold_left upsert items rows)
  = fold_left upsert items rows.
Proof.
  apply map_eq. intros k. rewrite !lookup_upserts.
  destruct (last_row k items); reflexivity.
Qed.

Lemma last_row_some (k : string * Z) (items : list Rag.item) :
  is_Some (last_row k items) <-> In k (map item_key items).
Proof using Type.
  induction items as [|it items IH]; simpl.
  - split; [intros [r Hr]; discriminate Hr | intros []].
  - destruct (last_row k items) as [r|].
    + split; intros _.
      * right. apply IH. exists r. reflexivity.
      * exists r. reflexivity.
    + destruct (decide (item_key it = k)) as [E|Hne].
      * split; intros _; [left; exact E | eexists; reflexivity].
      * split; [intros [r Hr]; discriminate Hr|].
        intros [E|Hin]; [contradiction|]. apply IH. exact Hin.
Qed.

End Builders.
End IndexFacts.

(** C3. Both index builders are idempotent on an unchanged store.
    [build_index] leaves under the output path exactly the lines of the
    current run, whatever the path held before, so a second run gives the
    same file system and the same result.  [build_index_sqlite] run a
    second time on the table the first run left gives the same table and
    the same result; when a run succeeds, every key holds the row of the
    last item written under it, a key is present exactly when it was
    present before or is the key of an item of the run, and a run on an
    empty table leaves exactly the keys of its items. *)
Theorem C3_index_builders_idempotent
    (kv_value : string -> option string) (to_text : string -> string)
    (json_loads : string -> option pyval) (py_repr : pyval -> string)
    (annotate_pair_rich : string -> string -> pyval)
    (composer_data_keys : list string)
    (json_dumps_item : Rag.item -> string) (json_dumps : pyval -> string)
    (limit_composers max_turns_per : option Z)
    (out_path table : string)
    (fs : gmap string (list string)) (rows : gmap (string * Z) Index.row) :
  let jsonl :=
    Index.build_index kv_value to_text json_loads py_repr annotate_pair_rich
      composer_data_keys json_dumps_item limit_composers max_turns_per out_path in
  let sqlite :=
    Index.build_index_sqlite kv_value to_text json_loads py_repr annotate_pair_rich
      composer_data_keys json_dumps limit_composers max_turns_per table in
  let items :=
    IndexFacts.items_all kv_value to_text json_loads py_repr annotate_pair_rich
      max_turns_per (Index.visited composer_data_keys limit_composers) in
  jsonl (fst (jsonl fs)) = jsonl fs
  /\ (forall fs', fst (jsonl fs') !! out_path = fst (jsonl fs) !! out_path)
  /\ (forall its, items = Ok its ->
        fst (jsonl fs) !! out_path
        = Some (map (fun it => json_dumps_item it +:+ PyStr.NL) its)
        /\ snd (jsonl fs) = Ok (Z.of_nat (List.length its)))
  /\ sqlite (fst (sqlite rows)) = sqlite rows
  /\ (forall n, snd (sqlite rows) = Ok n ->
        exists its,
          items = Ok its /\ n = Z.of_nat (List.length its)
          /\ (forall k,
                fst (sqlite rows) !! k
                = match IndexFacts.last_row json_dumps k its with
                  | Some r => Some r
                  | None => rows !! k
                  end)
          /\ (forall k,
                is_Some (fst (sqlite rows) !! k)
                <-> is_Some (rows !! k) \/ In k (map IndexFacts.item_key its)))
  /\ (forall n its, snd (sqlite ∅) = Ok n -> items = Ok its ->
        forall k, is_Some (fst (sqlite ∅) !! k)
                  <-> In k (map IndexFacts.item_key its)).
Proof.
  intros jsonl sqlite items.
  assert (Hj : forall f, jsonl f
                 = (<[out_path := fst (Index.index_loop kv_value to_text json_loads
                                        py_repr annotate_pair_rich json_dumps_item
                                        max_turns_per
                                        (Index.visited composer_data_keys limit_composers)
                                        [] 0%Z)]> f,
                    snd (Index.index_loop kv_value to_text json_loads
                           py_repr annotate_pair_rich json_dumps_item max_turns_per
                           (Index.visited composer_data_keys limit_composers) [] 0%Z))).
  { intros f. unfold jsonl, Index.build_index.
    destruct (Index.index_loop _ _ _ _ _ _ _ _ _ _); reflexivity. }
  assert (Hs : forall r, sqlite r
                 = if negb (Index.valid_table_name table) then (r, Raise ValueError)
                   else match items with
                        | Ok its => (fold_left (Index.upsert json_dumps) its r,
                                     Ok (Z.of_nat (List.length its)))
                        | Raise e => (r, Raise e)
                        end).
  { intros r. unfold sqlite, Index.build_index_sqlite.
    destruct (negb (Index.valid_table_name table)); [reflexivity|].
    rewrite IndexFacts.sqlite_fold. fold items.
    destruct items; reflexivity. }
  split; [|split; [|split; [|split; [|split]]]].
  - rewrite !Hj. simpl. now rewrite insert_insert_eq.
  - intros fs'. rewrite !Hj. simpl. now rewrite !lookup_insert_eq.
  - intros its Hits. rewrite Hj. simpl. rewrite lookup_insert_eq.
    rewrite (IndexFacts.index_loop_ok _ _ _ _ _ _ _ _ [] 0%Z its Hits). simpl.
    split; reflexivity.
  - rewrite (Hs rows).
    destruct (negb (Index.valid_table_name table)) eqn:Ev; simpl.
    + rewrite Hs, ?Ev. reflexivity.
    + destruct items as [its|e] eqn:Ei; simpl.
      * rewrite Hs, ?Ev, ?Ei. simpl.
        rewrite IndexFacts.upserts_idempotent. reflexivity.
      * rewrite Hs, ?Ev, ?Ei. reflexivity.
  - intros n. rewrite (Hs rows).
    destruct (negb (Index.valid_table_name table)); simpl; [discriminate|].
    destruct items as [its|e]; simpl; [|discriminate].
    intros [= <-]. exists its. repeat split.
    + intros k. apply IndexFacts.lookup_upserts.
    + rewrite IndexFacts.lookup_upserts.
      pose proof (IndexFacts.last_row_some json_dumps k its) as L.
      destruct (IndexFacts.last_row json_dumps k its); [|tauto].
      intros _. right. apply L. eauto.
    + rewrite IndexFacts.lookup_upserts.
      pose proof (IndexFacts.last_row_some json_dumps k its) as L.
      destruct (IndexFacts.last_row json_dumps k its); [eauto|].
      intros [H|H]; [exact H|]. apply L in H. destruct H; discriminate.
  - intros n its. rewrite (Hs ∅).
    destruct (negb (Index.valid_table_name table)); simpl; [discriminate|].
    intros _ Hits. rewrite Hits. simpl. intros k.
    rewrite IndexFacts.lookup_upserts, <- (IndexFacts.last_row_some json_dumps).
    destruct (IndexFacts.last_row json_dumps k its); [reflexivity|].
    rewrite lookup_empty. reflexivity.
Qed.

(** ** Cached embedding *)

Module EmbedFacts.
Import Llm.

Section Embed.
Variable sha256_hex : string -> string.
Variable embeddings_create : string -> list string -> list (list Q).
Variable max_batch_size : Z.
(** The vector the service computes for one text. *)
Variable embed_one : string -> string -> list Q.
Variables model scope id_prefix : string.

Hypothesis batch_positive : (0 < max_batch_size)%Z.
(** The service answers with one vector per input, in the order of the
    inputs. *)
Hypothesis service_contract :
  forall m inputs, embeddings_create m inputs = map (embed_one m) inputs.

Local Abbreviation key := (Llm.key_at sha256_hex model scope id_prefix).
Local Abbreviation first_pass := (Llm.first_pass sha256_hex model scope id_prefix).
Local Abbreviation store_one := (Llm.store_one sha256_hex model scope id_prefix).
Local Abbreviation batch_loop :=
  (fun fuel => Llm.batch_loop sha256_hex embeddings_create max_batch_size fuel
                 model scope id_prefix).

(** The vector cached for the text [t] at position [i], if any. *)
Definition hit (c : gmap string cached) (e : nat * string) : option (list Q) :=
  match c !! key (fst e) (snd e) with
  | Some (CachedVec v) => Some v
  | _ => None
  end.

Definition is_hit (c : gmap string cached) (e : nat * string) : bool :=
  match hit c e with Some _ => true | None => false end.

(** The texts with their positions, from position [i] on. *)
Definition enum (i : nat) (texts : list string) : list (nat * string) :=
  combine (seq i (List.length texts)) texts.

Definition misses (c : gmap string cached) (i : nat) (texts : list string)
  : list (nat * string) :=
  List.filter (fun e => negb (is_hit c e)) (enum i texts).

(** The vector returned for an entry: the cached one, else the service's. *)
Definition final_vec (c : gmap string cached) (e : nat * string) : list Q :=
  match hit c e with
  | Some v => v
  | None => embed_one model (snd e)
  end.

Definition ins_res (res : list (list Q)) (e : nat * string) : list (list Q) :=
  <[fst e := embed_one model (snd e)]> res.

Definition ins_cache (c : gmap string cached) (e : nat * string)
  : gmap string cached :=
  <[key (fst e) (snd e) := CachedVec (embed_one model (snd e))]> c.

Lemma enum_cons (i : nat) (t : string) (texts : list string) :
  enum i (t :: texts) = (i, t) :: enum (S i) texts.
Proof using Type. reflexivity. Qed.

Lemma first_pass_spec (c : gmap string cached) (texts : list string) :
  forall i,
    first_pass c i texts
    = (map (fun e => match hit c e with Some v => v | None => [] end) (enum i texts),
       misses c i texts).
Proof using Type.
  induction texts as [|t texts IH]; intros i; [reflexivity|].
  simpl Llm.first_pass. rewrite IH.
  unfold misses. rewrite (enum_cons i t texts).
  simpl List.filter. simpl map.
  assert (Hi : is_hit c (i, t)
               = match c !! key i t with
                 | Some (CachedVec _) => true
                 | _ => false
                 end).
  { unfold is_hit, hit. simpl. destruct (c !! key i t) as [[v|]|]; reflexivity. }
  rewrite Hi.
  assert (Hh : hit c (i, t)
               = match c !! key i t with
                 | Some (CachedVec v) => Some v
                 | _ => None
                 end) by reflexivity.
  rewrite Hh. destruct (c !! key i t) as [[v|]|]; reflexivity.
Qed.

Lemma store_chunk (chunk : list (nat * string)) :
  forall st,
    fold_left store_one (combine chunk (map (embed_one model) (map snd chunk))) st
    = {| results := fold_left ins_res chunk (results st);
         cache := fold_left ins_cache chunk (cache st);
         calls := calls st |}.
Proof using Type.
  induction chunk as [|[idx t] chunk IH]; intros st; simpl.
  - destruct st; reflexivity.
  - rewrite IH. reflexivity.
Qed.

Lemma slice_chunk (s : nat) (missing : list (nat * string)) :
  s < List.length missing ->
  py_slice (Z.of_nat s) (Z.of_nat s + max_batch_size) missing
  = firstn (Z.to_nat max_batch_size) (skipn s missing).
Proof using batch_positive.
  intros Hs. unfold py_slice.
  destruct (Z.ltb_spec (Z.of_nat s) 0) as [?|_]; [lia|].
  destruct (Z.ltb_spec (Z.of_nat s + max_batch_size) 0) as [?|_]; [lia|].
  rewrite Z.min_l by lia. rewrite Nat2Z.id.
  destruct (Z.min_spec (Z.of_nat s + max_batch_size) (Z.of_nat (List.length missing)))
    as [(Hlt & ->)|(Hge & ->)].
  - rewrite firstn_skipn_comm. f_equal. f_equal. lia.
  - rewrite Nat2Z.id, firstn_all.
    symmetry. apply firstn_all2. rewrite length_skipn. lia.
Qed.

Lemma batch_loop_spec (missing : list (nat * string)) (fuel : nat) :
  forall (s : nat) (st : state),
    List.length missing - s <= fuel ->
    exists new_calls,
      batch_loop fuel missing (Z.of_nat s) st
      = Some {| results := fold_left ins_res (skipn s missing) (results st);
                cache := fold_left ins_cache (skipn s missing) (cache st);
                calls := calls st ++ new_calls |}
      /\ concat new_calls = map snd (skipn s missing)
      /\ Forall (fun c => c <> []
                          /\ List.length c <= Z.to_nat max_batch_size) new_calls.
Proof using batch_positive service_contract.
  induction fuel as [|fuel IH]; intros s st Hf.
  - exists []. assert (Hs : List.length missing <= s) by lia.
    simpl. destruct (Z.ltb_spec (Z.of_nat s) (Z.of_nat (List.length missing))); [lia|].
    rewrite (skipn_all2 missing Hs). simpl. rewrite app_nil_r.
    destruct st; repeat split; constructor.
  - destruct (Nat.lt_ge_cases s (List.length missing)) as [Hs|Hs].
    + simpl Llm.batch_loop.
      destruct (Z.ltb_spec (Z.of_nat s) (Z.of_nat (List.length missing))); [|lia].
      rewrite (slice_chunk s missing Hs), service_contract, store_chunk. simpl.
      set (b := Z.to_nat max_batch_size).
      assert (Hb : (Z.of_nat s + max_batch_size)%Z = Z.of_nat (s + b)) by lia.
      rewrite Hb.
      destruct (IH (s + b)
                  {| results := fold_left ins_res (firstn b (skipn s missing)) (results st);
                     cache := fold_left ins_cache (firstn b (skipn s missing)) (cache st);
                     calls := calls st ++ [map snd (firstn b (skipn s missing))] |})
        as (new_calls & Hrun & Hcat & Hall); [lia|].
      exists (map snd (firstn b (skipn s missing)) :: new_calls).
      assert (Hsplit : skipn s missing
                       = firstn b (skipn s missing) ++ skipn (s + b) missing).
      { rewrite (Nat.add_comm s b), <- skipn_skipn. symmetry. apply firstn_skipn. }
      split; [|split].
      * rewrite Hrun. simpl. rewrite <- !fold_left_app, <- Hsplit, <- app_assoc.
        reflexivity.
      * simpl. rewrite Hcat, <- map_app, <- Hsplit. reflexivity.
      * constructor; [|exact Hall]. rewrite length_map. split.
        -- intros Hnil. apply (f_equal (@List.length _)) in Hnil.
           rewrite length_map, length_firstn, length_skipn in Hnil. simpl in Hnil. lia.
        -- rewrite length_firstn. lia.
    + exists []. simpl Llm.batch_loop.
      destruct (Z.ltb_spec (Z.of_nat s) (Z.of_nat (List.length missing))); [lia|].
      rewrite (skipn_all2 missing Hs). simpl. rewrite app_nil_r.
      destruct st; repeat split; constructor.
Qed.

(** Storing the vectors of the misses completes the result list. *)
Lemma fill_results (c : gmap string cached) (texts : list string) :
  forall pre : list (list Q),
    fold_left ins_res (misses c (List.length pre) texts)
      (pre ++ map (fun e => match hit c e with Some v => v | None => [] end)
                (enum (List.length pre) texts))
    = pre ++ map (final_vec c) (enum (List.length pre) texts).
Proof using Type.
  induction texts as [|t texts IH]; intros pre; [reflexivity|].
  unfold misses, enum. simpl. unfold is_hit at 1, final_vec at 1.
  specialize (IH (pre ++ [match hit c (List.length pre, t) with
                          | Some v => v
                          | None => embed_one model t
                          end])).
  rewrite length_app, Nat.add_1_r in IH. unfold misses, enum in IH.
  rewrite <- !app_assoc in IH. simpl in IH.
  destruct (hit c (List.length pre, t)) as [v|] eqn:Eh; simpl.
  - exact IH.
  - unfold ins_res at 2. simpl.
    rewrite insert_app_r_alt by lia. rewrite Nat.sub_diag. simpl. exact IH.
Qed.

Lemma enum_length (i : nat) (texts : list string) :
  List.length (enum i texts) = List.length texts.
Proof using Type.
  unfold enum. rewrite length_combine, length_seq. lia.
Qed.

Lemma enum_lookup (texts : list string) :
  forall (i0 i : nat) (t : string),
    texts !! i = Some t -> enum i0 texts !! i = Some (i0 + i, t).
Proof using Type.
  induction texts as [|x texts IH]; intros i0 [|i] t H; try discriminate.
  - injection H as ->. unfold enum. simpl. now rewrite Nat.add_0_r.
  - unfold enum. simpl. specialize (IH (S i0) i t H). unfold enum in IH.
    rewrite IH. f_equal. f_equal. lia.
Qed.

Definition is_vec (c : gmap string cached) (k : string) : Prop :=
  exists v, c !! k = Some (CachedVec v).

Lemma ins_cache_vec (chunk : list (nat * string)) :
  forall (c : gmap string cached) (k : string),
    is_vec c k \/ (exists e, In e chunk /\ key (fst e) (snd e) = k) ->
    is_vec (fold_left ins_cache chunk c) k.
Proof using Type.
  induction chunk as [|e chunk IH]; intros c k H; simpl.
  - destruct H as [H|(e & [] & _)]. exact H.
  - apply IH. destruct (decide (key (fst e) (snd e) = k)) as [E|Hne].
    + left. unfold ins_cache, is_vec. rewrite E, lookup_insert_eq. eauto.
    + destruct H as [(v & Hv)|(e' & [->|Hin] & Hk)].
      * left. exists v. unfold ins_cache. now rewrite lookup_insert_ne.
      * contradiction.
      * right. eauto.
Qed.

Lemma hit_of_vec (c : gmap string cached) (e : nat * string) :
  is_vec c (key (fst e) (snd e)) -> is_hit c e = true.
Proof using Type.
  intros (v & Hv). unfold is_hit, hit. now rewrite Hv.
Qed.

Lemma vec_of_hit (c : gmap string cached) (e : nat * string) :
  is_hit c e = true -> is_vec c (key (fst e) (snd e)).
Proof using Type.
  unfold is_hit, hit, is_vec.
  destruct (c !! key (fst e) (snd e)) as [[v|]|]; try discriminate. eauto.
Qed.

(** After a call every text of the call is cached. *)
Lemma all_cached_after (c : gmap string cached) (texts : list string) :
  misses (fold_left ins_cache (misses c 0 texts) c) 0 texts = [].
Proof using Type.
  unfold misses at 1.
  assert (H : Forall (fun e => negb (is_hit (fold_left ins_cache (misses c 0 texts) c) e)
                               = false) (enum 0 texts)).
  { apply List.Forall_forall. intros e He.
    apply negb_false_iff, hit_of_vec, ins_cache_vec.
    destruct (is_hit c e) eqn:Eh.
    - left. now apply vec_of_hit.
    - right. exists e. split; [|reflexivity].
      unfold misses. apply filter_In. split; [exact He|]. now rewrite Eh. }
  induction H as [|e l He Hl IH]; [reflexivity|].
  simpl. rewrite He. exact IH.
Qed.

Lemma single_chunk {A : Type} (l : list (list A)) (x : A) :
  concat l = [x] -> Forall (fun c => c <> []) l -> l = [[x]].
Proof using Type.
  destruct l as [|[|y c] l]; simpl; intros Hc Hall; try discriminate.
  - inversion Hall; congruence.
  - inversion Hall as [|? ? _ Hl]; subst.
    injection Hc as -> Hrest. apply app_eq_nil in Hrest as (-> & Hl0).
    destruct l as [|[|z c] l]; [reflexivity| |discriminate].
    inversion Hl; congruence.
Qed.

(** The state a call of [embed_texts] ends in. *)
Lemma embed_texts_spec (fuel : nat) (c : gmap string cached) (texts : list string) :
  List.length texts <= fuel ->
  exists st,
    Llm.embed_texts sha256_hex embeddings_create max_batch_size fuel c texts
      model scope id_prefix = Some st
    /\ results st = map (final_vec c) (enum 0 texts)
    /\ cache st = fold_left ins_cache (misses c 0 texts) c
    /\ concat (calls st) = map snd (misses c 0 texts)
    /\ Forall (fun b => b <> []
                        /\ List.length b <= Z.to_nat max_batch_size) (calls st).
Proof using batch_positive service_contract.
  intros Hf. unfold Llm.embed_texts. rewrite first_pass_spec.
  assert (Hm : List.length (misses c 0 texts) - 0 <= fuel).
  { unfold misses. pose proof (filter_length_le (fun e => negb (is_hit c e)) (enum 0 texts)).
    rewrite enum_length in *. lia. }
  destruct (batch_loop_spec (misses c 0 texts) fuel 0
              {| results := map (fun e => match hit c e with Some v => v | None => [] end)
                              (enum 0 texts);
                 cache := c; calls := [] |} Hm)
    as (new_calls & Hrun & Hcat & Hall).
  eexists. split; [exact Hrun|]. simpl.
  split; [exact (fill_results c texts [])|].
  split; [reflexivity|]. split; assumption.
Qed.

End Embed.
End EmbedFacts.

(** C4 (amended). With a positive batch size, a service that answers with
    one vector per input in input order, and fuel for one round per text, a
    call of [embed_texts] returns.  The result has one vector per text, the
    vector at position [i] being the one cached under the key of
    (model, scope, [id_prefix] followed by [i], hash of the text) when there
    is one, and the service's vector for that text otherwise.  The inputs of
    the external calls are exactly the texts that missed the cache, in
    order, so they number [len(texts)] less the hits, in batches that are
    not empty and not larger than the batch size.  A second call with the
    same texts, model, scope and [id_prefix] on the cache the first one left
    issues no external call; so a single text that misses the cache is
    embedded by exactly one external call, and by none when the call is
    repeated with the same identifier. *)
Theorem C4_embed_texts_cache
    (sha256_hex : string -> string)
    (embeddings_create : string -> list string -> list (list Q))
    (max_batch_size : Z) (embed_one : string -> string -> list Q)
    (model scope id_prefix : string) (fuel : nat)
    (c : gmap string Llm.cached) (texts : list string)
    (batch_positive : (0 < max_batch_size)%Z)
    (service_contract :
       forall m inputs, embeddings_create m inputs = map (embed_one m) inputs)
    (enough_fuel : List.length texts <= fuel) :
  let run := fun cache0 =>
    Llm.embed_texts sha256_hex embeddings_create max_batch_size fuel cache0 texts
      model scope id_prefix in
  let hit := EmbedFacts.hit sha256_hex model scope id_prefix c in
  let is_hit := EmbedFacts.is_hit sha256_hex model scope id_prefix c in
  exists st,
    run c = Some st
    /\ List.length (Llm.results st) = List.length texts
    /\ (forall i t, texts !! i = Some t ->
          Llm.results st !! i
          = Some (match hit (i, t) with
                  | Some v => v
                  | None => embed_one model t
                  end))
    /\ concat (Llm.calls st)
       = map snd (List.filter (fun e => negb (is_hit e)) (EmbedFacts.enum 0 texts))
    /\ List.length (concat (Llm.calls st))
       + List.length (List.filter is_hit (EmbedFacts.enum 0 texts))
       = List.length texts
    /\ Forall (fun b => b <> [] /\ List.length b <= Z.to_nat max_batch_size)
         (Llm.calls st)
    /\ (exists st2,
          run (Llm.cache st) = Some st2
          /\ Llm.calls st2 = []
          /\ List.length (Llm.results st2) = List.length texts)
    /\ (forall t, texts = [t] -> is_hit (0, t) = false -> Llm.calls st = [[t]]).
Proof.
  intros run hit is_hit.
  destruct (EmbedFacts.embed_texts_spec sha256_hex embeddings_create max_batch_size
              embed_one model scope id_prefix batch_positive service_contract
              fuel c texts enough_fuel)
    as (st & Hrun & Hres & Hcache & Hcat & Hall).
  exists st. split; [exact Hrun|].
  split; [now rewrite Hres, length_map, EmbedFacts.enum_length|].
  split.
  { intros i t Ht. rewrite Hres, list_lookup_fmap.
    rewrite (EmbedFacts.enum_lookup texts 0 i t Ht). reflexivity. }
  split; [exact Hcat|].
  split.
  { rewrite Hcat, length_map. unfold EmbedFacts.misses.
    pose proof (filter_length is_hit (EmbedFacts.enum 0 texts)) as Hfl.
    rewrite EmbedFacts.enum_length in Hfl. unfold is_hit in *. lia. }
  split; [exact Hall|].
  split.
  { destruct (EmbedFacts.embed_texts_spec sha256_hex embeddings_create max_batch_size
                embed_one model scope id_prefix batch_positive service_contract
                fuel (Llm.cache st) texts enough_fuel)
      as (st2 & Hrun2 & Hres2 & _ & Hcat2 & Hall2).
    exists st2. split; [exact Hrun2|]. split.
    - rewrite Hcache, EmbedFacts.all_cached_after in Hcat2. simpl in Hcat2.
      destruct (Llm.calls st2) as [|b bs]; [reflexivity|].
      inversion Hall2 as [|? ? (Hne & _) _]; subst.
      destruct b; [congruence | discriminate].
    - now rewrite Hres2, length_map, EmbedFacts.enum_length. }
  intros t -> Hmiss. apply EmbedFacts.single_chunk.
  - rewrite Hcat. unfold EmbedFacts.misses. simpl.
    unfold is_hit in Hmiss. rewrite Hmiss. reflexivity.
  - eapply List.Forall_impl; [|exact Hall]. intros b Hb. apply Hb.
Qed.

Module EmbedExamples.
(** A collision-free stand-in for the hash, and a service that answers
    each text with a one-component vector. *)
Definition sha256_hex (s : string) : string := s.
Definition embed_one (model text : string) : list Q :=
  [inject_Z (Z.of_nat (String.length text))].
Definition embeddings_create (model : string) (inputs : list string) : list (list Q) :=
  map (embed_one model) inputs.
(** A cache that holds the vector of the second text of a call. *)
Definition warm : gmap string Llm.cached :=
  <[Llm.key_at sha256_hex "m" "s" "" 1 "bb" := Llm.CachedVec [7%Q]]> ∅.
End EmbedExamples.

Lemma C4_embed_texts_cache_witness :
  exists st,
    Llm.embed_texts EmbedExamples.sha256_hex EmbedExamples.embeddings_create 2 3
      EmbedExamples.warm ["a"; "bb"; "ccc"] "m" "s" "" = Some st
    /\ Llm.results st = [[1%Q]; [7%Q]; [3%Q]]
    /\ Llm.calls st = [["a"; "ccc"]].
Proof.
  destruct (C4_embed_texts_cache EmbedExamples.sha256_hex
              EmbedExamples.embeddings_create 2 EmbedExamples.embed_one
              "m" "s" "" 3 EmbedExamples.warm ["a"; "bb"; "ccc"]
              ltac:(lia) ltac:(reflexivity) ltac:(simpl; lia))
    as (st & Hrun & _).
  exists st. split; [exact Hrun|].
  vm_compute in Hrun. injection Hrun as <-. split; reflexivity.
Defined.

(** C4, as first stated, fails: the same text embedded twice under the same
    model and scope, but under two identifiers, is sent to the service
    twice, because the identifier is part of the cache key. *)
Lemma C4_same_text_other_identifier_two_calls :
  exists st1 st2,
    Llm.embed_text EmbedExamples.sha256_hex EmbedExamples.embeddings_create 128 1
      ∅ "x" "m" "s" "a" = Some st1
    /\ Llm.embed_text EmbedExamples.sha256_hex EmbedExamples.embeddings_create 128 1
         (Llm.cache st1) "x" "m" "s" "b" = Some st2
    /\ Llm.calls st1 = [["x"]]
    /\ Llm.calls st2 = [["x"]]
    /\ List.length (Llm.calls st1) + List.length (Llm.calls st2) <> 1.
Proof.
  eexists. eexists.
  split; [vm_compute; reflexivity|].
  split; [vm_compute; reflexivity|].
  split; [reflexivity|]. split; [reflexivity|]. simpl. lia.
Qed.

Module IndexExamples.
Definition annotate_pair_rich (user assistant : string) : pyval := PDict [].
Definition json_dumps_item (it : Rag.item) : string :=
  Toolchat.ident_of (Rag.it_composer_id it) (Rag.it_turn_index it).
Definition json_dumps (v : pyval) : string := "{}".
Definition composer_data_keys : list string := ["composerData:cid"].
(** The SQLite builder on the example store. *)
Definition sqlite :=
  Index.build_index_sqlite StoreExamples.kv_value StoreExamples.to_text
    StoreExamples.json_loads StoreExamples.py_repr annotate_pair_rich
    composer_data_keys json_dumps None None "items".
(** The JSONL builder on the example store. *)
Definition jsonl :=
  Index.build_index StoreExamples.kv_value StoreExamples.to_text
    StoreExamples.json_loads StoreExamples.py_repr annotate_pair_rich
    composer_data_keys json_dumps_item None None "index.jsonl".
End IndexExamples.

Lemma C3_index_builders_idempotent_witness :
  IndexExamples.sqlite (fst (IndexExamples.sqlite ∅)) = IndexExamples.sqlite ∅
  /\ IndexExamples.jsonl (fst (IndexExamples.jsonl {["index.jsonl" := ["stale"]]}))
     = IndexExamples.jsonl {["index.jsonl" := ["stale"]]}
  /\ fst (IndexExamples.jsonl {["index.jsonl" := ["stale"]]}) !! "index.jsonl"
     = Some ["cid:0" +:+ PyStr.NL]
  /\ is_Some (fst (IndexExamples.sqlite ∅) !! ("cid", 0%Z)).
Proof.
  destruct (C3_index_builders_idempotent StoreExamples.kv_value StoreExamples.to_text
              StoreExamples.json_loads StoreExamples.py_repr
              IndexExamples.annotate_pair_rich IndexExamples.composer_data_keys
              IndexExamples.json_dumps_item IndexExamples.json_dumps None None
              "index.jsonl" "items" {["index.jsonl" := ["stale"]]} ∅)
    as (H1 & _ & H3 & H4 & _ & H6).
  split; [exact H4|]. split; [exact H1|]. split.
  - apply (H3 _ ltac:(vm_compute; reflexivity)).
  - eapply H6; [vm_compute; reflexivity | vm_compute; reflexivity |].
    left. reflexivity.
Defined.

Lemma C6_hybrid_merge_is_union_join_witness :
  In "c3:3"
    (map Toolchat.m_id
       (Toolchat._tool_hybrid_search MergeExamples.sparse_hits MergeExamples.vector_hits))
  /\ forall it,
       In it (Toolchat._tool_hybrid_search MergeExamples.sparse_hits MergeExamples.vector_hits) ->
       Toolchat.m_id it = "c3:3" -> Toolchat.sparse_score it = None.
Proof.
  destruct (C6_hybrid_merge_is_union_join MergeExamples.sparse_hits
              MergeExamples.vector_hits) as (_ & _ & H3 & H4 & _).
  split.
  - apply H3. right. simpl. right. left. reflexivity.
  - intros it Hin Hid. apply (H4 it Hin). rewrite Hid. simpl.
    intros [H|[H|[]]]; discriminate H.
Defined.

(* ===================================================================== *)
(** * Further properties of the modelled code *)
(* ===================================================================== *)

(** ** Texts with something to read *)

Module InkFacts.
Import PyStr.

(** The text has a character that is not white space. *)
Fixpoint has_ink (s : string) : bool :=
  match s with
  | EmptyString => false
  | String c s' => negb (is_space c) || has_ink s'
  end.

Lemma has_ink_app (a b : string) : has_ink (a +:+ b) = has_ink a || has_ink b.
Proof.
  induction a as [|c a IH]; [reflexivity|].
  rewrite PyStrFacts.app_cons. simpl. rewrite IH. now rewrite orb_assoc.
Qed.

Lemma has_ink_lstrip (s : string) : has_ink (lstrip s) = has_ink s.
Proof.
  induction s as [|c s IH]; [reflexivity|].
  simpl. destruct (is_space c) eqn:E; simpl; [exact IH | now rewrite E].
Qed.

Lemma rstrip_empty (s : string) : is_empty (rstrip s) = negb (has_ink s).
Proof.
  induction s as [|c s IH]; [reflexivity|].
  simpl. destruct (rstrip s) as [|d r]; simpl in *.
  - destruct (has_ink s); [discriminate|]. destruct (is_space c); reflexivity.
  - destruct (has_ink s); [|discriminate]. now rewrite orb_true_r.
Qed.

Lemma has_ink_rstrip (s : string) : has_ink (rstrip s) = has_ink s.
Proof.
  induction s as [|c s IH]; [reflexivity|].
  simpl. pose proof (rstrip_empty s) as E.
  destruct (rstrip s) as [|d r].
  - simpl in E. destruct (has_ink s); [discriminate|].
    destruct (is_space c) eqn:Ec; simpl; now rewrite ?Ec.
  - change (has_ink (String c (String d r)))
      with (negb (is_space c) || has_ink (String d r)).
    now rewrite IH.
Qed.

Lemma has_ink_strip (s : string) : has_ink (strip s) = has_ink s.
Proof. unfold strip. now rewrite has_ink_rstrip, has_ink_lstrip. Qed.

Lemma strip_empty (s : string) : is_empty (strip s) = negb (has_ink s).
Proof. unfold strip. now rewrite rstrip_empty, has_ink_lstrip. Qed.

(** [_is_nonempty] on a [str] says whether the text has ink. *)
Lemma is_nonempty_ink (s : string) : Parser._is_nonempty (PStr s) = Ok (has_ink s).
Proof.
  unfold Parser._is_nonempty. simpl. rewrite strip_empty, negb_involutive.
  destruct s; reflexivity.
Qed.

Lemma is_nonempty_true (t : pyval) :
  Parser._is_nonempty t = Ok true <-> exists s, t = PStr s /\ has_ink s = true.
Proof.
  split.
  - intros H. destruct (ParserFacts.is_nonempty_true_str t H) as (s & ->).
    exists s. split; [reflexivity|]. rewrite is_nonempty_ink in H. congruence.
  - intros (s & -> & Hs). now rewrite is_nonempty_ink, Hs.
Qed.

(** Stripping twice is stripping once. *)
Lemma lstrip_fixed (s : string) : lstrip (lstrip s) = lstrip s.
Proof.
  induction s as [|c s IH]; [reflexivity|].
  simpl. destruct (is_space c) eqn:E; [exact IH|]. simpl. now rewrite E.
Qed.

End InkFacts.

(** ** The shape of a coalesced conversation *)

Module CoalesceFacts.
Import Parser InkFacts.

Definition is_asst (m : message) : bool := String.eqb (role m) "assistant".

(** An assistant message with a [str] text that has ink. *)
Definition inked (m : message) : Prop :=
  exists s, text m = PStr s /\ has_ink s = true.

(** Whether the list, entered after an assistant message when [b] holds,
    ends on an assistant message. *)
Fixpoint ends_asst (b : bool) (l : list message) : bool :=
  match l with
  | [] => b
  | m :: rest => ends_asst (is_asst m) rest
  end.

(** No two assistant messages are adjacent (none comes first when [b]
    holds), and every assistant message has ink. *)
Fixpoint coalesced_form (b : bool) (l : list message) : Prop :=
  match l with
  | [] => True
  | m :: rest =>
      (is_asst m = true -> b = false /\ inked m)
      /\ coalesced_form (is_asst m) rest
  end.

Lemma ends_asst_snoc (l : list message) (m : message) :
  forall b, ends_asst b (l ++ [m]) = is_asst m.
Proof. induction l as [|x l IH]; intros b; simpl; [reflexivity | apply IH]. Qed.

Lemma coalesced_form_snoc (l : list message) (m : message) :
  forall b,
    coalesced_form b (l ++ [m])
    <-> coalesced_form b l
        /\ (is_asst m = true -> ends_asst b l = false /\ inked m).
Proof.
  induction l as [|x l IH]; intros b; simpl.
  - tauto.
  - rewrite IH. tauto.
Qed.

(** What the loop of [coalesce_assistant_runs] keeps true of its state. *)
Definition state_ok (st : coalesce_state) : Prop :=
  coalesced_form false (fst st)
  /\ ends_asst false (fst st) = false
  /\ match snd st with
     | Some p => is_asst p = true /\ inked p
     | None => True
     end.

Lemma step_ok (st st' : coalesce_state) (m : message) :
  coalesce_step st m = Ok st' -> state_ok st -> state_ok st'.
Proof.
  destruct st as [acc pend]. unfold coalesce_step, state_ok. simpl.
  intros H (Hform & Hend & Hp).
  destruct (String.eqb (role m) "assistant") eqn:Er.
  - destruct (_is_nonempty (text m)) as [[|]|] eqn:En; simpl in H; try discriminate.
    + apply is_nonempty_true in En. destruct En as (s & Ht & Hs).
      destruct pend as [p|].
      * destruct Hp as (Hpa & sp & Htp & Hsp). rewrite Htp, Ht in H. simpl in H.
        injection H as <-. simpl. repeat split; try assumption.
        eexists. split; [reflexivity|].
        now rewrite has_ink_strip, has_ink_app, Hsp.
      * injection H as <-. simpl. repeat split; try assumption.
        exists s. now split.
    + injection H as <-. simpl. now repeat split.
  - assert (Hm : is_asst m = false) by exact Er.
    destruct pend as [p|]; injection H as <-; simpl.
    + destruct Hp as (Hpa & Hpi).
      change (acc ++ [p; m]) with (acc ++ [p] ++ [m]). rewrite app_assoc.
      split; [|split; [|exact I]].
      * apply coalesced_form_snoc. split.
        -- apply coalesced_form_snoc. split; [exact Hform|]. intros _. now split.
        -- rewrite Hm. discriminate.
      * now rewrite ends_asst_snoc.
    + split; [|split; [|exact I]].
      * apply coalesced_form_snoc. split; [exact Hform|]. rewrite Hm. discriminate.
      * now rewrite ends_asst_snoc.
Qed.

Lemma fold_ok (l : list message) :
  forall st st', exc_fold coalesce_step l st = Ok st' -> state_ok st -> state_ok st'.
Proof.
  induction l as [|m l IH]; intros st st' H Hok; simpl in H.
  - now injection H as <-.
  - destruct (coalesce_step st m) as [st1|] eqn:E; simpl in H; [|discriminate].
    eapply IH; [exact H|]. eapply step_ok; eauto.
Qed.

Lemma coalesced_output (msgs out : list message) :
  coalesce_assistant_runs msgs = Ok out -> coalesced_form false out.
Proof.
  unfold coalesce_assistant_runs. intros H.
  destruct (exc_fold coalesce_step msgs ([], None)) as [st|] eqn:E; simpl in H;
    [|discriminate].
  injection H as <-.
  destruct (fold_ok msgs _ _ E) as (Hform & Hend & Hp).
  { repeat split. }
  unfold coalesce_flush. destruct st as [acc [p|]]; simpl in *; [|exact Hform].
  apply coalesced_form_snoc. split; [exact Hform|]. intros _. now split.
Qed.

(** A list in coalesced form goes through the loop unchanged. *)
Lemma coalesce_fixed (l : list message) :
  forall (b : bool) (acc : list message) (pend : option message),
    coalesced_form b l -> (b = false -> pend = None) ->
    exists st, exc_fold coalesce_step l (acc, pend) = Ok st
               /\ coalesce_flush st = acc ++ TurnFacts.opt_list pend ++ l.
Proof.
  induction l as [|m l IH]; intros b acc pend Hf Hp.
  - exists (acc, pend). split; [reflexivity|].
    unfold coalesce_flush. destruct pend; simpl; now rewrite ?app_nil_r.
  - destruct Hf as (Hm & Hrest). rewrite exc_fold_cons.
    destruct (is_asst m) eqn:Em.
    + destruct (Hm eq_refl) as (-> & s & Ht & Hs). rewrite (Hp eq_refl).
      assert (Hstep : coalesce_step (acc, None) m = Ok (acc, Some m)).
      { unfold coalesce_step. unfold is_asst in Em. rewrite Em, Ht.
        rewrite is_nonempty_ink, Hs. reflexivity. }
      rewrite Hstep. simpl exc_bind.
      destruct (IH true acc (Some m) Hrest) as (st & Hst & Hfl); [discriminate|].
      exists st. split; [exact Hst|]. rewrite Hfl. reflexivity.
    + assert (Hstep : coalesce_step (acc, pend) m
                      = Ok (acc ++ TurnFacts.opt_list pend ++ [m], None)).
      { unfold coalesce_step. unfold is_asst in Em. rewrite Em.
        destruct pend; reflexivity. }
      rewrite Hstep. simpl exc_bind.
      destruct (IH false (acc ++ TurnFacts.opt_list pend ++ [m]) None Hrest
                  (fun _ => eq_refl)) as (st & Hst & Hfl).
      exists st. split; [exact Hst|]. rewrite Hfl. simpl.
      now rewrite <- !app_assoc.
Qed.

(** The messages of other roles, in order. *)
Definition others (l : list message) : list message :=
  List.filter (fun m => negb (is_asst m)) l.

Lemma others_app (a b : list message) : others (a ++ b) = others a ++ others b.
Proof. unfold others. apply List.filter_app. Qed.

Lemma step_others (st st' : coalesce_state) (m : message) :
  coalesce_step st m = Ok st' ->
  (forall p, snd st = Some p -> is_asst p = true) ->
  others (fst st') = others (fst st) ++ others [m]
  /\ (forall p, snd st' = Some p -> is_asst p = true).
Proof.
  destruct st as [acc pend]. unfold coalesce_step. cbn [fst snd]. intros H Hp.
  destruct (String.eqb (role m) "assistant") eqn:Er.
  - assert (Ho : others [m] = []) by (unfold others, is_asst; simpl; now rewrite Er).
    rewrite Ho, app_nil_r.
    destruct (_is_nonempty (text m)) as [[|]|]; simpl in H; try discriminate.
    + destruct pend as [p|].
      * destruct (concat_texts (text p) (text m)) as [t|]; simpl in H; [|discriminate].
        injection H as <-. simpl. split; [reflexivity|].
        intros q [= <-]. apply (Hp p eq_refl).
      * injection H as <-. simpl. split; [reflexivity|]. intros q [= <-]. exact Er.
    + injection H as <-. simpl. now split.
  - assert (Ho : others [m] = [m]) by (unfold others, is_asst; simpl; now rewrite Er).
    destruct pend as [p|]; injection H as <-; cbn [fst snd].
    + change (acc ++ [p; m]) with (acc ++ [p] ++ [m]).
      rewrite !others_app, Ho. split; [|discriminate].
      assert (Hpo : others [p] = []).
      { unfold others. simpl. now rewrite (Hp p eq_refl). }
      now rewrite Hpo.
    + rewrite others_app, Ho. split; [reflexivity | discriminate].
Qed.

Lemma fold_others (l : list message) :
  forall st st',
    exc_fold coalesce_step l st = Ok st' ->
    (forall p, snd st = Some p -> is_asst p = true) ->
    others (fst st') = others (fst st) ++ others l
    /\ (forall p, snd st' = Some p -> is_asst p = true).
Proof.
  induction l as [|m l IH]; intros st st' H Hp; simpl in H.
  - injection H as <-. split; [now rewrite app_nil_r | exact Hp].
  - destruct (coalesce_step st m) as [st1|] eqn:E; simpl in H; [|discriminate].
    destruct (step_others st st1 m E Hp) as (Ho1 & Hp1).
    destruct (IH st1 st' H Hp1) as (Ho & Hp').
    split; [|exact Hp'].
    rewrite Ho, Ho1, <- app_assoc. f_equal.
    change (m :: l) with ([m] ++ l). now rewrite others_app.
Qed.

Lemma others_output (msgs out : list message) :
  coalesce_assistant_runs msgs = Ok out -> others out = others msgs.
Proof.
  unfold coalesce_assistant_runs. intros H.
  destruct (exc_fold coalesce_step msgs ([], None)) as [st|] eqn:E;
    simpl in H; [|discriminate].
  injection H as <-.
  destruct (fold_others msgs _ _ E) as (Ho & Hp); [discriminate|].
  unfold coalesce_flush. destruct st as [acc [p|]]; simpl in *; [|exact Ho].
  rewrite others_app, Ho.
  assert (Hpo : others [p] = []).
  { unfold others. simpl. now rewrite (Hp p eq_refl). }
  now rewrite Hpo, app_nil_r.
Qed.

End CoalesceFacts.

(** X1. Whenever [coalesce_assistant_runs] returns, its output holds the
    messages of every role other than the assistant's exactly as they came,
    in the same order: coalescing never drops, changes or moves one. *)
Theorem X1_coalesce_keeps_other_roles (msgs out : list Parser.message)
    (H : Parser.coalesce_assistant_runs msgs = Ok out) :
  CoalesceFacts.others out = CoalesceFacts.others msgs.
Proof. exact (CoalesceFacts.others_output msgs out H). Qed.

Lemma X1_coalesce_keeps_other_roles_witness :
  CoalesceFacts.others
    [ParserExamples.asst "A"; ParserExamples.usr "q";
     ParserExamples.asst "B"; ParserExamples.usr "r"]
  = CoalesceFacts.others
      [ParserExamples.asst "A"; ParserExamples.asst ""; ParserExamples.usr "q";
       ParserExamples.asst "B"; ParserExamples.usr "r"].
Proof.
  apply (X1_coalesce_keeps_other_roles
           [ParserExamples.asst "A"; ParserExamples.asst ""; ParserExamples.usr "q";
            ParserExamples.asst "B"; ParserExamples.usr "r"]).
  reflexivity.
Defined.

(** X2. Whenever [coalesce_assistant_runs] returns, no two assistant
    messages are adjacent in its output and every assistant message of the
    output has a [str] text with a character that is not white space; and
    coalescing the output again returns it unchanged. *)
Theorem X2_coalesce_normal_form_idempotent (msgs out : list Parser.message)
    (H : Parser.coalesce_assistant_runs msgs = Ok out) :
  CoalesceFacts.coalesced_form false out
  /\ Parser.coalesce_assistant_runs out = Ok out.
Proof.
  pose proof (CoalesceFacts.coalesced_output msgs out H) as Hf.
  split; [exact Hf|].
  destruct (CoalesceFacts.coalesce_fixed out false [] None Hf (fun _ => eq_refl))
    as (st & Hst & Hfl).
  unfold Parser.coalesce_assistant_runs. rewrite Hst. simpl. now rewrite Hfl.
Qed.

Lemma X2_coalesce_normal_form_idempotent_witness :
  Parser.coalesce_assistant_runs
    [Parser.set_text (ParserExamples.asst "A")
       (PStr ("A" +:+ PyStr.NLNL +:+ "B"));
     ParserExamples.usr "q"]
  = Ok [Parser.set_text (ParserExamples.asst "A")
          (PStr ("A" +:+ PyStr.NLNL +:+ "B"));
        ParserExamples.usr "q"].
Proof.
  apply (X2_coalesce_normal_form_idempotent
           [ParserExamples.asst "A"; ParserExamples.asst " "; ParserExamples.asst "B";
            ParserExamples.usr "q"]).
  reflexivity.
Defined.

(** ** Turn pairs of an arbitrary conversation *)

Module PairFacts.
Import Parser InkFacts CoalesceFacts.

Definition is_user (m : message) : bool := String.eqb (role m) "user".

Definition is_str (t : pyval) : bool :=
  match t with PStr _ => true | _ => false end.

Definition inked_text (t : pyval) : bool :=
  match t with PStr s => has_ink s | _ => false end.

(** An assistant message whose text is truthy without being a [str]:
    [text.strip()] does not exist on it. *)
Definition unstrippable (m : message) : bool :=
  is_asst m && truthy (text m) && negb (is_str (text m)).

(** The role that opens the turns: [Some false] for a user message,
    [Some true] for an assistant message with ink, whichever comes first. *)
Fixpoint first_kind (l : list message) : option bool :=
  match l with
  | [] => None
  | m :: rest =>
      if is_user m then Some false
      else if is_asst m && inked_text (text m) then Some true
      else first_kind rest
  end.

Definition opens_with_answer (l : list message) : bool :=
  match first_kind l with Some true => true | _ => false end.

Definition count_users (l : list message) : nat :=
  List.length (List.filter is_user l).

Definition is_open (st : qa_state) : bool :=
  match current_user st, current_assistant_text st with
  | None, [] => false
  | _, _ => true
  end.

Lemma is_nonempty_outcome (t : pyval) :
  _is_nonempty t
  = if truthy t && negb (is_str t) then Raise AttributeError
    else Ok (inked_text t).
Proof.
  destruct t as [|b|z|q|s|l|kvs]; unfold _is_nonempty; simpl.
  - reflexivity.
  - destruct b; reflexivity.
  - destruct (negb (z =? 0)%Z); reflexivity.
  - destruct (negb (Qeq_bool q 0)); reflexivity.
  - rewrite andb_false_r. destruct s; [reflexivity|]. simpl negb. cbv iota.
    now rewrite strip_empty, negb_involutive.
  - destruct l; reflexivity.
  - destruct kvs; reflexivity.
Qed.

Lemma asst_not_user (m : message) : is_asst m = true -> is_user m = false.
Proof.
  unfold is_asst, is_user. intros H. apply String.eqb_eq in H. now rewrite H.
Qed.

Lemma inked_text_spec (m : message) :
  inked_text (text m) = true <-> inked m.
Proof.
  unfold inked. split.
  - destruct (text m); simpl; try discriminate. eauto.
  - intros (s & -> & Hs). exact Hs.
Qed.

Lemma first_kind_app (a b : list message) :
  first_kind (a ++ b)
  = match first_kind a with Some k => Some k | None => first_kind b end.
Proof.
  induction a as [|m a IH]; simpl; [reflexivity|].
  destruct (is_user m); [reflexivity|].
  destruct (is_asst m && inked_text (text m)); [reflexivity | exact IH].
Qed.

Lemma first_kind_answer (p : message) (l : list message) :
  is_asst p = true -> inked p -> first_kind (p :: l) = Some true.
Proof.
  intros Ha Hi. simpl. rewrite (asst_not_user p Ha), Ha.
  apply inked_text_spec in Hi. now rewrite Hi.
Qed.

Lemma flush_eq (acc : list message) (pend : option message) :
  coalesce_flush (acc, pend) = acc ++ TurnFacts.opt_list pend.
Proof. destruct pend; simpl; unfold coalesce_flush; simpl; now rewrite ?app_nil_r. Qed.

Lemma step_first_kind (st st1 : coalesce_state) (m : message) (l : list message) :
  coalesce_step st m = Ok st1 -> state_ok st ->
  first_kind (coalesce_flush st1 ++ l) = first_kind (coalesce_flush st ++ m :: l).
Proof.
  destruct st as [acc pend]. unfold state_ok. cbn [fst snd].
  intros H (_ & _ & Hp). unfold coalesce_step in H.
  destruct (String.eqb (role m) "assistant") eqn:Er.
  - rewrite is_nonempty_outcome in H.
    destruct (truthy (text m) && negb (is_str (text m))); [discriminate|].
    simpl in H. destruct (inked_text (text m)) eqn:Ei; simpl in H.
    + assert (Hm : first_kind (m :: l) = Some true).
      { apply first_kind_answer; [exact Er | now apply inked_text_spec]. }
      destruct pend as [p|].
      * destruct Hp as (Hpa & Hpi).
        destruct (concat_texts (text p) (text m)) as [t|] eqn:Ec; simpl in H;
          [|discriminate].
        injection H as <-. rewrite !flush_eq. simpl TurnFacts.opt_list.
        rewrite <- !app_assoc, !first_kind_app.
        destruct (first_kind acc); [reflexivity|].
        rewrite (first_kind_answer p [] Hpa Hpi).
        rewrite (first_kind_answer (set_text p t) [] Hpa); [reflexivity|].
        destruct Hpi as (sp & Htp & Hsp). apply inked_text_spec in Ei.
        destruct Ei as (s & Ht & Hs). rewrite Htp, Ht in Ec.
        injection Ec as <-. eexists. split; [reflexivity|].
        now rewrite has_ink_strip, has_ink_app, Hsp.
      * injection H as <-. rewrite !flush_eq. simpl TurnFacts.opt_list.
        rewrite app_nil_r, <- app_assoc. reflexivity.
    + injection H as <-. rewrite flush_eq, <- !app_assoc, !first_kind_app.
      destruct (first_kind acc); [reflexivity|].
      destruct (first_kind (TurnFacts.opt_list pend)); [reflexivity|].
      simpl. assert (Ha : is_asst m = true) by exact Er.
      now rewrite (asst_not_user m Ha), Ha, Ei.
  - destruct pend as [p|]; injection H as <-; rewrite !flush_eq; simpl TurnFacts.opt_list;
      rewrite ?app_nil_r, <- ?app_assoc; reflexivity.
Qed.

Lemma fold_first_kind (l : list message) :
  forall st st',
    exc_fold coalesce_step l st = Ok st' -> state_ok st ->
    first_kind (coalesce_flush st') = first_kind (coalesce_flush st ++ l).
Proof.
  induction l as [|m l IH]; intros st st' H Hok; simpl in H.
  - injection H as <-. now rewrite app_nil_r.
  - destruct (coalesce_step st m) as [st1|] eqn:E; simpl in H; [|discriminate].
    rewrite (IH st1 st' H (step_ok st st1 m E Hok)).
    apply step_first_kind; assumption.
Qed.

(** The loop of [coalesce_assistant_runs] raises exactly at the first
    assistant message whose text cannot be stripped. *)
Lemma coalesce_fold_outcome (l : list message) :
  forall st, state_ok st ->
    if existsb unstrippable l
    then exc_fold coalesce_step l st = Raise AttributeError
    else exists st', exc_fold coalesce_step l st = Ok st'.
Proof.
  induction l as [|m l IH]; intros st Hok; simpl existsb.
  - exists st. reflexivity.
  - rewrite exc_fold_cons.
    assert (Hstep : if unstrippable m
                    then coalesce_step st m = Raise AttributeError
                    else exists st1, coalesce_step st m = Ok st1).
    { destruct st as [acc pend]. destruct Hok as (_ & _ & Hp). cbn [snd] in Hp.
      unfold unstrippable, coalesce_step, is_asst.
      destruct (String.eqb (role m) "assistant"); simpl andb.
      - rewrite is_nonempty_outcome.
        destruct (truthy (text m) && negb (is_str (text m))); [reflexivity|].
        simpl. destruct (inked_text (text m)) eqn:Ei; simpl; [|eauto].
        destruct pend as [p|]; [|eauto].
        destruct Hp as (_ & sp & Htp & _). apply inked_text_spec in Ei.
        destruct Ei as (s & Ht & _). rewrite Htp, Ht. simpl. eauto.
      - destruct pend; eauto. }
    destruct (unstrippable m); simpl orb.
    + rewrite Hstep. reflexivity.
    + destruct Hstep as (st1 & E). rewrite E. simpl exc_bind.
      apply IH. eapply step_ok; eauto.
Qed.

Lemma coalesced_strippable (l : list message) :
  forall b, coalesced_form b l -> existsb unstrippable l = false.
Proof.
  induction l as [|m l IH]; intros b Hf; [reflexivity|].
  destruct Hf as (Hm & Hrest). simpl. rewrite (IH _ Hrest), orb_false_r.
  unfold unstrippable. destruct (is_asst m); [|reflexivity].
  destruct (Hm eq_refl) as (_ & s & -> & _). simpl. now rewrite andb_false_r.
Qed.

Lemma total_open (st : qa_state) :
  TurnFacts.total st = List.length (pairs st) + (if is_open st then 1 else 0).
Proof.
  unfold TurnFacts.total, is_open.
  destruct (current_user st), (current_assistant_text st); reflexivity.
Qed.

(** The turn loop on messages that can all be stripped: it does not raise,
    a user message opens one pair, and an assistant text opens one only
    when no pair is open. *)
Lemma qa_fold_total (l : list message) :
  forall st, existsb unstrippable l = false ->
    exists st', exc_fold qa_step l st = Ok st'
                /\ TurnFacts.total st'
                   = TurnFacts.total st + count_users l
                     + (if is_open st then 0
                        else if opens_with_answer l then 1 else 0).
Proof.
  induction l as [|m l IH]; intros st Hl.
  - exists st. split; [reflexivity|]. unfold count_users, opens_with_answer. simpl.
    destruct (is_open st); lia.
  - simpl in Hl. apply orb_false_iff in Hl. destruct Hl as (Hm & Hl).
    rewrite exc_fold_cons. unfold count_users, opens_with_answer. simpl first_kind.
    simpl List.filter. unfold qa_step at 1. fold (is_user m).
    destruct (is_user m) eqn:Eu.
    + simpl exc_bind.
      match goal with |- exists st', exc_fold _ _ ?s1 = _ /\ _ =>
        destruct (IH s1 Hl) as (st' & Hst & Htot); exists st'; split; [exact Hst|];
        rewrite Htot
      end.
      rewrite !total_open. unfold is_open at 1 2. unfold is_open. cbn [current_user current_assistant_text pairs].
      fold (count_users l). simpl List.length.
      destruct (current_user st), (current_assistant_text st);
        cbn [pairs]; rewrite ?length_app; unfold count_users; simpl; lia.
    + fold (is_asst m). fold (count_users l).
      unfold unstrippable in Hm. destruct (is_asst m) eqn:Ea; simpl andb in *.
      * rewrite is_nonempty_outcome, Hm. simpl exc_bind.
        destruct (inked_text (text m)) eqn:Ei.
        -- destruct (text m) eqn:Et; simpl in Ei; try discriminate.
           simpl exc_bind.
           match goal with |- exists st', exc_fold _ _ ?s1 = _ /\ _ =>
             destruct (IH s1 Hl) as (st' & Hst & Htot); exists st'; split; [exact Hst|];
             rewrite Htot
           end.
           rewrite !total_open. unfold is_open.
           cbn [current_user current_assistant_text pairs].
           destruct (current_user st), (current_assistant_text st); simpl; lia.
        -- simpl exc_bind. destruct (IH st Hl) as (st' & Hst & Htot). exists st'. split; [exact Hst|].
           rewrite Htot. reflexivity.
      * destruct (IH st Hl) as (st' & Hst & Htot). exists st'. split; [exact Hst|].
        rewrite Htot. reflexivity.
Qed.

Lemma users_of_others (l : list message) :
  List.filter is_user (others l) = List.filter is_user l.
Proof.
  unfold others. induction l as [|m l IH]; simpl; [reflexivity|].
  destruct (is_asst m) eqn:Ea; simpl.
  - now rewrite (asst_not_user m Ea).
  - destruct (is_user m); now rewrite IH.
Qed.

End PairFacts.

(** X3. [build_qa_pairs] on any conversation.  It raises (AttributeError)
    exactly when some assistant message has a truthy text that is not a
    [str].  Otherwise it returns, and the number of pairs is the number of
    user messages, plus one when an assistant message with a non-blank text
    comes before every user message. *)
Theorem X3_build_qa_pairs_outcome_and_count (msgs : list Parser.message) :
  (existsb PairFacts.unstrippable msgs = true ->
   Parser.build_qa_pairs msgs = Raise AttributeError)
  /\ (existsb PairFacts.unstrippable msgs = false ->
      exists ps : list Parser.pair,
        Parser.build_qa_pairs msgs = Ok ps
        /\ List.length ps
           = PairFacts.count_users msgs
             + (if PairFacts.opens_with_answer msgs then 1 else 0)).
Proof.
  assert (Hinit : CoalesceFacts.state_ok ([], None)) by (repeat split).
  pose proof (PairFacts.coalesce_fold_outcome msgs ([], None) Hinit) as Hc.
  unfold Parser.build_qa_pairs, Parser.coalesce_assistant_runs.
  split; intros Hb; rewrite Hb in Hc.
  - rewrite Hc. reflexivity.
  - destruct Hc as (st & Hst). rewrite Hst. simpl exc_bind.
    assert (Hout : Parser.coalesce_assistant_runs msgs = Ok (Parser.coalesce_flush st)).
    { unfold Parser.coalesce_assistant_runs. now rewrite Hst. }
    pose proof (CoalesceFacts.coalesced_output msgs _ Hout) as Hform.
    destruct (PairFacts.qa_fold_total (Parser.coalesce_flush st) Parser.qa_init
                (PairFacts.coalesced_strippable _ _ Hform)) as (st' & Hq & Htot).
    rewrite Hq. simpl exc_bind. eexists. split; [reflexivity|].
    rewrite TurnFacts.qa_flush_length, Htot.
    change (TurnFacts.total Parser.qa_init) with 0.
    change (PairFacts.is_open Parser.qa_init) with false. cbv iota.
    assert (Hu : PairFacts.count_users (Parser.coalesce_flush st)
                 = PairFacts.count_users msgs).
    { unfold PairFacts.count_users.
      rewrite <- (PairFacts.users_of_others (Parser.coalesce_flush st)).
      rewrite <- (PairFacts.users_of_others msgs).
      now rewrite (CoalesceFacts.others_output msgs _ Hout). }
    assert (Hk : PairFacts.opens_with_answer (Parser.coalesce_flush st)
                 = PairFacts.opens_with_answer msgs).
    { unfold PairFacts.opens_with_answer.
      now rewrite (PairFacts.fold_first_kind msgs _ _ Hst Hinit). }
    rewrite Hu, Hk. reflexivity.
Qed.

Lemma X3_build_qa_pairs_outcome_and_count_witness :
  Parser.build_qa_pairs
    [ParserExamples.usr "q";
     Parser.Message "c" PNone PNone "assistant" (PInt 7)]
  = Raise AttributeError
  /\ exists ps : list Parser.pair,
       Parser.build_qa_pairs
         [ParserExamples.asst " "; ParserExamples.asst "a"; ParserExamples.usr "q";
          ParserExamples.usr "r"] = Ok ps
       /\ List.length ps = 3.
Proof.
  split.
  - apply (proj1 (X3_build_qa_pairs_outcome_and_count
                    [ParserExamples.usr "q";
                     Parser.Message "c" PNone PNone "assistant" (PInt 7)])).
    reflexivity.
  - apply (proj2 (X3_build_qa_pairs_outcome_and_count
                    [ParserExamples.asst " "; ParserExamples.asst "a";
                     ParserExamples.usr "q"; ParserExamples.usr "r"])).
    reflexivity.
Defined.

(** ** What reconstruction returns and where it raises *)

Module MessageFacts.
Import Parser.

Definition is_dict (v : pyval) : bool :=
  match v with PDict _ => true | _ => false end.

(** What holds of every message dict built for conversation [cid]. *)
Definition message_ok (cid : string) (m : message) : Prop :=
  composer_id m = cid
  /\ truthy (bubble_id m) = true
  /\ (role m = "user" \/ role m = "assistant")
  /\ (truthy (text m) = true \/ text m = PStr "").

Lemma bubble_role_cases (ty : pyval) :
  bubble_role ty = "user" \/ bubble_role ty = "assistant".
Proof. unfold bubble_role. match goal with |- context [if ?c then _ else _] => destruct c end; auto. Qed.

Lemma py_or_default (t : pyval) :
  truthy (py_or t (PStr "")) = true \/ py_or t (PStr "") = PStr "".
Proof. unfold py_or. destruct (truthy t) eqn:E; auto. Qed.

Section Store.
Variable kv_value : string -> option string.
Variable to_text : string -> string.
Variable json_loads : string -> option pyval.
Variable py_repr : pyval -> string.

Local Abbreviation step := (reconstruct_step kv_value to_text json_loads py_repr).

(** A round of the loop keeps the messages and adds at most one, built
    for this conversation. *)
Lemma step_inv (cid : string) (acc out : list message) (h : pyval) :
  step cid acc h = Ok out ->
  out = acc \/ exists m, out = acc ++ [m] /\ message_ok cid m.
Proof using Type.
  unfold reconstruct_step.
  destruct (py_get h "bubbleId") as [b|]; simpl; [|discriminate].
  destruct (py_get h "type") as [ty|]; simpl; [|discriminate].
  destruct (py_get h "serverBubbleId") as [sb|]; simpl; [|discriminate].
  destruct (truthy b) eqn:Eb; simpl; [|intros [= <-]; now left].
  destruct (truthy (load_bubble _ _ _ _ cid b)); simpl; [|intros [= <-]; now left].
  match goal with
  | |- exc_bind ?m _ = _ -> _ => destruct m as [t|]; simpl; [|discriminate]
  end.
  intros [= <-]. right. eexists. split; [reflexivity|].
  unfold message_ok. simpl.
  split; [reflexivity|]. split; [exact Eb|].
  split; [apply bubble_role_cases | apply py_or_default].
Qed.

Lemma fold_inv (cid : string) (hs : list pyval) :
  forall acc out,
    exc_fold (step cid) hs acc = Ok out ->
    Forall (message_ok cid) acc ->
    Forall (message_ok cid) out
    /\ List.length out <= List.length acc + List.length hs.
Proof using Type.
  induction hs as [|h hs IH]; intros acc out H Hacc.
  - injection H as <-. split; [exact Hacc | simpl; lia].
  - rewrite exc_fold_cons in H.
    destruct (step cid acc h) as [a1|] eqn:E; simpl in H; [|discriminate].
    destruct (step_inv cid acc a1 h E) as [->|(m & -> & Hm)].
    + destruct (IH acc out H Hacc) as (Hf & Hl). split; [exact Hf | simpl; lia].
    + destruct (IH (acc ++ [m]) out H) as (Hf & Hl).
      { apply Forall_app. split; [exact Hacc | now constructor]. }
      split; [exact Hf|]. rewrite length_app in Hl. simpl in *. lia.
Qed.

(** A header that is no dict stops the loop: [h.get] does not exist. *)
Lemma step_not_dict (cid : string) (acc : list message) (h : pyval) :
  is_dict h = false -> step cid acc h = Raise AttributeError.
Proof using Type.
  unfold reconstruct_step. destruct h; try discriminate; reflexivity.
Qed.

(** A blob that decodes to a truthy value other than a dict stops the
    loop: [bubble.get] does not exist. *)
Lemma step_blob_not_dict (cid : string) (acc : list message)
    (hd : list (string * pyval)) :
  truthy (dict_get hd "bubbleId") = true ->
  truthy (load_bubble kv_value to_text json_loads py_repr cid
            (dict_get hd "bubbleId")) = true ->
  is_dict (load_bubble kv_value to_text json_loads py_repr cid
             (dict_get hd "bubbleId")) = false ->
  step cid acc (PDict hd) = Raise AttributeError.
Proof using Type.
  intros Hb Ht Hd. unfold reconstruct_step. simpl. rewrite Hb. simpl.
  rewrite Ht. simpl.
  destruct (load_bubble _ _ _ _ cid (dict_get hd "bubbleId"));
    try discriminate; reflexivity.
Qed.

Lemma reconstruct_inv (cid : string) (msgs : list message) :
  reconstruct_conversation kv_value to_text json_loads py_repr cid = Ok msgs ->
  Forall (message_ok cid) msgs.
Proof using Type.
  unfold reconstruct_conversation.
  destruct (negb (truthy (load_composer kv_value to_text json_loads cid))).
  - intros [= <-]. constructor.
  - destruct (py_get _ "fullConversationHeadersOnly") as [hs|]; simpl; [|discriminate].
    destruct (py_iter (py_or hs (PList []))) as [headers|]; simpl; [|discriminate].
    intros H. now destruct (fold_inv cid headers [] msgs H (List.Forall_nil _)).
Qed.

End Store.
End MessageFacts.

(** X4. Whenever [reconstruct_conversation] returns, every message it
    returns carries the conversation id it was called with and a truthy
    bubble id, has role "user" or "assistant", and has a text that is
    truthy or the empty string; and the loop over a list of headers yields
    at most one message per header. *)
Theorem X4_reconstructed_messages_well_formed
    (kv_value : string -> option string) (to_text : string -> string)
    (json_loads : string -> option pyval) (py_repr : pyval -> string)
    (cid : string) :
  (forall msgs,
     Parser.reconstruct_conversation kv_value to_text json_loads py_repr cid = Ok msgs ->
     Forall (MessageFacts.message_ok cid) msgs)
  /\ (forall headers msgs,
        Parser.messages_of_headers kv_value to_text json_loads py_repr cid headers
        = Ok msgs ->
        List.length msgs <= List.length headers).
Proof.
  split.
  - intros msgs. apply MessageFacts.reconstruct_inv.
  - intros headers msgs H.
    now destruct (MessageFacts.fold_inv kv_value to_text json_loads py_repr cid
                    headers [] msgs H (List.Forall_nil _)).
Qed.

Lemma X4_reconstructed_messages_well_formed_witness :
  Forall (MessageFacts.message_ok "cid")
    [Parser.Message "cid" (PStr "b1") PNone "user" (PStr "hello");
     Parser.Message "cid" (PStr "b4") PNone "assistant" (PStr "world")].
Proof.
  apply (proj1 (X4_reconstructed_messages_well_formed StoreExamples.kv_value
                  StoreExamples.to_text StoreExamples.json_loads
                  StoreExamples.py_repr "cid")).
  reflexivity.
Defined.

(** X5. Not every failure is absorbed by the loop of
    [reconstruct_conversation]: once the headers before it went through, a
    header that is not a dict raises AttributeError, and so does a header
    whose blob decodes to a truthy JSON value other than an object. *)
Theorem X5_reconstruction_raises_on_non_dict
    (kv_value : string -> option string) (to_text : string -> string)
    (json_loads : string -> option pyval) (py_repr : pyval -> string)
    (cid : string) (pre post : list pyval) (acc : list Parser.message)
    (Hpre : Parser.messages_of_headers kv_value to_text json_loads py_repr cid pre
            = Ok acc) :
  (forall h, MessageFacts.is_dict h = false ->
     Parser.messages_of_headers kv_value to_text json_loads py_repr cid
       (pre ++ h :: post) = Raise AttributeError)
  /\ (forall hd,
        truthy (dict_get hd "bubbleId") = true ->
        truthy (Parser.load_bubble kv_value to_text json_loads py_repr cid
                  (dict_get hd "bubbleId")) = true ->
        MessageFacts.is_dict
          (Parser.load_bubble kv_value to_text json_loads py_repr cid
             (dict_get hd "bubbleId")) = false ->
        Parser.messages_of_headers kv_value to_text json_loads py_repr cid
          (pre ++ PDict hd :: post) = Raise AttributeError).
Proof.
  unfold Parser.messages_of_headers in *. split.
  - intros h Hd. rewrite exc_fold_app, Hpre. simpl exc_bind. rewrite ?exc_fold_cons.
    now rewrite (MessageFacts.step_not_dict kv_value to_text json_loads py_repr
                   cid acc h Hd).
  - intros hd Hb Ht Hd. rewrite exc_fold_app, Hpre. simpl exc_bind.
    rewrite ?exc_fold_cons.
    now rewrite (MessageFacts.step_blob_not_dict kv_value to_text json_loads py_repr
                   cid acc hd Hb Ht Hd).
Qed.

Lemma X5_reconstruction_raises_on_non_dict_witness :
  Parser.messages_of_headers StoreExamples.kv_value StoreExamples.to_text
    (fun t => if String.eqb t "B4" then Some (PInt 5) else StoreExamples.json_loads t)
    StoreExamples.py_repr "cid"
    [StoreExamples.header "b1" 1; StoreExamples.header "b4" 2;
     StoreExamples.header "b1" 1]
  = Raise AttributeError.
Proof.
  apply (proj2 (X5_reconstruction_raises_on_non_dict StoreExamples.kv_value
                  StoreExamples.to_text
                  (fun t => if String.eqb t "B4" then Some (PInt 5)
                            else StoreExamples.json_loads t)
                  StoreExamples.py_repr "cid"
                  [StoreExamples.header "b1" 1] [StoreExamples.header "b1" 1]
                  [Parser.Message "cid" (PStr "b1") PNone "user" (PStr "hello")]
                  eq_refl)
           [("bubbleId", PStr "b4"); ("type", PInt 2)]); reflexivity.
Defined.

(** ** Conversation ids read from the keys *)

Module IdFacts.
Import ParserIds.

Definition COLON : string := ":".

Lemma split_colon_join (k h t : string) :
  split_colon k = (h, Some t) -> k = h +:+ COLON +:+ t.
Proof.
  revert h. induction k as [|c k IH]; intros h; simpl; [discriminate|].
  destruct (Ascii.eqb c ":") eqn:Ec.
  - apply Ascii.eqb_eq in Ec. subst c. intros [= <- <-]. reflexivity.
  - destruct (split_colon k) as [h' t'] eqn:Ek. intros [= <- ->].
    rewrite PyStrFacts.app_cons. f_equal. now apply IH.
Qed.

Lemma split_colon_prefixed (cid : string) :
  split_colon ("composerData:" +:+ cid) = ("composerData", Some cid).
Proof. reflexivity. Qed.

Lemma after_colon_split (k : string) :
  Index.after_colon k = snd (split_colon k).
Proof.
  induction k as [|c k IH]; simpl; [reflexivity|].
  destruct (Ascii.eqb c ":"); [reflexivity|].
  rewrite IH. now destruct (split_colon k).
Qed.

Definition is_composer_key (k : string) : bool :=
  String.prefix "composerData:" k.

Lemma composer_key_split (k : string) :
  is_composer_key k = true ->
  exists cid, k = "composerData:" +:+ cid
              /\ split_colon k = ("composerData", Some cid).
Proof.
  unfold is_composer_key. rewrite ScoreFacts.prefix_spec.
  intros (cid & ->). exists cid. split; [reflexivity | apply split_colon_prefixed].
Qed.

Lemma other_key_split (k h t : string) :
  is_composer_key k = false -> split_colon k = (h, Some t) ->
  String.eqb h "composerData" = false.
Proof.
  intros Hk Hs. destruct (String.eqb h "composerData") eqn:Eh; [|reflexivity].
  apply String.eqb_eq in Eh. subst h. apply split_colon_join in Hs.
  assert (Hp : is_composer_key k = true).
  { unfold is_composer_key. apply ScoreFacts.prefix_spec. exists t. rewrite Hs.
    reflexivity. }
  congruence.
Qed.

Lemma one_key (k : string) :
  list_composer_ids [k]
  = if is_composer_key k then Index._composer_ids [k] else [].
Proof.
  unfold list_composer_ids, Index._composer_ids. cbn [flat_map].
  rewrite after_colon_split.
  destruct (is_composer_key k) eqn:Ek.
  - destruct (composer_key_split k Ek) as (cid & _ & Hs). rewrite Hs.
    now destruct cid.
  - destruct (split_colon k) as [h [t|]] eqn:Es; [|reflexivity].
    now rewrite (other_key_split k h t Ek Es).
Qed.

End IdFacts.

(** X6. [parser.list_composer_ids] returns exactly the non-empty ids [cid]
    for which the key ["composerData:" + cid] is among the keys read, and
    its result is what [index._composer_ids] yields once the keys that do
    not start with ["composerData:"] are left out (the index builder takes
    the part after the first colon of any key). *)
Theorem X6_list_composer_ids_characterised (keys : list string) :
  (forall cid,
     In cid (ParserIds.list_composer_ids keys)
     <-> cid <> EmptyString /\ In ("composerData:" +:+ cid) keys)
  /\ ParserIds.list_composer_ids keys
     = Index._composer_ids (List.filter IdFacts.is_composer_key keys).
Proof.
  split.
  - intros cid. unfold ParserIds.list_composer_ids. rewrite in_flat_map. split.
    + intros (k & Hk & Hin).
      destruct (ParserIds.split_colon k) as [h [t|]] eqn:Es; [|destruct Hin].
      destruct (String.eqb h "composerData") eqn:Eh; simpl in Hin; [|destruct Hin].
      destruct t as [|c t]; simpl in Hin; [destruct Hin|].
      destruct Hin as [<-|[]]. split; [discriminate|].
      apply String.eqb_eq in Eh. subst h.
      apply IdFacts.split_colon_join in Es. now subst k.
    + intros (Hne & Hin). exists ("composerData:" +:+ cid). split; [exact Hin|].
      rewrite IdFacts.split_colon_prefixed. simpl.
      destruct cid; [congruence | now left].
  - induction keys as [|k keys IH]; [reflexivity|].
    assert (Hk : ParserIds.list_composer_ids (k :: keys)
                 = ParserIds.list_composer_ids [k] ++ ParserIds.list_composer_ids keys).
    { unfold ParserIds.list_composer_ids. cbn [flat_map]. now rewrite app_nil_r. }
    rewrite Hk, IH, (IdFacts.one_key k). simpl List.filter.
    destruct (IdFacts.is_composer_key k); [|reflexivity].
    unfold Index._composer_ids. cbn [flat_map]. now rewrite app_nil_r.
Qed.

(** ** Bounds of the sparse score *)

Module ScoreBounds.
Import PyStr ScoreFacts.




Lemma filter_length_le {A : Type} (p : A -> bool) (l : list A) :
  List.length (List.filter p l) <= List.length l.
Proof.
  induction l as [|x l IH]; simpl; [lia|]. destruct (p x); simpl; lia.
Qed.





End ScoreBounds.


(** ** The head line of a text *)

Module HeadFacts.
Import PyStr InkFacts.

Definition unbroken (s : string) : Prop :=
  Forall (fun c => is_linebreak c = false) (list_ascii_of_string s).

Lemma take_length (n : nat) (s : string) : String.length (take n s) <= n.
Proof.
  revert s. induction n as [|n IH]; intros s; [simpl; lia|].
  destruct s as [|c s]; simpl; [lia|]. specialize (IH s). lia.
Qed.

Lemma take_prefix (n : nat) (s : string) : exists b, s = take n s +:+ b.
Proof.
  revert s. induction n as [|n IH]; intros s; [now exists s|].
  destruct s as [|c s]; [now exists EmptyString|].
  destruct (IH s) as (b & Hb). exists b. simpl take.
  rewrite PyStrFacts.app_cons. now f_equal.
Qed.

Lemma take_unbroken (n : nat) (s : string) : unbroken s -> unbroken (take n s).
Proof.
  unfold unbroken. revert s. induction n as [|n IH]; intros s H; [constructor|].
  destruct s as [|c s]; [constructor|]. simpl in *.
  inversion H; subst. constructor; [assumption | now apply IH].
Qed.

Lemma take_empty (n : nat) (s : string) :
  take n s = EmptyString <-> n = 0 \/ s = EmptyString.
Proof.
  destruct n, s; simpl; split; auto; try discriminate.
  intros [H|H]; discriminate.
Qed.

Lemma splitlines_cons (c : ascii) (s' : string) :
  splitlines (String c s')
  = if is_linebreak c then
      match s' with
      | String c' s'' =>
          if (nat_of_ascii c =? 13) && (nat_of_ascii c' =? 10)
          then EmptyString :: splitlines s''
          else EmptyString :: splitlines s'
      | EmptyString => [EmptyString]
      end
    else match splitlines s' with
         | t :: ts => String c t :: ts
         | [] => [String c EmptyString]
         end.
Proof. reflexivity. Qed.

(** The first line has no line boundary in it and opens the text. *)
Lemma first_line_spec (s line : string) (rest : list string) :
  splitlines s = line :: rest -> unbroken line /\ exists b, s = line +:+ b.
Proof.
  revert line rest. induction s as [|c s IH]; intros line rest; [discriminate|].
  rewrite splitlines_cons. destruct (is_linebreak c) eqn:Ec.
  - intros H. assert (line = EmptyString) as ->.
    { destruct s as [|c' s'']; [now injection H|].
      destruct ((nat_of_ascii c =? 13) && (nat_of_ascii c' =? 10)); now injection H. }
    split; [constructor | now eexists].
  - destruct (splitlines s) as [|t ts] eqn:Es.
    + intros [= <- <-]. split; [repeat constructor; exact Ec|].
      exists s. now rewrite PyStrFacts.app_cons.
    + intros [= <- <-]. destruct (IH t ts eq_refl) as (Hu & b & Hb). split.
      * constructor; [exact Ec | exact Hu].
      * exists b. rewrite PyStrFacts.app_cons. now f_equal.
Qed.

Lemma linebreak_is_space (c : ascii) : is_linebreak c = true -> is_space c = true.
Proof. destruct c as [[] [] [] [] [] [] [] []]; vm_compute; intros H; congruence. Qed.

(** The first line of a text that opens with ink is not empty. *)
Lemma first_line_inked (c : ascii) (s : string) :
  is_space c = false ->
  exists t ts, splitlines (String c s) = String c t :: ts.
Proof.
  intros Hc. rewrite splitlines_cons.
  destruct (is_linebreak c) eqn:Ec.
  - apply linebreak_is_space in Ec. congruence.
  - destruct (splitlines s) as [|t ts]; eauto.
Qed.

Lemma lstrip_head (s r : string) (c : ascii) :
  lstrip s = String c r -> is_space c = false.
Proof.
  induction s as [|d s IH]; simpl; [discriminate|].
  destruct (is_space d) eqn:Ed; [exact IH|]. intros [= <- _]. exact Ed.
Qed.

Lemma rstrip_head (c : ascii) (s : string) :
  is_space c = false -> exists r, rstrip (String c s) = String c r.
Proof.
  intros Hc. simpl. destruct (rstrip s); rewrite ?Hc; eauto.
Qed.

Lemma strip_head (s : string) :
  has_ink s = true -> exists c r, strip s = String c r /\ is_space c = false.
Proof.
  intros Hi. unfold strip. rewrite <- has_ink_lstrip in Hi.
  destruct (lstrip s) as [|c r] eqn:El; [discriminate|].
  pose proof (lstrip_head s r c El) as Hc.
  destruct (rstrip_head c r Hc) as (r' & Hr). eauto.
Qed.

Lemma strip_blank (s : string) : has_ink s = false -> strip s = EmptyString.
Proof.
  intros Hi. pose proof (strip_empty s) as H. rewrite Hi in H.
  now destruct (strip s).
Qed.

End HeadFacts.

(** X8. [_head(text, n)] has at most [n] characters, holds no line
    boundary, and is the beginning of the stripped text; it is empty
    exactly when [n] is 0 or the text is empty or white space only. *)
Theorem X8_head_is_short_unbroken_prefix (text : string) (n : nat) :
  String.length (Rag._head text n) <= n
  /\ HeadFacts.unbroken (Rag._head text n)
  /\ (exists rest, PyStr.strip text = Rag._head text n +:+ rest)
  /\ (Rag._head text n = EmptyString
      <-> n = 0 \/ InkFacts.has_ink text = false).
Proof.
  unfold Rag._head.
  destruct (PyStr.splitlines (PyStr.strip text)) as [|line rest] eqn:Es.
  - split; [simpl; lia|]. split; [constructor|]. split; [now eexists|].
    split; [|reflexivity]. intros _. right.
    destruct (InkFacts.has_ink text) eqn:Hi; [|reflexivity].
    destruct (HeadFacts.strip_head text Hi) as (c & r & Hs & Hc).
    rewrite Hs in Es.
    destruct (HeadFacts.first_line_inked c r Hc) as (t & ts & Ht). congruence.
  - destruct (HeadFacts.first_line_spec _ _ _ Es) as (Hu & b & Hb).
    split; [apply HeadFacts.take_length|].
    split; [now apply HeadFacts.take_unbroken|].
    split.
    + destruct (HeadFacts.take_prefix n line) as (b' & Hb').
      exists (b' +:+ b). rewrite <- PyStrFacts.append_assoc, <- Hb'. exact Hb.
    + rewrite HeadFacts.take_empty.
      destruct (InkFacts.has_ink text) eqn:Hi.
      * destruct (HeadFacts.strip_head text Hi) as (c & r & Hs & Hc).
        rewrite Hs in Es.
        destruct (HeadFacts.first_line_inked c r Hc) as (t & ts & Ht).
        rewrite Ht in Es. injection Es as <- _.
        split; intros [H|H]; auto; discriminate.
      * rewrite (HeadFacts.strip_blank text Hi) in Es. discriminate.
Qed.

(** ** Descending stable sort *)

Module SortFacts.
Import PySort.

Section Sort.
Context {A : Type}.
Variable ltb : A -> A -> bool.
(** [ge x y]: the key of [x] is not below the key of [y]. *)
Variable ge : A -> A -> Prop.
Hypothesis ge_of_false : forall x y, ltb x y = false -> ge x y.
Hypothesis ge_of_true : forall x y, ltb x y = true -> ge y x.
Hypothesis ge_trans : forall x y z, ge x y -> ge y z -> ge x z.

Lemma insert_perm (x : A) (l : list A) :
  Permutation (insert_desc ltb x l) (x :: l).
Proof using Type.
  induction l as [|y l IH]; simpl; [reflexivity|].
  destruct (ltb x y); [|reflexivity].
  rewrite IH. apply perm_swap.
Qed.

Lemma sort_perm (l : list A) : Permutation (sort_desc ltb l) l.
Proof using Type.
  induction l as [|x l IH]; simpl; [reflexivity|].
  rewrite insert_perm. now constructor.
Qed.

Lemma sort_length (l : list A) : List.length (sort_desc ltb l) = List.length l.
Proof using Type. apply Permutation_length, sort_perm. Qed.

Lemma insert_sorted (x : A) (l : list A) :
  StronglySorted ge l -> StronglySorted ge (insert_desc ltb x l).
Proof using ge_of_false ge_of_true ge_trans.
  induction 1 as [|y l Hs IH Hy]; simpl.
  - constructor; constructor.
  - destruct (ltb x y) eqn:E.
    + constructor; [exact IH|].
      apply List.Forall_forall. intros z Hz.
      apply (Permutation_in z (insert_perm x l)) in Hz.
      destruct Hz as [<-|Hz]; [now apply ge_of_true|].
      rewrite List.Forall_forall in Hy. now apply Hy.
    + constructor; [now constructor|].
      constructor; [now apply ge_of_false|].
      eapply List.Forall_impl; [|exact Hy].
      intros z Hz. eapply ge_trans; [apply ge_of_false; exact E | exact Hz].
Qed.

Lemma sort_sorted (l : list A) : StronglySorted ge (sort_desc ltb l).
Proof using ge_of_false ge_of_true ge_trans.
  induction l as [|x l IH]; simpl; [constructor | now apply insert_sorted].
Qed.

End Sort.

Lemma filter_perm {A : Type} (p : A -> bool) (l l' : list A) :
  Permutation l l' -> Permutation (List.filter p l) (List.filter p l').
Proof.
  induction 1 as [|x l l' _ IH|x y l|l l' l'' _ IH1 _ IH2]; simpl.
  - reflexivity.
  - destruct (p x); [now constructor | exact IH].
  - destruct (p x), (p y); try reflexivity. apply perm_swap.
  - now transitivity (List.filter p l').
Qed.

Lemma filter_sorted {A : Type} (R : A -> A -> Prop) (p : A -> bool) (l : list A) :
  StronglySorted R l -> StronglySorted R (List.filter p l).
Proof.
  induction 1 as [|x l Hs IH Hx]; simpl; [constructor|].
  destruct (p x); [|exact IH]. constructor; [exact IH|].
  apply List.Forall_forall. intros y Hy. apply List.filter_In in Hy.
  rewrite List.Forall_forall in Hx. now apply Hx.
Qed.

Lemma firstn_in {A : Type} (x : A) (n : nat) (l : list A) :
  In x (firstn n l) -> In x l.
Proof.
  revert l. induction n as [|n IH]; intros l; [intros []|].
  destruct l as [|y l]; simpl; [intros []|].
  intros [H|H]; [now left | right; now apply IH].
Qed.

Lemma firstn_sorted {A : Type} (R : A -> A -> Prop) (n : nat) (l : list A) :
  StronglySorted R l -> StronglySorted R (firstn n l).
Proof.
  intros H. revert n. induction H as [|x l Hs IH Hx]; intros n.
  - rewrite firstn_nil. constructor.
  - destruct n; simpl; [constructor|]. constructor; [apply IH|].
    apply List.Forall_forall. intros y Hy. apply firstn_in in Hy.
    rewrite List.Forall_forall in Hx. now apply Hx.
Qed.

(** Cutting a sorted list short and dropping what fails a test that only
    a beginning of the list can pass, in either order. *)
Lemma filter_firstn {A : Type} (R : A -> A -> Prop) (p : A -> bool) :
  (forall x y, R x y -> p x = false -> p y = false) ->
  forall (l : list A) (n : nat),
    StronglySorted R l ->
    List.filter p (firstn n l) = firstn n (List.filter p l).
Proof.
  intros Hp l n H. revert n. induction H as [|x l Hs IH Hx]; intros n.
  - simpl. now rewrite !firstn_nil.
  - destruct n; [reflexivity|]. simpl.
    destruct (p x) eqn:Ex; [simpl; now rewrite IH|].
    assert (Hnone : forall m, List.filter p (firstn m l) = []).
    { intros m.
      assert (Hall : Forall (fun y => p y = false) l).
      { eapply List.Forall_impl; [|exact Hx]. intros y Hy. now apply (Hp x y). }
      clear -Hall. revert m. induction Hall as [|y l Hy _ IH]; intros m.
      - now rewrite firstn_nil.
      - destruct m; simpl; [reflexivity|]. now rewrite Hy, IH. }
    rewrite (Hnone n). rewrite <- (firstn_all l), (Hnone (List.length l)).
    now rewrite firstn_nil.
Qed.

End SortFacts.

(** ** Searching the items *)

Module SearchFacts.
Import Search.

Definition positive (si : Z * Rag.item) : bool := (0 <? fst si)%Z.

(** [x] does not score below [y]. *)
Definition score_ge (x y : Z * Rag.item) : Prop := (fst y <= fst x)%Z.

Lemma tag_boost_grows (query : string) (tags : list pyval) :
  forall s s', exc_fold (tag_boost query) tags s = Ok s' -> (s <= s')%Z.
Proof.
  induction tags as [|t tags IH]; intros s s' H; simpl in H.
  - injection H as <-. lia.
  - destruct (tag_boost query s t) as [s1|] eqn:E; simpl in H; [|discriminate].
    apply IH in H. unfold tag_boost in E.
    destruct (truthy t); [|injection E as <-; lia].
    destruct t; try discriminate. injection E as <-.
    destruct (PyStr.contains _ _); lia.
Qed.

Lemma scored_item_spec (query : string) (it : Rag.item) (si : Z * Rag.item) :
  scored_item query it = Ok si -> snd si = it /\ (0 <= fst si)%Z.
Proof.
  unfold scored_item.
  destruct (item_text it) as [text|]; simpl; [|discriminate].
  destruct (py_get _ "tags") as [tags0|]; simpl; [|discriminate].
  destruct (Parser.py_iter _) as [tags|]; simpl; [|discriminate].
  destruct (exc_fold (tag_boost query) tags _) as [s'|] eqn:E; simpl; [|discriminate].
  intros [= <-]. split; [reflexivity|]. simpl.
  apply tag_boost_grows in E. rewrite ScoreFacts.score_count in E. lia.
Qed.

Lemma scored_items_spec (query : string) (items : list Rag.item) :
  forall scored,
    exc_map (scored_item query) items = Ok scored ->
    map snd scored = items /\ Forall (fun si => (0 <= fst si)%Z) scored.
Proof.
  induction items as [|it items IH]; intros scored H; simpl in H.
  - injection H as <-. split; [reflexivity | constructor].
  - destruct (scored_item query it) as [si|] eqn:E; simpl in H; [|discriminate].
    destruct (exc_map (scored_item query) items) as [rest|]; simpl in H; [|discriminate].
    injection H as <-. destruct (IH rest eq_refl) as (Hm & Hf).
    destruct (scored_item_spec query it si E) as (Hi & Hs).
    split; [simpl; now rewrite Hi, Hm | now constructor].
Qed.

Lemma sorted_by_score (scored : list (Z * Rag.item)) :
  StronglySorted score_ge (PySort.sort_desc score_ltb scored).
Proof.
  apply SortFacts.sort_sorted; unfold score_ltb, score_ge.
  - intros x y H. apply Z.ltb_ge in H. exact H.
  - intros x y H. apply Z.ltb_lt in H. lia.
  - intros x y z. lia.
Qed.

Lemma py_take_nonneg {A : Type} (k : Z) (l : list A) :
  (0 <= k)%Z -> Index.py_take k l = firstn (Z.to_nat k) l.
Proof.
  intros Hk. unfold Index.py_take. apply Z.leb_le in Hk. now rewrite Hk.
Qed.

End SearchFacts.

Module SearchExamples.

Definition it1 : Rag.item :=
  Rag.Item "c" 0 (PStr "say hello") "to everyone" "" "" PNone None.
Definition it2 : Rag.item :=
  Rag.Item "c" 1 (PStr "other") "text" "" "" PNone None.
Definition it3 : Rag.item :=
  Rag.Item "c" 2 (PStr "hello") "again"
    "" "" (PDict [("tags", PList [PStr "Hello"])]) None.

End SearchExamples.

(** X9. When every item can be scored, [search_items] with [k >= 0]
    returns the first [k] of the items whose score is positive, taken in
    descending order of score; a positive score is never cut off in favour
    of a zero one, no score is negative, and every result is one of the
    items given. *)
Theorem X9_search_items_best_k
    (items : list Rag.item) (query : string) (k : Z)
    (scored : list (Z * Rag.item))
    (Hk : (0 <= k)%Z)
    (Hs : exc_map (Search.scored_item query) items = Ok scored) :
  exists ranked : list (Z * Rag.item),
    Search.search_items items query k
    = Ok (map snd (firstn (Z.to_nat k) ranked))
    /\ Permutation ranked (List.filter SearchFacts.positive scored)
    /\ StronglySorted SearchFacts.score_ge ranked
    /\ map snd scored = items
    /\ Forall (fun si => (0 <= fst si)%Z) scored.
Proof.
  exists (List.filter SearchFacts.positive
            (PySort.sort_desc Search.score_ltb scored)).
  pose proof (SearchFacts.sorted_by_score scored) as Hsorted.
  destruct (SearchFacts.scored_items_spec query items scored Hs) as (Hm & Hf).
  split; [|split; [|split; [|split]]]; try assumption.
  - unfold Search.search_items. rewrite Hs. simpl exc_bind.
    rewrite (SearchFacts.py_take_nonneg k _ Hk). do 2 f_equal.
    apply (SortFacts.filter_firstn SearchFacts.score_ge); [|exact Hsorted].
    unfold SearchFacts.score_ge, SearchFacts.positive. intros x y Hxy Hx.
    apply Z.ltb_ge in Hx. apply Z.ltb_ge. lia.
  - apply SortFacts.filter_perm, SortFacts.sort_perm.
  - now apply SortFacts.filter_sorted.
Qed.

Lemma X9_search_items_best_k_witness :
  exists ranked : list (Z * Rag.item),
    Search.search_items
      [SearchExamples.it1; SearchExamples.it2; SearchExamples.it3] "hello" 1
    = Ok (map snd (firstn 1 ranked))
    /\ Permutation ranked
         [(1%Z, SearchExamples.it1); (3%Z, SearchExamples.it3)]
    /\ StronglySorted SearchFacts.score_ge ranked
    /\ map snd [(1%Z, SearchExamples.it1); (0%Z, SearchExamples.it2);
                (3%Z, SearchExamples.it3)]
       = [SearchExamples.it1; SearchExamples.it2; SearchExamples.it3]
    /\ Forall (fun si => (0 <= fst si)%Z)
         [(1%Z, SearchExamples.it1); (0%Z, SearchExamples.it2);
          (3%Z, SearchExamples.it3)].
Proof.
  apply (X9_search_items_best_k
           [SearchExamples.it1; SearchExamples.it2; SearchExamples.it3] "hello" 1
           [(1%Z, SearchExamples.it1); (0%Z, SearchExamples.it2);
            (3%Z, SearchExamples.it3)]).
  - lia.
  - reflexivity.
Defined.

(** ** The scales of a conversation *)

Module ScaleFacts.
Import Annotate PyStr.

(** A user text is a [str] or falsy, so that [(user or "")] has the [str]
    methods. *)
Definition user_str_ok (p : Parser.pair) : Prop :=
  truthy (Parser.user p) = true -> PairFacts.is_str (Parser.user p) = true.

(** A pair with no user text or no assistant text. *)
Definition hollow (p : Parser.pair) : bool :=
  negb (truthy (Parser.user p)) || is_empty (Parser.assistant p).

Lemma splitlines_nil (s : string) : splitlines s = [] -> s = EmptyString.
Proof.
  destruct s as [|c s]; [reflexivity|]. rewrite HeadFacts.splitlines_cons.
  destruct (is_linebreak c).
  - destruct s as [|c' s'']; [discriminate|].
    destruct ((nat_of_ascii c =? 13) && (nat_of_ascii c' =? 10)); discriminate.
  - destruct (splitlines s); discriminate.
Qed.

Lemma first_line_outcome (n : nat) (s : string) :
  first_line n s
  = if is_empty s then Raise IndexError
    else Ok (take n (List.hd EmptyString (splitlines s))).
Proof.
  unfold first_line. destruct (splitlines s) as [|line rest] eqn:E.
  - now rewrite (splitlines_nil s E).
  - destruct s; [discriminate | reflexivity].
Qed.

Lemma str_or_empty_ok (x : pyval) :
  (truthy x = true -> PairFacts.is_str x = true) ->
  exists u, Rag.str_or_empty x = Ok u /\ is_empty u = negb (truthy x).
Proof.
  unfold Rag.str_or_empty. intros H. destruct (truthy x) eqn:Et.
  - specialize (H eq_refl). destruct x; try discriminate.
    exists s. split; [reflexivity|]. simpl in Et. now destruct (is_empty s).
  - now exists EmptyString.
Qed.

Lemma micro_outcome (p : Parser.pair) :
  user_str_ok p ->
  if hollow p then micro_of p = Raise IndexError
  else exists e, micro_of p = Ok e.
Proof.
  intros Hu. destruct (str_or_empty_ok _ Hu) as (u & Eu & Hempty).
  unfold micro_of, hollow. rewrite Eu. simpl exc_bind.
  rewrite !first_line_outcome, Hempty.
  destruct (truthy (Parser.user p)); simpl; [|reflexivity].
  destruct (is_empty (Parser.assistant p)); simpl; eauto.
Qed.

Lemma micros_outcome (ps : list Parser.pair) :
  Forall user_str_ok ps ->
  if existsb hollow ps then exc_map micro_of ps = Raise IndexError
  else exists es, exc_map micro_of ps = Ok es /\ List.length es = List.length ps.
Proof.
  induction 1 as [|p ps Hp _ IH]; [now exists []|].
  simpl. pose proof (micro_outcome p Hp) as Hm.
  destruct (hollow p); simpl.
  - now rewrite Hm.
  - destruct Hm as (e & ->). simpl. destruct (existsb hollow ps).
    + now rewrite IH.
    + destruct IH as (es & -> & Hl). simpl. eexists. split; [reflexivity|].
      simpl. now rewrite Hl.
Qed.

Lemma macro_outcome (ps : list Parser.pair) :
  Forall user_str_ok ps ->
  exists m, macro_of ps = Ok m /\ String.length m <= 200.
Proof.
  induction 1 as [|p ps Hp _ IH].
  - exists EmptyString. split; [reflexivity | simpl; lia].
  - cbn [macro_of]. destruct (str_or_empty_ok _ Hp) as (u & -> & _).
    cbn [exc_bind]. destruct (is_empty (strip u)); [exact IH|].
    eexists. split; [reflexivity | apply HeadFacts.take_length].
Qed.

Lemma milestones_short (ps : list Parser.pair) :
  Forall (fun s => String.length s <= 200)
    (flat_map (fun p => milestone_of (Parser.assistant p)) ps).
Proof.
  apply List.Forall_forall. intros s Hs. apply in_flat_map in Hs.
  destruct Hs as (p & _ & Hs). unfold milestone_of in Hs.
  destruct (List.find _ _); [|destruct Hs].
  destruct Hs as [<-|[]]. apply HeadFacts.take_length.
Qed.

Lemma scales_hollow (ps : list Parser.pair) :
  Forall user_str_ok ps -> existsb hollow (firstn 10 ps) = true ->
  annotate_conversation_scales ps = Raise IndexError.
Proof.
  intros Hstr Hh.
  assert (H10 : Forall user_str_ok (firstn 10 ps)).
  { apply List.Forall_forall. intros p Hp. apply SortFacts.firstn_in in Hp.
    rewrite List.Forall_forall in Hstr. now apply Hstr. }
  pose proof (micros_outcome _ H10) as Hm. rewrite Hh in Hm.
  unfold annotate_conversation_scales. now rewrite Hm.
Qed.

End ScaleFacts.

(** X10. [annotate_conversation_scales] on pairs whose user texts are
    [str] or falsy.  When one of the first ten pairs has no user text or
    no assistant text, it raises IndexError (the first line of an empty
    text is taken).  Otherwise it returns: one micro entry for each of the
    first ten pairs, at most ten milestones of at most 200 characters, and
    a topic hint of at most 200 characters. *)
Theorem X10_scales_outcome (ps : list Parser.pair)
    (Hstr : Forall ScaleFacts.user_str_ok ps) :
  (existsb ScaleFacts.hollow (firstn 10 ps) = true ->
   Annotate.annotate_conversation_scales ps = Raise IndexError)
  /\ (existsb ScaleFacts.hollow (firstn 10 ps) = false ->
      exists sc,
        Annotate.annotate_conversation_scales ps = Ok sc
        /\ List.length (Annotate.micro sc) = Nat.min 10 (List.length ps)
        /\ List.length (Annotate.meso sc) <= 10
        /\ Forall (fun s => String.length s <= 200) (Annotate.meso sc)
        /\ String.length (Annotate.macro sc) <= 200).
Proof.
  assert (H10 : Forall ScaleFacts.user_str_ok (firstn 10 ps)).
  { apply List.Forall_forall. intros p Hp. apply SortFacts.firstn_in in Hp.
    rewrite List.Forall_forall in Hstr. now apply Hstr. }
  pose proof (ScaleFacts.micros_outcome _ H10) as Hm.
  unfold Annotate.annotate_conversation_scales.
  split; intros Hh; rewrite Hh in Hm.
  - now rewrite Hm.
  - destruct Hm as (es & -> & Hl). simpl exc_bind.
    destruct (ScaleFacts.macro_outcome ps Hstr) as (m & -> & Hlen).
    simpl exc_bind. eexists. split; [reflexivity|]. simpl.
    split; [now rewrite Hl, length_firstn|].
    split; [rewrite length_firstn; lia|].
    split; [|exact Hlen].
    apply List.Forall_forall. intros s Hs. apply SortFacts.firstn_in in Hs.
    pose proof (ScaleFacts.milestones_short ps) as Hall.
    rewrite List.Forall_forall in Hall. now apply Hall.
Qed.

Lemma X10_scales_outcome_witness :
  Annotate.annotate_conversation_scales
    [Parser.Pair "c" 0 (PStr "how?") "Let me look.";
     Parser.Pair "c" 1 (PStr "and then?") ""]
  = Raise IndexError.
Proof.
  refine (proj1 (X10_scales_outcome
                   [Parser.Pair "c" 0 (PStr "how?") "Let me look.";
                    Parser.Pair "c" 1 (PStr "and then?") ""] _) _).
  - repeat (constructor; [intros _; reflexivity|]). constructor.
  - reflexivity.
Defined.

(** ** From the messages to the scales *)

Module UnansweredFacts.
Import Parser CoalesceFacts PairFacts.

(** A message of another role ends the run before it and is kept. *)
Lemma coalesce_snoc_other (pre : list message) (u : message) :
  is_asst u = false ->
  coalesce_assistant_runs (pre ++ [u])
  = exc_fmap (fun co => co ++ [u]) (coalesce_assistant_runs pre).
Proof.
  intros Hu. unfold coalesce_assistant_runs. rewrite exc_fold_app.
  destruct (exc_fold coalesce_step pre ([], None)) as [[acc pend]|]; [|reflexivity].
  cbn [exc_bind exc_fold]. unfold coalesce_step.
  unfold is_asst in Hu. rewrite Hu.
  destruct pend as [p|]; simpl; unfold coalesce_flush; simpl;
    rewrite <- ?app_assoc; reflexivity.
Qed.

(** After a user message the open pair has no assistant text. *)
Lemma qa_after_user (msgs co : list message) (u : message) (st : qa_state) :
  is_user u = true ->
  exc_fold qa_step (co ++ [u]) qa_init = Ok st ->
  exists ps p,
    qa_flush msgs st = ps ++ [p]
    /\ user p = text u /\ assistant p = EmptyString.
Proof.
  intros Hu. rewrite exc_fold_app.
  destruct (exc_fold qa_step co qa_init) as [st0|]; cbn [exc_bind exc_fold];
    [|discriminate].
  unfold qa_step. unfold is_user in Hu. rewrite Hu.
  cbn [exc_bind]. intros [= <-]. unfold qa_flush.
  cbn [current_user current_assistant_text pairs next_turn_index].
  eexists. eexists. split; [reflexivity|]. split; reflexivity.
Qed.

Section Users.
(** What holds of the text of every user message, and of the empty text. *)
Variable P : pyval -> Prop.
Hypothesis P_empty : P (PStr EmptyString).

Definition users_ok (l : list message) : Prop :=
  Forall (fun m => is_user m = true -> P (text m)) l.

Definition state_users_ok (st : qa_state) : Prop :=
  Forall (fun p => P (user p)) (pairs st)
  /\ forall cu, current_user st = Some cu -> P (text cu).

Lemma qa_step_users (st st' : qa_state) (m : message) :
  (is_user m = true -> P (text m)) ->
  qa_step st m = Ok st' -> state_users_ok st -> state_users_ok st'.
Proof using P_empty.
  intros Hm H (Hps & Hcu). unfold qa_step in H. fold (is_user m) in H.
  destruct (is_user m) eqn:Eu.
  - injection H as <-. split.
    + destruct (current_user st) as [cu|] eqn:Ec,
               (current_assistant_text st) as [|t ts];
        cbn [pairs]; try exact Hps;
        (apply Forall_app; split; [exact Hps|]; constructor; [|constructor]);
        cbn [user]; auto.
    + cbn [current_user]. intros cu [= <-]. now apply Hm.
  - destruct (String.eqb (role m) "assistant"); [|injection H as <-; now split].
    destruct (_is_nonempty (text m)) as [[|]|]; simpl in H; try discriminate.
    + destruct (text m); try discriminate. injection H as <-. now split.
    + injection H as <-. now split.
Qed.

Lemma qa_fold_users (l : list message) :
  forall st st',
    users_ok l -> exc_fold qa_step l st = Ok st' ->
    state_users_ok st -> state_users_ok st'.
Proof using P_empty.
  induction l as [|m l IH]; intros st st' Hl H Hst; simpl in H.
  - now injection H as <-.
  - inversion Hl as [|? ? Hm Hl']; subst.
    destruct (qa_step st m) as [st1|] eqn:E; simpl in H; [|discriminate].
    eapply (IH st1 st' Hl' H). eapply qa_step_users; eauto.
Qed.

Lemma qa_flush_users (msgs : list message) (st : qa_state) :
  state_users_ok st -> Forall (fun p => P (user p)) (qa_flush msgs st).
Proof using P_empty.
  intros (Hps & Hcu). unfold qa_flush.
  destruct (current_user st) as [cu|] eqn:Ec,
           (current_assistant_text st) as [|t ts];
    try exact Hps;
    (apply Forall_app; split; [exact Hps|]; constructor; [|constructor]);
    cbn [user]; auto.
Qed.

Lemma users_ok_coalesced (msgs co : list message) :
  coalesce_assistant_runs msgs = Ok co -> users_ok msgs -> users_ok co.
Proof using Type.
  intros Hco Hm. apply others_output in Hco. unfold users_ok in *.
  rewrite List.Forall_forall in *. intros m Hin Hu.
  assert (Ho : In m (others co)).
  { unfold others. apply List.filter_In. split; [exact Hin|].
    destruct (is_asst m) eqn:Ea; [|reflexivity].
    apply asst_not_user in Ea. congruence. }
  rewrite Hco in Ho. unfold others in Ho. apply List.filter_In in Ho.
  apply Hm; [apply Ho | exact Hu].
Qed.

Lemma pairs_users_ok (msgs : list message) (ps : list pair) :
  users_ok msgs -> build_qa_pairs msgs = Ok ps ->
  Forall (fun p => P (user p)) ps.
Proof using P_empty.
  intros Hm H. unfold build_qa_pairs in H.
  destruct (coalesce_assistant_runs msgs) as [co|] eqn:Eco; simpl in H; [|discriminate].
  destruct (exc_fold qa_step co qa_init) as [st|] eqn:Eq; simpl in H; [|discriminate].
  injection H as <-. apply qa_flush_users.
  eapply qa_fold_users; [eapply users_ok_coalesced; eauto | exact Eq |].
  split; [constructor | discriminate].
Qed.

End Users.

End UnansweredFacts.

(** X11. The pairs of a conversation whose last message is a user message
    end with a pair that has no assistant text.  So when such a
    conversation has at most ten pairs and its user texts are [str] or
    falsy, [annotate_conversation_scales] applied to its pairs, as
    [cmd_scales] and [_view_level_1] apply it, raises IndexError. *)
Theorem X11_unanswered_conversation_breaks_scales
    (pre : list Parser.message) (u : Parser.message) (ps : list Parser.pair)
    (Hu : PairFacts.is_user u = true)
    (Hstr : Forall (fun m => PairFacts.is_user m = true ->
                             truthy (Parser.text m) = true ->
                             PairFacts.is_str (Parser.text m) = true)
              (pre ++ [u]))
    (Hps : Parser.build_qa_pairs (pre ++ [u]) = Ok ps)
    (Hlen : List.length ps <= 10) :
  (exists ps' p, ps = ps' ++ [p] /\ Parser.assistant p = EmptyString)
  /\ Annotate.annotate_conversation_scales ps = Raise IndexError.
Proof.
  assert (Hlast : exists ps' p, ps = ps' ++ [p] /\ Parser.assistant p = EmptyString).
  { unfold Parser.build_qa_pairs in Hps.
    rewrite UnansweredFacts.coalesce_snoc_other in Hps.
    2:{ destruct (CoalesceFacts.is_asst u) eqn:Ea; [|reflexivity].
        apply PairFacts.asst_not_user in Ea. congruence. }
    destruct (Parser.coalesce_assistant_runs pre) as [co|]; simpl in Hps;
      [|discriminate].
    destruct (exc_fold Parser.qa_step (co ++ [u]) Parser.qa_init) as [st|] eqn:Eq;
      simpl in Hps; [|discriminate].
    injection Hps as <-.
    destruct (UnansweredFacts.qa_after_user (pre ++ [u]) co u st Hu Eq)
      as (ps' & p & Hf & _ & Ha).
    now exists ps', p. }
  split; [exact Hlast|].
  destruct Hlast as (ps' & p & -> & Ha).
  apply ScaleFacts.scales_hollow.
  - apply (UnansweredFacts.pairs_users_ok
             (fun t => truthy t = true -> PairFacts.is_str t = true)
             (fun _ => eq_refl) (pre ++ [u]) _ Hstr Hps).
  - rewrite firstn_all2 by exact Hlen. rewrite existsb_app. simpl.
    unfold ScaleFacts.hollow at 2. rewrite Ha. simpl.
    now rewrite !orb_true_r.
Qed.

Lemma X11_unanswered_conversation_breaks_scales_witness :
  Annotate.annotate_conversation_scales
    [Parser.Pair "c" 0 (PStr "q") "a"; Parser.Pair "c" 1 (PStr "r") ""]
  = Raise IndexError.
Proof.
  refine (proj2 (X11_unanswered_conversation_breaks_scales
                   [ParserExamples.usr "q"; ParserExamples.asst "a"]
                   (ParserExamples.usr "r")
                   [Parser.Pair "c" 0 (PStr "q") "a"; Parser.Pair "c" 1 (PStr "r") ""]
                   eq_refl _ eq_refl _)).
  - repeat (constructor; [intros _ _; reflexivity|]). constructor.
  - simpl. lia.
Defined.

(** ** The user texts of the pairs and the items of a conversation *)

Module ItemFacts.
Import Parser CoalesceFacts PairFacts.









Section Items.
Variable annotate_pair_rich : string -> string -> pyval.

Local Abbreviation item_of := (Rag.item_of_pair annotate_pair_rich).

(** What [build_turn_items] makes of one pair. *)
Definition item_ok (p : pair) (it : Rag.item) : Prop :=
  Rag.it_composer_id it = pair_composer_id p
  /\ Rag.it_turn_index it = turn_index p
  /\ Rag.it_user it = user p
  /\ Rag.it_assistant it = assistant p
  /\ String.length (Rag.user_head it) <= 160
  /\ String.length (Rag.assistant_head it) <= 200.




End Items.




End ItemFacts.



(** ** The keys of the items of a run *)

Module KeyFacts.
Import Parser.

Section Owner.
(** The conversation the messages belong to. *)
Variable cid : string.










End Owner.

(** The keys [(cid, 0)], ..., [(cid, n-1)]. *)
Definition keys_of (cid : string) (n : nat) : list (string * Z) :=
  map (fun i => (cid, Z.of_nat i)) (seq 0 n).







End KeyFacts.

Module RowFacts.
Import Index.

Section Builders.
Variable kv_value : string -> option string.
Variable to_text : string -> string.
Variable json_loads : string -> option pyval.
Variable py_repr : pyval -> string.
Variable annotate_pair_rich : string -> string -> pyval.
Variable json_dumps : pyval -> string.
Variable max_turns_per : option Z.

Local Abbreviation items_of :=
  (Index.items_of kv_value to_text json_loads py_repr annotate_pair_rich max_turns_per).
Local Abbreviation items_all :=
  (IndexFacts.items_all kv_value to_text json_loads py_repr annotate_pair_rich
     max_turns_per).
Local Abbreviation upsert := (Index.upsert json_dumps).
Local Abbreviation item_key := IndexFacts.item_key.






End Builders.


End RowFacts.



(** ** What a call of [embed_texts] does to the cache *)

Module CacheFacts.
Import Llm.

Section Embed.
Variable sha256_hex : string -> string.
Variable embed_one : string -> string -> list Q.
Variables model scope id_prefix : string.

Local Abbreviation key := (Llm.key_at sha256_hex model scope id_prefix).
Local Abbreviation ins_cache :=
  (EmbedFacts.ins_cache sha256_hex embed_one model scope id_prefix).
Local Abbreviation misses :=
  (EmbedFacts.misses sha256_hex model scope id_prefix).
Local Abbreviation is_hit :=
  (EmbedFacts.is_hit sha256_hex model scope id_prefix).

(** The cache keys of the entries of a call. *)
Definition keys_of (entries : list (nat * string)) : list string :=
  map (fun e => key (fst e) (snd e)) entries.

(** Storing touches the keys of the stored entries only. *)
Lemma ins_cache_other (chunk : list (nat * string)) :
  forall (c : gmap string cached) (k : string),
    ~ In k (keys_of chunk) -> fold_left ins_cache chunk c !! k = c !! k.
Proof using Type.
  induction chunk as [|e chunk IH]; intros c k Hk; [reflexivity|].
  simpl. rewrite IH.
  - unfold EmbedFacts.ins_cache. apply lookup_insert_ne.
    intros E. apply Hk. now left.
  - intros Hin. apply Hk. now right.
Qed.

(** A key that holds a vector is the key of no miss. *)
Lemma vec_not_missed (c : gmap string cached) (texts : list string)
    (k : string) (v : list Q) :
  c !! k = Some (CachedVec v) -> ~ In k (keys_of (misses c 0 texts)).
Proof using Type.
  intros Hv Hin. unfold keys_of in Hin. apply in_map_iff in Hin.
  destruct Hin as (e & He & Hin). unfold EmbedFacts.misses in Hin.
  apply List.filter_In in Hin. destruct Hin as (_ & Hmiss).
  apply negb_true_iff in Hmiss.
  unfold EmbedFacts.is_hit, EmbedFacts.hit in Hmiss.
  rewrite He, Hv in Hmiss. discriminate.
Qed.

Lemma missed_keys (c : gmap string cached) (texts : list string) (k : string) :
  In k (keys_of (misses c 0 texts)) ->
  exists i t, texts !! i = Some t /\ key i t = k.
Proof using Type.
  unfold keys_of. rewrite in_map_iff. intros ((i, t) & Hk & Hin).
  unfold EmbedFacts.misses in Hin. apply List.filter_In in Hin.
  destruct Hin as (Hin & _). exists i, t. split; [|exact Hk].
  unfold EmbedFacts.enum in Hin.
  assert (H : forall j, In (i, t) (combine (seq j (List.length texts)) texts) ->
                        exists d, i = j + d /\ texts !! d = Some t).
  { clear. induction texts as [|x texts IH]; intros j Hj; [destruct Hj|].
    simpl in Hj. destruct Hj as [[= <- <-]|Hj].
    - exists 0. split; [lia | reflexivity].
    - destruct (IH (S j) Hj) as (d & -> & Hd). exists (S d). split; [lia | exact Hd]. }
  destruct (H 0 Hin) as (d & -> & Hd). exact Hd.
Qed.

End Embed.

(** The key depends on the model, the scope and the identifier through
    their concatenation only. *)
Lemma key_unseparated (sha256_hex : string -> string)
    (model scope ident model' scope' ident' text : string) :
  model +:+ scope +:+ ident = model' +:+ scope' +:+ ident' ->
  _embedding_cache_key sha256_hex model scope ident text
  = _embedding_cache_key sha256_hex model' scope' ident' text.
Proof.
  intros H. unfold _embedding_cache_key, _hash_key. f_equal.
  assert (Hcat : forall m s i : string,
            String.concat EmptyString ["embed"; m; s; i; sha256_hex text]
            = "embed" +:+ (m +:+ s +:+ i) +:+ sha256_hex text).
  { intros m s i. cbn [String.concat].
    change (String.concat EmptyString [sha256_hex text]) with (sha256_hex text).
    change (EmptyString +:+ sha256_hex text) with (sha256_hex text).
    change (EmptyString +:+ i +:+ sha256_hex text) with (i +:+ sha256_hex text).
    change (EmptyString +:+ s +:+ i +:+ sha256_hex text)
      with (s +:+ i +:+ sha256_hex text).
    change (EmptyString +:+ m +:+ s +:+ i +:+ sha256_hex text)
      with (m +:+ s +:+ i +:+ sha256_hex text).
    now rewrite !PyStrFacts.append_assoc. }
  now rewrite !Hcat, H.
Qed.

End CacheFacts.

(** X14. A call of [embed_texts] that returns leaves the cache as it was
    under every key that is not the key of one of its texts, never
    replaces an entry that holds a vector, and leaves a vector under the
    key of each of its texts. *)
Theorem X14_embed_texts_cache_only_grows
    (sha256_hex : string -> string)
    (embeddings_create : string -> list string -> list (list Q))
    (max_batch_size : Z) (embed_one : string -> string -> list Q)
    (model scope id_prefix : string) (fuel : nat)
    (c : gmap string Llm.cached) (texts : list string) (st : Llm.state)
    (batch_positive : (0 < max_batch_size)%Z)
    (service_contract :
       forall m inputs, embeddings_create m inputs = map (embed_one m) inputs)
    (enough_fuel : List.length texts <= fuel)
    (Hrun : Llm.embed_texts sha256_hex embeddings_create max_batch_size fuel c texts
              model scope id_prefix = Some st) :
  let key := Llm.key_at sha256_hex model scope id_prefix in
  (forall k, (forall i t, texts !! i = Some t -> key i t <> k) ->
             Llm.cache st !! k = c !! k)
  /\ (forall k v, c !! k = Some (Llm.CachedVec v) ->
                  Llm.cache st !! k = Some (Llm.CachedVec v))
  /\ (forall i t, texts !! i = Some t ->
                  exists v, Llm.cache st !! key i t = Some (Llm.CachedVec v)).
Proof.
  intros key.
  destruct (EmbedFacts.embed_texts_spec sha256_hex embeddings_create max_batch_size
              embed_one model scope id_prefix batch_positive service_contract
              fuel c texts enough_fuel)
    as (st' & Hrun' & _ & Hcache & _).
  rewrite Hrun in Hrun'. injection Hrun' as <-. rewrite Hcache.
  split; [|split].
  - intros k Hk. apply CacheFacts.ins_cache_other. intros Hin.
    apply CacheFacts.missed_keys in Hin. destruct Hin as (i & t & Ht & Hkey).
    exact (Hk i t Ht Hkey).
  - intros k v Hv. rewrite CacheFacts.ins_cache_other; [exact Hv|].
    now apply (CacheFacts.vec_not_missed _ _ _ _ c texts k v).
  - intros i t Ht. apply EmbedFacts.ins_cache_vec.
    pose proof (EmbedFacts.enum_lookup texts 0 i t Ht) as He.
    apply list_elem_of_lookup_2, list_elem_of_In in He. simpl in He.
    destruct (EmbedFacts.is_hit sha256_hex model scope id_prefix c (i, t)) eqn:Eh.
    + left. now apply (EmbedFacts.vec_of_hit _ _ _ _ c (i, t)).
    + right. exists (i, t). split; [|reflexivity].
      unfold EmbedFacts.misses. apply List.filter_In. split; [exact He|].
      now rewrite Eh.
Qed.

Module CacheExamples.
(** The state a run ends in, or an empty state when it does not end. *)
Definition ended (run : option Llm.state) : Llm.state :=
  match run with
  | Some st => st
  | None => Llm.State [] ∅ []
  end.
Definition warm_run : option Llm.state :=
  Llm.embed_texts EmbedExamples.sha256_hex EmbedExamples.embeddings_create 2 3
    EmbedExamples.warm ["a"; "bb"; "ccc"] "m" "s" "".
Definition cold_run : option Llm.state :=
  Llm.embed_texts EmbedExamples.sha256_hex EmbedExamples.embeddings_create 2 3
    ∅ ["a"; "bb"] "small" "query" "".
End CacheExamples.

Lemma X14_embed_texts_cache_only_grows_witness :
  Llm.cache (CacheExamples.ended CacheExamples.warm_run)
    !! Llm.key_at EmbedExamples.sha256_hex "m" "s" "" 1 "bb"
  = Some (Llm.CachedVec [7%Q]).
Proof.
  apply (proj1 (proj2 (X14_embed_texts_cache_only_grows EmbedExamples.sha256_hex
           EmbedExamples.embeddings_create 2 EmbedExamples.embed_one
           "m" "s" "" 3 EmbedExamples.warm ["a"; "bb"; "ccc"]
           (CacheExamples.ended CacheExamples.warm_run)
           ltac:(lia) ltac:(reflexivity) ltac:(simpl; lia)
           ltac:(vm_compute; reflexivity)))).
  reflexivity.
Defined.

(** X15. The cache key does not separate the model, the scope and the
    identifier: two triples with the same concatenation give the same key
    for every text.  So after a call of [embed_texts] under one triple, a
    call with the same texts under another triple of the same
    concatenation, whatever its model, is served from the cache and issues
    no external call. *)
Theorem X15_cache_key_unseparated
    (sha256_hex : string -> string)
    (embeddings_create : string -> list string -> list (list Q))
    (max_batch_size : Z) (embed_one : string -> string -> list Q)
    (model scope id_prefix model' scope' id_prefix' : string) (fuel : nat)
    (c : gmap string Llm.cached) (texts : list string) (st : Llm.state)
    (batch_positive : (0 < max_batch_size)%Z)
    (service_contract :
       forall m inputs, embeddings_create m inputs = map (embed_one m) inputs)
    (enough_fuel : List.length texts <= fuel)
    (Hcat : model +:+ scope +:+ id_prefix = model' +:+ scope' +:+ id_prefix')
    (Hrun : Llm.embed_texts sha256_hex embeddings_create max_batch_size fuel c texts
              model scope id_prefix = Some st) :
  (forall i t,
     Llm.key_at sha256_hex model' scope' id_prefix' i t
     = Llm.key_at sha256_hex model scope id_prefix i t)
  /\ exists st2,
       Llm.embed_texts sha256_hex embeddings_create max_batch_size fuel
         (Llm.cache st) texts model' scope' id_prefix' = Some st2
       /\ Llm.calls st2 = []
       /\ List.length (Llm.results st2) = List.length texts.
Proof.
  assert (Hkey : forall i t,
            Llm.key_at sha256_hex model' scope' id_prefix' i t
            = Llm.key_at sha256_hex model scope id_prefix i t).
  { intros i t. unfold Llm.key_at. apply CacheFacts.key_unseparated.
    rewrite <- !PyStrFacts.append_assoc.
    rewrite (PyStrFacts.append_assoc model scope id_prefix).
    rewrite (PyStrFacts.append_assoc model' scope' id_prefix').
    now rewrite Hcat. }
  split; [exact Hkey|].
  destruct (EmbedFacts.embed_texts_spec sha256_hex embeddings_create max_batch_size
              embed_one model scope id_prefix batch_positive service_contract
              fuel c texts enough_fuel)
    as (st' & Hrun' & _ & Hcache & _).
  rewrite Hrun in Hrun'. injection Hrun' as <-.
  destruct (EmbedFacts.embed_texts_spec sha256_hex embeddings_create max_batch_size
              embed_one model' scope' id_prefix' batch_positive service_contract
              fuel (Llm.cache st) texts enough_fuel)
    as (st2 & Hrun2 & Hres2 & _ & Hcat2 & Hall2).
  exists st2. split; [exact Hrun2|]. split.
  - assert (Hm : EmbedFacts.misses sha256_hex model' scope' id_prefix'
                   (Llm.cache st) 0 texts
                 = EmbedFacts.misses sha256_hex model scope id_prefix
                     (Llm.cache st) 0 texts).
    { unfold EmbedFacts.misses. apply List.filter_ext. intros e.
      unfold EmbedFacts.is_hit, EmbedFacts.hit. now rewrite Hkey. }
    rewrite Hm, Hcache, EmbedFacts.all_cached_after in Hcat2. simpl in Hcat2.
    destruct (Llm.calls st2) as [|b bs]; [reflexivity|].
    inversion Hall2 as [|? ? (Hne & _) _]; subst.
    destruct b; [congruence | discriminate].
  - now rewrite Hres2, length_map, EmbedFacts.enum_length.
Qed.

Lemma X15_cache_key_unseparated_witness :
  exists st2,
    Llm.embed_texts EmbedExamples.sha256_hex EmbedExamples.embeddings_create 2 3
      (Llm.cache (CacheExamples.ended CacheExamples.cold_run))
      ["a"; "bb"] "smallq" "uery" "" = Some st2
    /\ Llm.calls st2 = []
    /\ List.length (Llm.results st2) = 2.
Proof.
  apply (proj2 (X15_cache_key_unseparated EmbedExamples.sha256_hex
           EmbedExamples.embeddings_create 2 EmbedExamples.embed_one
           "small" "query" "" "smallq" "uery" "" 3 ∅ ["a"; "bb"]
           (CacheExamples.ended CacheExamples.cold_run)
           ltac:(lia) ltac:(reflexivity) ltac:(simpl; lia) eq_refl
           ltac:(vm_compute; reflexivity))).
Defined.

(** ** The members of a cluster tree *)

Module MemberFacts.
Import Cluster ClusterFacts ClusterSummary.

(** The members of the leaves, left to right. *)
Fixpoint members (t : tree) : list nat :=
  match t with
  | Leaf _ ids => ids
  | Node _ l r => members l ++ members r
  end.

Fixpoint height (t : tree) : nat :=
  match t with
  | Leaf _ _ => 0
  | Node _ l r => S (Nat.max (height l) (height r))
  end.

(** [ids[i]] for each member [i]. *)
Definition idents_of (ids : list string) (l : list nat) : exc (list string) :=
  exc_map (fun i => match nth_error ids i with
                    | Some ident => Ok ident
                    | None => Raise IndexError
                    end) l.

Lemma idents_of_app (ids : list string) (a b : list nat) :
  idents_of ids (a ++ b)
  = exc_bind (idents_of ids a)
      (fun x => exc_bind (idents_of ids b) (fun y => Ok (x ++ y))).
Proof.
  unfold idents_of. induction a as [|i a IH]; simpl.
  - destruct (exc_map _ b); reflexivity.
  - destruct (nth_error ids i); [|reflexivity]. simpl. rewrite IH.
    destruct (exc_map _ a); [|reflexivity]. simpl.
    destruct (exc_map _ b); reflexivity.
Qed.

Lemma collect_ids_members (ids : list string) (t : tree) :
  collect_ids ids t = idents_of ids (members t).
Proof.
  induction t as [n l|n l IHl r IHr]; [reflexivity|].
  simpl. now rewrite idents_of_app, IHl, IHr.
Qed.

Lemma sides_perm (idxs assign : list nat) :
  List.length assign = List.length idxs ->
  Permutation (side true idxs assign ++ side false idxs assign) idxs.
Proof.
  revert assign. unfold side.
  induction idxs as [|i idxs IH]; intros [|a assign] H; simpl in *; try lia.
  - constructor.
  - specialize (IH assign ltac:(lia)).
    destruct (Nat.eqb a 0); simpl.
    + now constructor.
    + rewrite <- Permutation_middle. now constructor.
Qed.

Lemma split_perm (subset : list (list Q)) (idxs : list nat) :
  List.length subset = List.length idxs ->
  Permutation (fst (split_of subset idxs) ++ snd (split_of subset idxs)) idxs.
Proof.
  intros H. unfold split_of.
  pose proof (kmeans2_length subset 15) as L.
  destruct (_kmeans2 subset 15) as [[assign c0] c1]. simpl in *.
  apply sides_perm. lia.
Qed.

(** Bisection neither loses nor repeats a member, and goes no deeper than
    its budget. *)
Lemma bisect_members (d : nat) :
  forall vecs idxs min_size t,
    bisect d vecs idxs min_size = Ok t ->
    Permutation (members t) idxs /\ height t <= d.
Proof.
  induction d as [|d IH]; intros vecs idxs min_size t.
  - simpl. intros [= <-]. split; [reflexivity | simpl; lia].
  - rewrite bisect_S.
    destruct (Z.of_nat (List.length idxs) <=? Z.max 2 min_size)%Z;
      [intros [= <-]; split; [reflexivity | simpl; lia]|].
    destruct (subset_of vecs idxs) as [subset|] eqn:Hs; [|discriminate].
    cbn [exc_bind].
    destruct (is_nil _ || is_nil _);
      [intros [= <-]; split; [reflexivity | simpl; lia]|].
    destruct (bisect d vecs (fst _) min_size) as [l|] eqn:Hl; [|discriminate].
    cbn [exc_bind].
    destruct (bisect d vecs (snd _) min_size) as [r|] eqn:Hr; [|discriminate].
    cbn [exc_bind]. intros [= <-].
    destruct (IH vecs _ min_size l Hl) as (Pl & Dl).
    destruct (IH vecs _ min_size r Hr) as (Pr & Dr).
    split.
    + simpl. rewrite Pl, Pr. apply split_perm.
      now apply (subset_of_length vecs).
    + simpl. lia.
Qed.

Lemma idents_of_in_range (ids : list string) (l : list nat) :
  Forall (fun i => i < List.length ids) l ->
  exists out, idents_of ids l = Ok out /\ List.length out = List.length l.
Proof.
  unfold idents_of. induction 1 as [|i l Hi _ (out & IH & Hlen)]; simpl.
  - now exists [].
  - destruct (nth_error ids i) as [x|] eqn:E.
    + simpl. rewrite IH. simpl. eexists. split; [reflexivity|]. simpl. now rewrite Hlen.
    + apply nth_error_None in E. lia.
Qed.

End MemberFacts.

(** X16. The tree that [_bisect_recursive] returns holds every index of
    the subset in exactly one leaf (the leaves, left to right, are a
    rearrangement of the subset), and no leaf lies deeper than the depth
    budget.  So [collect_ids] at the root returns one identifier for each
    index of the subset and raises nothing when the indices are in the
    range of the identifier list. *)
Theorem X16_bisect_partitions_members
    (vecs : list (list Q)) (idxs : list nat) (depth min_size : Z)
    (t : Cluster.tree) (ids : list string)
    (Ht : Cluster._bisect_recursive vecs idxs depth min_size = Ok t)
    (Hr : Forall (fun i => i < List.length ids) idxs) :
  Permutation (MemberFacts.members t) idxs
  /\ MemberFacts.height t <= Z.to_nat depth
  /\ exists out,
       ClusterSummary.collect_ids ids t = Ok out
       /\ List.length out = List.length idxs.
Proof.
  destruct (MemberFacts.bisect_members (Z.to_nat depth) vecs idxs min_size t Ht)
    as (Hp & Hh).
  split; [exact Hp|]. split; [exact Hh|].
  rewrite MemberFacts.collect_ids_members.
  destruct (MemberFacts.idents_of_in_range ids (MemberFacts.members t))
    as (out & Ho & Hl).
  - apply List.Forall_forall. intros i Hi.
    rewrite List.Forall_forall in Hr. apply Hr.
    now apply (Permutation_in i Hp).
  - exists out. split; [exact Ho|]. rewrite Hl. now apply Permutation_length.
Qed.

Lemma X16_bisect_partitions_members_witness :
  Permutation
    (MemberFacts.members
       (Cluster.Node 3 (Cluster.Leaf 1 [1]) (Cluster.Leaf 2 [0; 2])))
    [0; 1; 2].
Proof.
  apply (X16_bisect_partitions_members
           [[1%Q; 0%Q]; [0%Q; 1%Q]; [1%Q; 0%Q]] [0; 1; 2] 2 0
           (Cluster.Node 3 (Cluster.Leaf 1 [1]) (Cluster.Leaf 2 [0; 2]))
           ["a"; "b"; "c"]).
  - vm_compute. reflexivity.
  - repeat constructor.
Defined.

(** ** Normalising twice and normalising a multiple *)

Module UnitFacts.
Import Embeddings NormFacts.
Local Open Scope R_scope.








End UnitFacts.



(** ** Cosine similarity *)

Module CosineFacts.
Import Vector.
Local Open Scope R_scope.














(** The value of [cosine_similarity], which raises nothing. *)
Lemma cosine_value (a b : list R) :
  cosine_similarity a b
  = Ok (if Req_dec_T (_norm a) 0 then 0
        else if Req_dec_T (_norm b) 0 then 0
        else _dot a b / (_norm a * _norm b)).
Proof.
  unfold cosine_similarity.
  destruct (Req_dec_T (_norm a) 0) as [|Ha]; [reflexivity|].
  destruct (Req_dec_T (_norm b) 0) as [|Hb]; [reflexivity|].
  unfold py_div. destruct (Req_dec_T (_norm a * _norm b) 0) as [E|]; [|reflexivity].
  apply Rmult_integral in E. tauto.
Qed.


End CosineFacts.



(** ** The best [k] of a corpus *)

Module TopkFacts.
Import Vector.
Local Open Scope R_scope.

(** [x] is not less similar than [y]. *)
Definition sim_ge (x y : nat * R) : Prop := snd y <= snd x.

(** The similarity of the query with one vector. *)
Definition sim (query_vec v : list R) : R :=
  if Req_dec_T (_norm query_vec) 0 then 0
  else if Req_dec_T (_norm v) 0 then 0
  else _dot query_vec v / (_norm query_vec * _norm v).

Definition scores_of (query_vec : list R) (corpus_vecs : list (list R))
  : list (nat * R) :=
  map (fun iv => (fst iv, sim query_vec (snd iv))) (enumerate corpus_vecs).

Lemma scores_ok (query_vec : list R) (l : list (nat * list R)) :
  exc_map (fun iv => do s <- cosine_similarity query_vec (snd iv); Ok (fst iv, s)) l
  = Ok (map (fun iv => (fst iv, sim query_vec (snd iv))) l).
Proof.
  induction l as [|iv l IH]; [reflexivity|].
  simpl. rewrite CosineFacts.cosine_value. simpl. now rewrite IH.
Qed.

Lemma topk_value (query_vec : list R) (corpus_vecs : list (list R)) (k : Z) :
  topk query_vec corpus_vecs k
  = Ok (firstn (Z.to_nat (Z.max 0 k))
          (PySort.sort_desc sim_ltb (scores_of query_vec corpus_vecs))).
Proof. unfold topk. now rewrite scores_ok. Qed.

Lemma sorted_by_sim (l : list (nat * R)) :
  StronglySorted sim_ge (PySort.sort_desc sim_ltb l).
Proof.
  apply SortFacts.sort_sorted; unfold sim_ltb, sim_ge.
  - intros x y. destruct (Rlt_dec (snd x) (snd y)); [discriminate | lra].
  - intros x y. destruct (Rlt_dec (snd x) (snd y)); [lra | discriminate].
  - intros x y z. lra.
Qed.

Lemma enumerate_fst {A : Type} (l : list A) :
  map fst (enumerate l) = seq 0 (List.length l).
Proof.
  unfold enumerate. generalize 0%nat.
  induction l as [|x l IH]; intros n; [reflexivity|].
  simpl. now rewrite IH.
Qed.

Lemma enumerate_in {A : Type} (l : list A) (i : nat) (x : A) :
  In (i, x) (enumerate l) -> nth_error l i = Some x.
Proof.
  unfold enumerate.
  assert (H : forall n, In (i, x) (combine (seq n (List.length l)) l) ->
                        exists d, i = (n + d)%nat /\ nth_error l d = Some x).
  { induction l as [|y l IH]; intros n Hin; [destruct Hin|].
    simpl in Hin. destruct Hin as [[= <- <-]|Hin].
    - exists 0%nat. split; [lia | reflexivity].
    - destruct (IH (S n) Hin) as (d & -> & Hd). exists (S d). split; [lia | exact Hd]. }
  intros Hin. destruct (H 0%nat Hin) as (d & -> & Hd). exact Hd.
Qed.

Lemma firstn_nodup {A : Type} (n : nat) (l : list A) :
  List.NoDup l -> List.NoDup (firstn n l).
Proof.
  revert l. induction n as [|n IH]; intros l Hl; [constructor|].
  destruct l as [|x l]; [constructor|]. inversion Hl; subst. simpl.
  constructor; [|now apply IH].
  intros Hin. apply SortFacts.firstn_in in Hin. contradiction.
Qed.

End TopkFacts.

(** X19. With floats read as real numbers, [topk] raises nothing and
    returns min(max(0, k), n) entries for a corpus of [n] vectors, in
    descending order of similarity; the indices returned are distinct,
    and each entry holds the index of a corpus vector with the cosine
    similarity of the query and that vector. *)
Theorem X19_topk_sorted_distinct
    (query_vec : list R) (corpus_vecs : list (list R)) (k : Z) :
  exists res : list (nat * R),
    Vector.topk query_vec corpus_vecs k = Ok res
    /\ List.length res
       = Nat.min (Z.to_nat (Z.max 0 k)) (List.length corpus_vecs)
    /\ StronglySorted TopkFacts.sim_ge res
    /\ List.NoDup (map fst res)
    /\ Forall (fun e => exists v,
                          nth_error corpus_vecs (fst e) = Some v
                          /\ Vector.cosine_similarity query_vec v = Ok (snd e))
         res.
Proof.
  rewrite TopkFacts.topk_value. eexists. split; [reflexivity|].
  set (scores := TopkFacts.scores_of query_vec corpus_vecs).
  pose proof (SortFacts.sort_perm Vector.sim_ltb scores) as Hperm.
  split; [|split; [|split]].
  - rewrite length_firstn, (Permutation_length Hperm).
    unfold scores, TopkFacts.scores_of, Vector.enumerate.
    now rewrite length_map, length_combine, length_seq, Nat.min_id.
  - apply SortFacts.firstn_sorted, TopkFacts.sorted_by_sim.
  - rewrite <- firstn_map. apply TopkFacts.firstn_nodup.
    apply (Permutation_NoDup (l := map fst scores)).
    + symmetry. now apply Permutation_map.
    + unfold scores, TopkFacts.scores_of. rewrite map_map. simpl.
      rewrite TopkFacts.enumerate_fst. apply List.seq_NoDup.
  - apply List.Forall_forall. intros e He. apply SortFacts.firstn_in in He.
    apply (Permutation_in e Hperm) in He.
    unfold scores, TopkFacts.scores_of in He. apply in_map_iff in He.
    destruct He as ((i, v) & <- & Hin). simpl.
    exists v. split; [now apply TopkFacts.enumerate_in|].
    apply CosineFacts.cosine_value.
Qed.

(** ** 2-means over tag embeddings *)

Module TagFacts.
Import TagCluster.

Lemma centroid_ok (c s : list Q) (n : nat) : exists c', centroid c s n = Ok c'.
Proof.
  unfold centroid. destruct (Nat.eqb n 0) eqn:En; [eauto|].
  induction s as [|x s (c' & IH)]; [now exists []|].
  simpl. unfold div_count at 1. rewrite En. simpl. rewrite IH. simpl. eauto.
Qed.

Lemma assign_all_length (vectors : list (list Q)) (c0 c1 : list Q) :
  List.length (assign_all vectors c0 c1) = List.length vectors.
Proof. unfold assign_all. apply length_map. Qed.

Lemma assign_all_binary (vectors : list (list Q)) (c0 c1 : list Q) :
  Forall (fun a => a = 0 \/ a = 1) (assign_all vectors c0 c1).
Proof.
  unfold assign_all. apply List.Forall_forall. intros a Ha.
  apply in_map_iff in Ha. destruct Ha as (v & <- & _).
  destruct (Qle_bool _ _); auto.
Qed.

(** What holds of the assignment after a round. *)
Definition assigned (vectors : list (list Q)) (st : list Q * list Q * list nat)
  : Prop :=
  List.length (snd st) = List.length vectors
  /\ Forall (fun a => a = 0 \/ a = 1) (snd st).

Lemma round_ok (vectors : list (list Q)) (st : list Q * list Q * list nat) :
  exists st', kmeans_round vectors st = Ok st'
              /\ assigned vectors st'
              /\ snd st' = assign_all vectors (fst (fst st)) (snd (fst st)).
Proof.
  destruct st as [[c0 c1] a]. unfold kmeans_round.
  destruct (Cluster.accumulate _ vectors (assign_all vectors c0 c1))
    as [[s0 n0] [s1 n1]].
  destruct (centroid_ok c0 s0 n0) as (c0' & ->).
  destruct (centroid_ok c1 s1 n1) as (c1' & ->).
  cbn [exc_bind]. eexists. split; [reflexivity|]. split; [|reflexivity].
  split; [apply assign_all_length | apply assign_all_binary].
Qed.

Lemma rounds_ok (vectors : list (list Q)) (n : nat) :
  forall st, assigned vectors st ->
    exists st', rounds n (kmeans_round vectors) st = Ok st'
                /\ assigned vectors st'.
Proof.
  induction n as [|n IH]; intros st Hst; [now exists st|].
  simpl. destruct (round_ok vectors st) as (st1 & -> & H1 & _).
  cbn [exc_bind]. now apply IH.
Qed.

Lemma fold_qplus_shift (l : list Q) (a : Q) :
  (fold_left Qplus l a == a + fold_left Qplus l 0)%Q.
Proof.
  revert a. induction l as [|x l IH]; intros a; simpl.
  - ring.
  - rewrite (IH (a + x)%Q), (IH (0 + x)%Q). ring.
Qed.

Lemma sq_dist_cons (x y : Q) (v c : list Q) :
  (sq_dist (x :: v) (y :: c) == (x - y) * (x - y) + sq_dist v c)%Q.
Proof.
  unfold sq_dist. simpl. rewrite fold_qplus_shift. ring.
Qed.

Lemma sq_dist_nonneg (v : list Q) : forall c, (0 <= sq_dist v c)%Q.
Proof.
  induction v as [|x v IH]; intros [|y c]; try (unfold sq_dist; simpl; apply Qle_refl).
  rewrite sq_dist_cons.
  assert (H : (0 <= (x - y) * (x - y))%Q).
  { generalize (x - y)%Q. intros [n m]. unfold Qle. simpl. nia. }
  specialize (IH c).
  apply (Qle_trans _ (0 + 0)); [apply Qle_refl|]. now apply Qplus_le_compat.
Qed.

Lemma sq_dist_self (v : list Q) : (sq_dist v v == 0)%Q.
Proof.
  induction v as [|x v IH]; [reflexivity|].
  rewrite sq_dist_cons, IH. ring.
Qed.

(** The first seed is nearest to itself. *)
Lemma seed_assigned (v0 : list Q) (rest : list (list Q)) (c1 : list Q) :
  List.hd 1 (assign_all (v0 :: rest) v0 c1) = 0.
Proof.
  unfold assign_all. simpl.
  assert (H : Qle_bool (sq_dist v0 v0) (sq_dist v0 c1) = true).
  { apply Qle_bool_iff. rewrite sq_dist_self. apply sq_dist_nonneg. }
  now rewrite H.
Qed.

End TagFacts.

(** X20. [_kmeans_2] of [tag_cluster] raises nothing (the division by a
    group's count is guarded by the count), and returns one assignment,
    0 or 1, for each vector.  When a single round is asked for, the first
    vector, which seeds the first centre, is assigned to the first
    group. *)
Theorem X20_tag_kmeans_safe_and_binary (vectors : list (list Q)) (iters : Z) :
  exists c0 c1 assign,
    TagCluster._kmeans_2 vectors iters = Ok (c0, c1, assign)
    /\ List.length assign = List.length vectors
    /\ Forall (fun a => a = 0 \/ a = 1) assign
    /\ ((iters <= 1)%Z -> vectors <> [] -> List.hd 1 assign = 0).
Proof.
  unfold TagCluster._kmeans_2. destruct vectors as [|v0 rest].
  - exists [], [], []. split; [reflexivity|]. split; [reflexivity|].
    split; [constructor | congruence].
  - set (init := (v0, List.last (v0 :: rest) v0,
                  repeat 0 (List.length (v0 :: rest)))).
    assert (Hinit : TagFacts.assigned (v0 :: rest) init).
    { split; [apply repeat_length|]. apply List.Forall_forall.
      intros a Ha. apply repeat_spec in Ha. now left. }
    destruct (TagFacts.rounds_ok (v0 :: rest) (Z.to_nat (Z.max 1 iters)) init Hinit)
      as ([[c0 c1] assign] & Hrun & Hlen & Hbin).
    exists c0, c1, assign. split; [exact Hrun|]. split; [exact Hlen|].
    split; [exact Hbin|]. intros Hi _.
    replace (Z.to_nat (Z.max 1 iters)) with 1 in Hrun by lia.
    cbn [TagCluster.rounds] in Hrun.
    destruct (TagFacts.round_ok (v0 :: rest) init) as (st1 & E1 & _ & Ha).
    rewrite E1 in Hrun. cbn [exc_bind] in Hrun. injection Hrun as ->.
    cbn [snd] in Ha. rewrite Ha. apply TagFacts.seed_assigned.
Qed.

Lemma X20_tag_kmeans_safe_and_binary_witness :
  exists c0 c1 assign,
    TagCluster._kmeans_2 [[1%Q; 0%Q]; [0%Q; 1%Q]] 1 = Ok (c0, c1, assign)
    /\ List.hd 1 assign = 0.
Proof.
  destruct (X20_tag_kmeans_safe_and_binary [[1%Q; 0%Q]; [0%Q; 1%Q]] 1)
    as (c0 & c1 & assign & Hrun & _ & _ & Hseed).
  exists c0, c1, assign. split; [exact Hrun|].
  apply Hseed; [lia | discriminate].
Defined.

(** ** Overlap of token lists *)

Set Warnings "-clear-no-such-hyp".

Module JaccardFacts.
Import Streams.

Definition tokens (l : list string) : gset string := list_to_set l.

(** [n / float(m)] for two counts. *)
Definition ratio (n m : nat) : Q :=
  (inject_Z (Z.of_nat n) / inject_Z (Z.of_nat m))%Q.

Lemma ratio_frac (n m : nat) :
  1 <= m ->
  exists p, Z.pos p = Z.of_nat m /\ (ratio n m == Z.of_nat n # p)%Q.
Proof.
  intros Hm. destruct m as [|m]; [lia|].
  exists (Pos.of_succ_nat m). split; [lia|].
  unfold ratio. rewrite Qmake_Qdiv. now rewrite Zpos_P_of_succ_nat, <- Nat2Z.inj_succ.
Qed.

Lemma ratio_bounds (n m : nat) :
  1 <= m -> n <= m -> (0 <= ratio n m)%Q /\ (ratio n m <= 1)%Q.
Proof.
  intros Hm Hn. destruct (ratio_frac n m Hm) as (p & Hp & ->).
  unfold Qle. simpl. lia.
Qed.

Lemma ratio_one (n m : nat) : 1 <= m -> (ratio n m == 1)%Q <-> n = m.
Proof.
  intros Hm. destruct (ratio_frac n m Hm) as (p & Hp & ->).
  unfold Qeq. simpl. lia.
Qed.

Lemma ratio_zero (n m : nat) : 1 <= m -> (ratio n m == 0)%Q <-> n = 0.
Proof.
  intros Hm. destruct (ratio_frac n m Hm) as (p & Hp & ->).
  unfold Qeq. simpl. lia.
Qed.

(** The value of [_jaccard] by the cases of the code. *)
Lemma jaccard_cases (a b : list string) :
  (tokens a = ∅ /\ tokens b = ∅ /\ _jaccard a b = 1%Q)
  \/ ((tokens a = ∅ \/ tokens b = ∅) /\ tokens a <> tokens b
      /\ _jaccard a b = 0%Q)
  \/ (tokens a <> ∅ /\ tokens b <> ∅
      /\ 1 <= size (tokens a ∪ tokens b)
      /\ _jaccard a b
         = ratio (size (tokens a ∩ tokens b)) (size (tokens a ∪ tokens b))).
Proof.
  unfold _jaccard. fold (tokens a) (tokens b).
  destruct (decide (tokens a = ∅)) as [Ea|Na],
           (decide (tokens b = ∅)) as [Eb|Nb].
  - left. now repeat split.
  - right. left. split; [now left|]. split; [congruence | reflexivity].
  - right. left. split; [now right|]. split; [congruence | reflexivity].
  - right. right. split; [exact Na|]. split; [exact Nb|].
    assert (Hu : 1 <= size (tokens a ∪ tokens b)).
    { assert (H0 : size (tokens a ∪ tokens b) <> 0); [|lia].
      intros H0. apply size_empty_iff in H0. apply Na.
      apply leibniz_equiv. set_solver. }
    split; [exact Hu|]. unfold ratio. now rewrite Nat.max_r by exact Hu.
Qed.

Lemma inter_le_union (x y : gset string) : size (x ∩ y) <= size (x ∪ y).
Proof. apply subseteq_size. set_solver. Qed.

End JaccardFacts.

(** X21. [_jaccard] depends on the two lists through their sets of tokens
    only.  It divides by no zero, lies between 0 and 1, is symmetric, is
    1 exactly when the two sets are equal (two empty lists included), and
    is 0 exactly when the sets have no token in common and are not both
    empty. *)
Theorem X21_jaccard_bounds_and_extremes (a b : list string) :
  (0 <= Streams._jaccard a b)%Q
  /\ (Streams._jaccard a b <= 1)%Q
  /\ Streams._jaccard a b = Streams._jaccard b a
  /\ ((Streams._jaccard a b == 1)%Q
      <-> JaccardFacts.tokens a = JaccardFacts.tokens b)
  /\ ((Streams._jaccard a b == 0)%Q
      <-> JaccardFacts.tokens a ∩ JaccardFacts.tokens b = ∅
          /\ JaccardFacts.tokens a ∪ JaccardFacts.tokens b <> ∅).
Proof.
  pose proof (JaccardFacts.inter_le_union (JaccardFacts.tokens a)
                (JaccardFacts.tokens b)) as Hle.
  split; [|split; [|split; [|split]]].
  - destruct (JaccardFacts.jaccard_cases a b)
      as [(_ & _ & ->)|[(_ & _ & ->)|(_ & _ & Hu & ->)]]; try discriminate.
    now apply JaccardFacts.ratio_bounds.
  - destruct (JaccardFacts.jaccard_cases a b)
      as [(_ & _ & ->)|[(_ & _ & ->)|(_ & _ & Hu & ->)]]; try discriminate.
    now apply JaccardFacts.ratio_bounds.
  - unfold Streams._jaccard.
    rewrite (comm_L (∩) (list_to_set b) (list_to_set a)).
    rewrite (comm_L (∪) (list_to_set b) (list_to_set a)).
    destruct (decide (list_to_set a = ∅)), (decide (list_to_set b = ∅));
      reflexivity.
  - destruct (JaccardFacts.jaccard_cases a b)
      as [(Ea & Eb & ->)|[(_ & Hne & ->)|(Na & Nb & Hu & ->)]].
    + split; [congruence | reflexivity].
    + split; [discriminate | contradiction].
    + rewrite (JaccardFacts.ratio_one _ _ Hu). split.
      * intros Hs. apply leibniz_equiv.
        assert (Hiu : JaccardFacts.tokens a ∩ JaccardFacts.tokens b
                      ≡ JaccardFacts.tokens a ∪ JaccardFacts.tokens b).
        { apply set_subseteq_size_equiv; [set_solver | lia]. }
        set_solver.
      * intros ->. f_equal. apply leibniz_equiv. set_solver.
  - destruct (JaccardFacts.jaccard_cases a b)
      as [(Ea & Eb & ->)|[(He & Hne & ->)|(Na & Nb & Hu & ->)]].
    + split; [discriminate|]. intros (_ & Hn). exfalso. apply Hn.
      rewrite Ea, Eb. apply leibniz_equiv. set_solver.
    + split; [|reflexivity]. intros _. split.
      * apply leibniz_equiv. destruct He as [He|He]; rewrite He; set_solver.
      * intros Hu. apply Hne.
        assert (JaccardFacts.tokens a = ∅) as -> by (apply leibniz_equiv; set_solver).
        assert (JaccardFacts.tokens b = ∅) as -> by (apply leibniz_equiv; set_solver).
        reflexivity.
    + rewrite (JaccardFacts.ratio_zero _ _ Hu), size_empty_iff. split.
      * intros H0. split; [now apply leibniz_equiv|].
        intros Hn. apply Na. apply leibniz_equiv. set_solver.
      * intros (H0 & _). now rewrite H0.
Qed.

Set Warnings "clear-no-such-hyp".

(** ** The shape of a repository hint *)

Module HintShape.
Import Parser PyStr.

(** How often the character [c] occurs in [s]. *)
Fixpoint count_char (c : ascii) (s : string) : nat :=
  match s with
  | EmptyString => 0
  | String d s' => (if Ascii.eqb d c then 1 else 0) + count_char c s'
  end.

Lemma count_char_app (c : ascii) (a b : string) :
  count_char c (a +:+ b) = count_char c a + count_char c b.
Proof.
  induction a as [|d a IH]; [reflexivity|].
  rewrite PyStrFacts.app_cons. simpl. rewrite IH. lia.
Qed.

Lemma prefix_char (c d : ascii) (s : string) :
  String.prefix (String c EmptyString) (String d s) = Ascii.eqb d c.
Proof.
  simpl. destruct (Ascii.ascii_dec c d) as [->|Hne].
  - rewrite Ascii.eqb_refl. now destruct s.
  - symmetry. apply Ascii.eqb_neq. congruence.
Qed.

(** [c in s] for a one-character needle. *)
Lemma contains_char (c : ascii) (s : string) :
  contains (String c EmptyString) s = negb (count_char c s =? 0).
Proof.
  induction s as [|d s IH]; [reflexivity|].
  change (contains (String c EmptyString) (String d s))
    with (String.prefix (String c EmptyString) (String d s)
          || contains (String c EmptyString) s).
  rewrite prefix_char, IH. simpl. destruct (Ascii.eqb d c); [reflexivity|].
  reflexivity.
Qed.

(** No part of a split holds the separator, or more of a character than
    the text. *)
Definition part_of (sep : ascii) (s p : string) : Prop :=
  count_char sep p = 0 /\ forall c, count_char c p <= count_char c s.

Lemma split_on_parts (sep : ascii) (s : string) :
  Forall (part_of sep s) (split_on sep s).
Proof.
  induction s as [|d s IH]; simpl.
  - repeat constructor.
  - assert (Hw : Forall (part_of sep (String d s)) (split_on sep s)).
    { eapply List.Forall_impl; [|exact IH]. intros p (H0 & Hc).
      split; [exact H0|]. intros c. specialize (Hc c). simpl. lia. }
    destruct (Ascii.eqb d sep) eqn:Ed.
    + constructor; [|exact Hw]. split; [reflexivity | intros c; simpl; lia].
    + destruct (split_on sep s) as [|t ts].
      * constructor; [|constructor]. split; [simpl; now rewrite Ed|].
        intros c. simpl. lia.
      * inversion IH as [|? ? (H0 & Hc) Hts]; subst.
        inversion Hw as [|? ? _ Hwts]; subst.
        constructor; [|exact Hwts]. split; [simpl; now rewrite Ed, H0|].
        intros c. specialize (Hc c). simpl. lia.
Qed.

Lemma split_on_nonempty (sep : ascii) (s : string) : split_on sep s <> [].
Proof.
  destruct s as [|d s]; simpl; [discriminate|].
  destruct (Ascii.eqb d sep); [discriminate|].
  destruct (split_on sep s); discriminate.
Qed.

Lemma take_count (c : ascii) (n : nat) (s : string) :
  count_char c (take n s) <= count_char c s.
Proof.
  revert s. induction n as [|n IH]; intros s; [simpl; lia|].
  destruct s as [|d s]; simpl; [lia|]. specialize (IH s). lia.
Qed.

Lemma last_forall {A : Type} (P : A -> Prop) (l : list A) (d : A) :
  Forall P l -> l <> [] -> P (List.last l d).
Proof.
  intros H Hne. induction H as [|x l Hx Hl IH]; [congruence|].
  destruct l as [|y l]; [exact Hx|]. apply IH. discriminate.
Qed.

Lemma skipn_forall {A : Type} (P : A -> Prop) (n : nat) (l : list A) :
  Forall P l -> Forall P (skipn n l).
Proof.
  intros H. revert n. induction H as [|x l Hx Hl IH]; intros [|n]; simpl;
    try constructor; auto.
Qed.

Lemma join_count (c : ascii) (l : list string) :
  Forall (fun p => count_char c p = 0) l ->
  count_char c (join (String c EmptyString) l) = List.length l - 1.
Proof.
  unfold join. induction 1 as [|x l Hx Hl IH]; [reflexivity|].
  destruct l as [|y l]; [simpl; lia|].
  change (String.concat (String c EmptyString) (x :: y :: l))
    with (x +:+ String c EmptyString +:+ String.concat (String c EmptyString) (y :: l)).
  rewrite !count_char_app, Hx, IH. simpl. rewrite Ascii.eqb_refl. lia.
Qed.

Lemma last_two_length {A : Type} (x y : A) (l : list A) :
  List.length (skipn (List.length (x :: y :: l) - 2) (x :: y :: l)) = 2.
Proof. rewrite length_skipn. simpl. lia. Qed.

(** A hint taken from a candidate holds at most one slash. *)
Lemma hint_of_slashes (s h : string) :
  hint_of s = Some h -> count_char "/" h <= 1.
Proof.
  unfold hint_of. set (val := strip s).
  destruct (contains "github.com" (lower val)).
  - intros [= <-].
    pose proof (last_forall _ _ EmptyString
                  (split_on_parts "/" (rstrip_char "/" val))
                  (split_on_nonempty "/" (rstrip_char "/" val))) as (H0 & _).
    destruct (endswith _ ".git"); [|lia].
    unfold drop_last. pose proof (take_count "/" (String.length
      (List.last (split_on "/" (rstrip_char "/" val)) EmptyString) - 4)
      (List.last (split_on "/" (rstrip_char "/" val)) EmptyString)). lia.
  - destruct (is_path val) eqn:Ep; [|discriminate].
    set (sep := if contains SLASH val then "/"%char else "092"%char).
    assert (Hparts : Forall (fun p => count_char "/" p = 0)
                       (List.filter (fun p => negb (is_empty p)) (split_on sep val))).
    { apply List.Forall_forall. intros p Hp. apply List.filter_In in Hp.
      destruct Hp as (Hp & _).
      pose proof (split_on_parts sep val) as Hall.
      rewrite List.Forall_forall in Hall. destruct (Hall p Hp) as (H0 & Hc).
      subst sep. destruct (contains SLASH val) eqn:Es; [exact H0|].
      unfold SLASH in Es. rewrite contains_char in Es.
      apply negb_false_iff, Nat.eqb_eq in Es. specialize (Hc "/"%char). lia. }
    destruct (List.filter _ (split_on sep val)) as [|p [|q parts]] eqn:Ef;
      [discriminate| |].
    + intros [= <-]. inversion Hparts; subst. lia.
    + intros [= <-]. unfold last_two.
      rewrite (join_count "/"); [|now apply skipn_forall].
      rewrite last_two_length. lia.
Qed.

Lemma first_hint_slashes (cands : list string) (h : string) :
  first_hint cands = Some h -> count_char "/" h <= 1.
Proof.
  induction cands as [|s cands IH]; simpl; [discriminate|].
  destruct (hint_of s) as [h'|] eqn:E; [|exact IH].
  intros [= <-]. now apply (hint_of_slashes s).
Qed.

End HintShape.

(** X22. [extract_repo_hint] returns [None] exactly when the composer
    object is falsy or holds no candidate (no non-empty string under a key
    that names a repository, workspace or path).  A hint that is shaped
    from a candidate, a repository name or the last segments of a path,
    holds at most one slash; only the fallback, the first ranked candidate
    as it is, can hold more. *)
Theorem X22_repo_hint_none_and_shape (composer_obj : pyval) :
  (Parser.extract_repo_hint composer_obj = None
   <-> truthy composer_obj = false \/ Parser.candidates_of composer_obj = [])
  /\ (forall h,
        Parser.extract_repo_hint composer_obj = Some h ->
        HintShape.count_char "/" h <= 1
        \/ (Parser.first_hint (Parser.sort_desc (Parser.candidates_of composer_obj))
            = None
            /\ List.head (Parser.sort_desc (Parser.candidates_of composer_obj))
               = Some h)).
Proof.
  unfold Parser.extract_repo_hint. split.
  - destruct (truthy composer_obj); simpl; [|tauto].
    pose proof (HintFacts.sort_desc_perm (Parser.candidates_of composer_obj)) as Hp.
    destruct (Parser.first_hint _) as [h|] eqn:Ef.
    + split; [discriminate|]. intros [H|H]; [discriminate|].
      rewrite H in Ef. discriminate.
    + destruct (Parser.sort_desc _) as [|c cs] eqn:Es.
      * split; [|reflexivity]. intros _. right.
        now apply Permutation_nil in Hp.
      * split; [discriminate|]. intros [H|H]; [discriminate|].
        rewrite H in Hp. symmetry in Hp. apply Permutation_nil in Hp. discriminate.
  - intros h. destruct (negb (truthy composer_obj)); [discriminate|].
    destruct (Parser.first_hint _) as [h'|] eqn:Ef.
    + intros [= <-]. left. now apply (HintShape.first_hint_slashes _ _ Ef).
    + intros H. right. now split.
Qed.

Lemma X22_repo_hint_none_and_shape_witness :
  HintShape.count_char "/" "org/repo" <= 1
  \/ (Parser.first_hint
        (Parser.sort_desc
           (Parser.candidates_of (PDict [("cwd", PStr "/home/me/org/repo")])))
      = None
      /\ List.head
           (Parser.sort_desc
              (Parser.candidates_of (PDict [("cwd", PStr "/home/me/org/repo")])))
         = Some "org/repo").
Proof.
  apply (proj2 (X22_repo_hint_none_and_shape
                  (PDict [("cwd", PStr "/home/me/org/repo")])) "org/repo").
  vm_compute. reflexivity.
Defined.

(** ** Sampling the index *)

Module SampleFacts.
Import Sampling.

(** The objects of the lines that decode. *)
Definition decoded (lines : list (option pyval)) : list pyval :=
  flat_map (fun o => match o with Some obj => [obj] | None => [] end) lines.

Section Sample.
Variable randint : nat -> Z.
Variable n : Z.
Hypothesis randint_positive : forall t, (1 <= randint t)%Z.

Local Abbreviation step := (sample_step randint n).

(** The reservoir holds [size] objects, all from [pool]. *)
Definition holds (size : nat) (pool reservoir : list pyval) : Prop :=
  List.length reservoir = size /\ incl reservoir pool.

Lemma sample_step_inv (seen : list pyval) (reservoir : list pyval)
    (t : nat) (line : option pyval) :
  holds (Nat.min (Z.to_nat n) (List.length seen)) seen reservoir ->
  exists reservoir',
    step reservoir (t, line) = Ok reservoir'
    /\ holds (Nat.min (Z.to_nat n) (List.length (seen ++ decoded [line])))
         (seen ++ decoded [line]) reservoir'
    /\ (List.length (seen ++ decoded [line]) <= Z.to_nat n ->
        reservoir = seen -> reservoir' = seen ++ decoded [line]).
Proof using randint_positive.
  intros (Hlen & Hincl). unfold sample_step. cbn [fst snd].
  destruct line as [obj|]; cbn [decoded flat_map].
  - rewrite app_nil_r, length_app. cbn [List.length].
    destruct (Z.of_nat (List.length reservoir) <? n)%Z eqn:Elt.
    + apply Z.ltb_lt in Elt. eexists. split; [reflexivity|]. split.
      * split; [rewrite length_app; simpl; lia|].
        intros x Hx. apply in_app_or in Hx. apply in_or_app.
        destruct Hx as [Hx|Hx]; [left; now apply Hincl | now right].
      * intros _ ->. reflexivity.
    + apply Z.ltb_ge in Elt.
      destruct (randint t <=? n)%Z eqn:Ej.
      * apply Z.leb_le in Ej. specialize (randint_positive t).
        unfold py_setitem.
        assert (Hin : ((0 <=? randint t - 1)
                       && (randint t - 1 <? Z.of_nat (List.length reservoir)))%Z = true).
        { apply andb_true_iff. split; [apply Z.leb_le | apply Z.ltb_lt]; lia. }
        rewrite Hin. eexists. split; [reflexivity|]. split.
        -- split; [rewrite length_insert; lia|].
           intros x Hx. apply in_or_app.
           apply list_elem_of_In, list_elem_of_lookup in Hx.
           destruct Hx as (i & Hi).
           destruct (decide (i = Z.to_nat (randint t - 1))) as [->|Hne].
           ++ rewrite list_lookup_insert_eq in Hi by lia.
              injection Hi as <-. right. now left.
           ++ rewrite list_lookup_insert_ne in Hi by congruence.
              left. apply Hincl, list_elem_of_In.
              now apply (list_elem_of_lookup_2 _ i).
        -- intros Hle. lia.
      * eexists. split; [reflexivity|]. split.
        -- split; [lia|]. intros x Hx. apply in_or_app. left. now apply Hincl.
        -- intros Hle. apply Z.leb_gt in Ej. lia.
  - rewrite !app_nil_r. eexists. split; [reflexivity|]. split; [now split|].
    now intros _ ->.
Qed.

Lemma sample_fold_inv (lines : list (option pyval)) :
  forall (t0 : nat) (seen reservoir : list pyval),
    holds (Nat.min (Z.to_nat n) (List.length seen)) seen reservoir ->
    exists res,
      exc_fold step (combine (seq t0 (List.length lines)) lines) reservoir = Ok res
      /\ holds (Nat.min (Z.to_nat n) (List.length (seen ++ decoded lines)))
           (seen ++ decoded lines) res
      /\ (List.length (seen ++ decoded lines) <= Z.to_nat n ->
          reservoir = seen -> res = seen ++ decoded lines).
Proof using randint_positive.
  induction lines as [|line lines IH]; intros t0 seen reservoir Hinv.
  - cbn [decoded flat_map]. rewrite app_nil_r. exists reservoir.
    split; [reflexivity|]. split; [exact Hinv | now intros _ ->].
  - cbn [List.length seq combine]. rewrite exc_fold_cons.
    destruct (sample_step_inv seen reservoir t0 line Hinv) as (r1 & -> & H1 & E1).
    cbn [exc_bind].
    destruct (IH (S t0) (seen ++ decoded [line]) r1 H1) as (res & Hres & H2 & E2).
    assert (Hd : (seen ++ decoded [line]) ++ decoded lines
                 = seen ++ decoded (line :: lines)).
    { rewrite <- app_assoc. f_equal. unfold decoded. cbn [flat_map].
      now rewrite app_nil_r. }
    rewrite Hd in *. exists res. split; [exact Hres|]. split; [exact H2|].
    intros Hle Hseen. apply E2; [exact Hle|]. apply E1; [|exact Hseen].
    rewrite <- Hd, length_app in Hle. lia.
Qed.

End Sample.
End SampleFacts.

(** X23. Whatever numbers the random generator draws from 1 on,
    [sample_index] raises nothing (the slot it overwrites exists) and
    returns min(n, m) objects for a file with [m] lines that decode, none
    for a negative [n]; every object returned is one of the file; and when
    the file has at most [n] such lines, the result is all of them in file
    order. *)
Theorem X23_sample_index_size_and_members
    (randint : nat -> Z) (n : Z) (lines : list (option pyval))
    (randint_positive : forall t, (1 <= randint t)%Z) :
  exists res,
    Sampling.sample_index randint n lines = Ok res
    /\ List.length res
       = Nat.min (Z.to_nat n) (List.length (SampleFacts.decoded lines))
    /\ incl res (SampleFacts.decoded lines)
    /\ (List.length (SampleFacts.decoded lines) <= Z.to_nat n ->
        res = SampleFacts.decoded lines).
Proof.
  destruct (SampleFacts.sample_fold_inv randint n randint_positive lines 1 [] [])
    as (res & Hres & (Hlen & Hincl) & Hall).
  - split; [simpl; lia | intros x []].
  - exists res. split; [exact Hres|]. split; [exact Hlen|]. split; [exact Hincl|].
    intros Hle. now apply Hall.
Qed.

Lemma X23_sample_index_size_and_members_witness :
  exists res,
    Sampling.sample_index (fun _ => 1%Z) 2
      [Some (PInt 1); None; Some (PInt 2); Some (PInt 3)] = Ok res
    /\ List.length res = 2
    /\ incl res [PInt 1; PInt 2; PInt 3]
    /\ (3 <= 2 -> res = [PInt 1; PInt 2; PInt 3]).
Proof.
  apply (X23_sample_index_size_and_members (fun _ => 1%Z) 2
           [Some (PInt 1); None; Some (PInt 2); Some (PInt 3)]).
  intros _. lia.
Defined.

(** ** Searching the items table *)

Module RowSearchFacts.
Import ItemsSearch.

(** A row one of whose texts is empty together with its head. *)
Definition hollow_row (r : Index.row) : Prop :=
  (Index.r_user_head r = EmptyString /\ truthy (Index.r_user r) = false)
  \/ (Index.r_assistant_head r = EmptyString
      /\ Index.r_assistant r = EmptyString).

Lemma text_operand_falsy (user : pyval) :
  truthy user = false -> text_operand user = Ok EmptyString.
Proof. unfold text_operand. now intros ->. Qed.

Lemma head_or_cases (head text : string) (n : nat) :
  (exists h, head_or head text n = Ok h)
  \/ (head = EmptyString /\ text = EmptyString
      /\ head_or head text n = Raise IndexError).
Proof.
  unfold head_or. destruct head as [|c head]; simpl; [|eauto].
  rewrite ScaleFacts.first_line_outcome. destruct text; simpl; eauto.
Qed.

Section Search.
Variable json_loads : string -> option pyval.
Variable query : string.

Local Abbreviation row_hit := (ItemsSearch.row_hit json_loads query).
Local Abbreviation search_text := (ItemsSearch.search_text json_loads).

(** A hollow row that matches the query stops the search. *)
Lemma hollow_row_raises (key : string * Z) (r : Index.row) (text : string) :
  search_text r = Ok text -> (0 < Rag._score query (Some text))%Z ->
  hollow_row r -> row_hit (key, r) = Raise IndexError.
Proof using Type.
  intros Ht Hs Hh. unfold ItemsSearch.row_hit. destruct key as [cid tix].
  rewrite Ht. cbn [exc_bind]. apply Z.ltb_lt in Hs. rewrite Hs.
  unfold ItemsSearch.search_text in Ht.
  destruct (text_operand (Index.r_user r)) as [u|] eqn:Eu; [|discriminate].
  cbn [exc_bind].
  destruct Hh as [(Hh & Hf)|(Hh & Ha)].
  - rewrite (text_operand_falsy _ Hf) in Eu. injection Eu as <-.
    rewrite Hh. reflexivity.
  - destruct (head_or_cases (Index.r_user_head r) u 160)
      as [(h & ->)|(_ & _ & ->)]; [|reflexivity].
    cbn [exc_bind]. rewrite Hh, Ha. reflexivity.
Qed.

(** Every hit has a positive score. *)
Lemma row_hit_positive (kr : (string * Z) * Index.row) (hs : list hit) :
  row_hit kr = Ok hs -> Forall (fun h => (0 < h_score h)%Z) hs.
Proof using Type.
  destruct kr as [[cid tix] r]. unfold ItemsSearch.row_hit.
  destruct (search_text r) as [text|]; cbn [exc_bind]; [|discriminate].
  destruct (0 <? Rag._score query (Some text))%Z eqn:Es; [|intros [= <-]; constructor].
  destruct (text_operand _) as [u|]; cbn [exc_bind]; [|discriminate].
  destruct (head_or (Index.r_user_head r) u 160) as [uh|]; cbn [exc_bind];
    [|discriminate].
  destruct (head_or (Index.r_assistant_head r) _ 200) as [ah|]; cbn [exc_bind];
    [|discriminate].
  intros [= <-]. constructor; [|constructor]. cbn. now apply Z.ltb_lt.
Qed.

Lemma rows_hit_positive (rows : list ((string * Z) * Index.row)) :
  forall hits, exc_map row_hit rows = Ok hits ->
               Forall (fun h => (0 < h_score h)%Z) (concat hits)
               /\ List.length (concat hits) <= List.length rows.
Proof using Type.
  induction rows as [|kr rows IH]; intros hits H; simpl in H.
  - injection H as <-. split; [constructor | simpl; lia].
  - destruct (row_hit kr) as [hs|] eqn:E; cbn [exc_bind] in H; [|discriminate].
    destruct (exc_map row_hit rows) as [rest|]; cbn [exc_bind] in H; [|discriminate].
    injection H as <-. destruct (IH rest eq_refl) as (Hp & Hl).
    pose proof (row_hit_positive kr hs E) as Hh. simpl. split.
    + apply Forall_app. now split.
    + rewrite length_app.
      assert (List.length hs <= 1); [|simpl; lia].
      clear -E. destruct kr as [[cid tix] r]. unfold ItemsSearch.row_hit in E.
      destruct (search_text r) as [text|]; cbn [exc_bind] in E; [|discriminate].
      destruct (0 <? _)%Z; [|injection E as <-; simpl; lia].
      destruct (text_operand _); cbn [exc_bind] in E; [|discriminate].
      destruct (head_or _ _ 160); cbn [exc_bind] in E; [|discriminate].
      destruct (head_or _ _ 200); cbn [exc_bind] in E; [|discriminate].
      injection E as <-. simpl. lia.
Qed.

End Search.

(** The row that the index builder writes for a pair with an empty side
    is hollow. *)
Lemma built_row_hollow (annotate_pair_rich : string -> string -> pyval)
    (json_dumps : pyval -> string) (p : Parser.pair) (it : Rag.item) :
  Rag.item_of_pair annotate_pair_rich p = Ok it ->
  truthy (Parser.user p) = false \/ Parser.assistant p = EmptyString ->
  hollow_row (Index.row_of json_dumps it).
Proof.
  unfold Rag.item_of_pair, Rag.str_or_empty. intros H Hside.
  destruct Hside as [Hf|Ha].
  - rewrite Hf in H. cbn [exc_bind] in H. injection H as <-.
    left. split; [reflexivity | exact Hf].
  - destruct (truthy (Parser.user p)).
    + destruct (Parser.user p); try discriminate. cbn [exc_bind] in H.
      injection H as <-. right. cbn. now rewrite Ha.
    + cbn [exc_bind] in H. injection H as <-. right. cbn. now rewrite Ha.
Qed.

Definition hit_ge (x y : hit) : Prop := (h_score y <= h_score x)%Z.

Lemma sorted_hits (l : list hit) :
  StronglySorted hit_ge (PySort.sort_desc hit_ltb l).
Proof.
  apply SortFacts.sort_sorted; unfold hit_ltb, hit_ge.
  - intros x y H. now apply Z.ltb_ge in H.
  - intros x y H. apply Z.ltb_lt in H. lia.
  - intros x y z. lia.
Qed.

End RowSearchFacts.

(** X24. [items_search] raises IndexError at a row that matches the query
    and has an empty user text with an empty user head, or an empty
    assistant text with an empty assistant head, once the rows before it
    went through; the row that the index builder writes for a pair with
    an empty user text or an empty assistant text is such a row.  When
    [items_search] returns with [k >= 0], it returns at most [k] hits, in
    descending order of score, each with a positive score. *)
Theorem X24_items_search_hollow_row
    (json_loads : string -> option pyval) (query table : string) (k : Z)
    (annotate_pair_rich : string -> string -> pyval)
    (json_dumps : pyval -> string)
    (pre post : list ((string * Z) * Index.row))
    (key : string * Z) (r : Index.row) (text : string)
    (Htable : Index.valid_table_name table = true)
    (Hk : (0 <= k)%Z) :
  (forall hs,
     exc_map (ItemsSearch.row_hit json_loads query) pre = Ok hs ->
     ItemsSearch.search_text json_loads r = Ok text ->
     (0 < Rag._score query (Some text))%Z ->
     RowSearchFacts.hollow_row r ->
     ItemsSearch.items_search json_loads query table (pre ++ (key, r) :: post) k
     = Raise IndexError)
  /\ (forall p it,
        Rag.item_of_pair annotate_pair_rich p = Ok it ->
        truthy (Parser.user p) = false \/ Parser.assistant p = EmptyString ->
        RowSearchFacts.hollow_row (Index.row_of json_dumps it))
  /\ (forall res,
        ItemsSearch.items_search json_loads query table pre k = Ok res ->
        List.length res <= Z.to_nat k
        /\ List.length res <= List.length pre
        /\ StronglySorted RowSearchFacts.hit_ge res
        /\ Forall (fun h => (0 < ItemsSearch.h_score h)%Z) res).
Proof.
  split; [|split].
  - intros hs Hpre Ht Hs Hh. unfold ItemsSearch.items_search.
    rewrite Htable. cbn [negb].
    assert (Hmap : exc_map (ItemsSearch.row_hit json_loads query)
                     (pre ++ (key, r) :: post) = Raise IndexError).
    { clear -Hpre Ht Hs Hh. revert hs Hpre.
      induction pre as [|kr pre IH]; intros hs Hpre.
      - cbn [app exc_map].
        now rewrite (RowSearchFacts.hollow_row_raises json_loads query key r text).
      - cbn [app exc_map]. simpl in Hpre.
        destruct (ItemsSearch.row_hit json_loads query kr) as [h|];
          cbn [exc_bind] in *; [|discriminate].
        destruct (exc_map _ pre) as [rest|]; cbn [exc_bind] in Hpre; [|discriminate].
        now rewrite (IH rest eq_refl). }
    now rewrite Hmap.
  - intros p it. apply RowSearchFacts.built_row_hollow.
  - intros res. unfold ItemsSearch.items_search. rewrite Htable. cbn [negb].
    destruct (exc_map _ pre) as [hits|] eqn:Eh; cbn [exc_bind]; [|discriminate].
    intros [= <-].
    destruct (RowSearchFacts.rows_hit_positive json_loads query pre hits Eh)
      as (Hpos & Hlen).
    rewrite (SearchFacts.py_take_nonneg k _ Hk).
    pose proof (SortFacts.sort_perm ItemsSearch.hit_ltb (concat hits)) as Hperm.
    split; [rewrite length_firstn; lia|].
    split; [rewrite length_firstn, (Permutation_length Hperm); lia|].
    split; [apply SortFacts.firstn_sorted, RowSearchFacts.sorted_hits|].
    apply List.Forall_forall. intros h Hh. apply SortFacts.firstn_in in Hh.
    apply (Permutation_in h Hperm) in Hh.
    rewrite List.Forall_forall in Hpos. now apply Hpos.
Qed.

Module RowSearchExamples.
(** The row of a question that got no answer. *)
Definition unanswered : Index.row :=
  Index.Row (PStr "where is the parser") "" "where is the parser" "" "{}".
Definition json_loads (t : string) : option pyval := Some (PDict []).
End RowSearchExamples.

Lemma X24_items_search_hollow_row_witness :
  ItemsSearch.items_search RowSearchExamples.json_loads "parser" "items"
    [(("c", 0%Z), RowSearchExamples.unanswered)] 10
  = Raise IndexError.
Proof.
  apply (proj1 (X24_items_search_hollow_row RowSearchExamples.json_loads
                  "parser" "items" 10 (fun _ _ => PNone) (fun _ => "{}"%string)
                  [] [] ("c", 0%Z) RowSearchExamples.unanswered
                  "where is the parser" eq_refl ltac:(lia)) [] eq_refl).
  - reflexivity.
  - reflexivity.
  - right. split; reflexivity.
Defined.

(** ** Word n-grams *)

Module NgramFacts.
Import Streams.

(** The one-word windows are the words: the branch for [n == 1] agrees
    with the general one. *)
Lemma windows_one (words : list string) : windows 1 words = words.
Proof.
  unfold windows. replace (List.length words + 1 - 1) with (List.length words) by lia.
  induction words as [|w words IH]; [reflexivity|].
  cbn [List.length seq map]. f_equal.
  rewrite <- seq_shift, map_map. exact IH.
Qed.

Lemma grams_windows (n : nat) (words : list string) :
  grams n words = windows n words.
Proof.
  unfold grams. destruct (Nat.eqb n 1) eqn:E; [|reflexivity].
  apply Nat.eqb_eq in E. subst n. symmetry. apply windows_one.
Qed.

Lemma windows_length (n : nat) (words : list string) :
  List.length (windows n words) = List.length words + 1 - n.
Proof. unfold windows. now rewrite length_map, length_seq. Qed.

(** The number of windows of the lengths [lo], [lo+1], ..., [lo+count-1]. *)
Fixpoint window_count (len lo count : nat) : nat :=
  match count with
  | O => 0
  | S count' => (len + 1 - lo) + window_count len (S lo) count'
  end.

Lemma flat_map_windows_length (words : list string) (count : nat) :
  forall lo,
    List.length (flat_map (fun n => grams n words) (seq lo count))
    = window_count (List.length words) lo count.
Proof.
  induction count as [|count IH]; intros lo; [reflexivity|].
  cbn [seq flat_map window_count].
  now rewrite length_app, grams_windows, windows_length, IH.
Qed.

End NgramFacts.

(** X25. [_make_ngrams] returns the words themselves when the largest
    length asked for is at most 1 (the defaults), and nothing for no
    words.  In general it returns, for each length [n] from max(1, n_min)
    to max(that, n_max) in turn, the [len(words) + 1 - n] windows of [n]
    consecutive words joined by underscores, none when [n] exceeds the
    number of words; the special branch for [n == 1] gives what the
    general branch would give. *)
Theorem X25_make_ngrams_windows (words : list string) (n_min n_max : Z) :
  let lo := Z.to_nat (Z.max 1 n_min) in
  let hi := Z.to_nat (Z.max (Z.max 1 n_min) n_max) in
  Streams._make_ngrams [] n_min n_max = []
  /\ ((n_min <= 1)%Z -> (n_max <= 1)%Z ->
      Streams._make_ngrams words n_min n_max = words)
  /\ (words <> [] ->
      Streams._make_ngrams words n_min n_max
      = flat_map (fun n => Streams.windows n words) (seq lo (hi + 1 - lo)))
  /\ List.length (Streams._make_ngrams words n_min n_max)
     = match words with
       | [] => 0
       | _ => NgramFacts.window_count (List.length words) lo (hi + 1 - lo)
       end.
Proof.
  intros lo hi. unfold Streams._make_ngrams.
  assert (Hcount : Z.to_nat (Z.max (Z.max 1 n_min) n_max + 1 - Z.max 1 n_min)
                   = hi + 1 - lo) by (subst lo hi; lia).
  rewrite Hcount. fold lo.
  split; [reflexivity|]. split; [|split].
  - intros H1 H2. destruct words as [|w words]; [reflexivity|].
    replace lo with 1 by (subst lo; lia).
    replace (hi + 1 - 1) with 1 by (subst hi; lia).
    cbn [seq flat_map]. unfold Streams.grams. cbn [Nat.eqb].
    now rewrite app_nil_r.
  - intros Hne. destruct words as [|w words]; [congruence|].
    apply flat_map_ext. intros n. apply NgramFacts.grams_windows.
  - destruct words as [|w words]; [reflexivity|].
    apply NgramFacts.flat_map_windows_length.
Qed.

Lemma X25_make_ngrams_windows_witness :
  Streams._make_ngrams ["parse"; "json"; "file"] 1 2
  = flat_map (fun n => Streams.windows n ["parse"; "json"; "file"]) (seq 1 2).
Proof.
  apply (proj1 (proj2 (proj2 (X25_make_ngrams_windows
                                 ["parse"; "json"; "file"] 1 2)))).
  discriminate.
Defined.

(** ** Bisecting identical vectors *)

Module DegenerateFacts.
Import Cluster ClusterFacts.

(** [s] is [k] times [v], component by component. *)
Definition multiple (k : nat) (s v : list Q) : Prop :=
  Forall2 (fun a b => (a == inject_Z (Z.of_nat k) * b)%Q) s v.

Lemma dot_step (x y : Q) (v c : list Q) :
  (dot (x :: v) (y :: c) == x * y + dot v c)%Q.
Proof. unfold dot. simpl. rewrite TagFacts.fold_qplus_shift. ring. Qed.

(** The product with a centre that is [v] up to the value of its
    components is the product with [v]. *)
Lemma dot_multiple_one (c v : list Q) :
  multiple 1 c v -> forall x, (dot x c == dot x v)%Q.
Proof.
  induction 1 as [|a b c v Hab _ IH]; intros [|y x];
    try reflexivity.
  rewrite !dot_step, IH, Hab. change (inject_Z (Z.of_nat 1)) with 1%Q. ring.
Qed.

Lemma assign_all_same (vecs : list (list Q)) (c0 c1 v : list Q) :
  multiple 1 c0 v -> multiple 1 c1 v ->
  assign_all vecs c0 c1 = repeat 0 (List.length vecs).
Proof.
  intros H0 H1. unfold assign_all.
  induction vecs as [|x vecs IH]; [reflexivity|].
  cbn [map List.length repeat]. rewrite IH. f_equal.
  assert (H : Qle_bool (1 - dot x c0) (1 - dot x c1) = true).
  { apply Qle_bool_iff.
    rewrite (dot_multiple_one c0 v H0 x), (dot_multiple_one c1 v H1 x).
    apply Qle_refl. }
  now rewrite H.
Qed.

Lemma vec_add_multiple (k : nat) (s v : list Q) :
  multiple k s v -> multiple (S k) (vec_add s v) v.
Proof.
  unfold multiple, vec_add. induction 1 as [|a b s v Hab _ IH]; [constructor|].
  cbn [combine map fst snd]. constructor; [|exact IH].
  rewrite Hab, Nat2Z.inj_succ. unfold Z.succ. rewrite inject_Z_plus. ring.
Qed.

Lemma zeros_multiple (v : list Q) : multiple 0 (repeat 0%Q (List.length v)) v.
Proof.
  unfold multiple. induction v as [|b v IH]; [constructor|].
  cbn [List.length repeat]. constructor; [|exact IH]. simpl. ring.
Qed.

(** Accumulating copies of [v] that are all assigned to the first group. *)
Lemma accumulate_same (v : list Q) (z : list Q) (m : nat) :
  forall (k : nat) (s : list Q),
    multiple k s v ->
    exists s',
      fold_left
        (fun acc va =>
           let '((s0, n0), (s1, n1)) := acc in
           if Nat.eqb (snd va) 0
           then ((vec_add s0 (fst va), S n0), (s1, n1))
           else ((s0, n0), (vec_add s1 (fst va), S n1)))
        (combine (repeat v m) (repeat 0 m)) ((s, k), (z, 0))
      = ((s', k + m), (z, 0))
      /\ multiple (k + m) s' v.
Proof.
  induction m as [|m IH]; intros k s Hs.
  - exists s. rewrite Nat.add_0_r. now split.
  - cbn [repeat combine fold_left fst snd Nat.eqb].
    destruct (IH (S k) (vec_add s v) (vec_add_multiple k s v Hs)) as (s' & E & Hm).
    exists s'. rewrite E. replace (k + S m) with (S k + m) by lia. now split.
Qed.

Lemma mean_multiple (n : nat) (s v : list Q) :
  1 <= n -> multiple n s v -> multiple 1 (mean s n) v.
Proof.
  intros Hn. unfold multiple, mean. induction 1 as [|a b s v Hab _ IH]; [constructor|].
  cbn [map]. constructor; [|exact IH].
  rewrite Hab, Nat.max_r by exact Hn. change (inject_Z (Z.of_nat 1)) with 1%Q.
  field. intros E. apply (inject_Z_injective (Z.of_nat n) 0) in E. lia.
Qed.

Lemma multiple_refl (v : list Q) : multiple 1 v v.
Proof.
  unfold multiple. induction v as [|b v IH]; constructor; [|exact IH].
  change (inject_Z (Z.of_nat 1)) with 1%Q. ring.
Qed.

(** A round over copies of one vector assigns them all to the first
    group and keeps both centres at that vector. *)
Lemma round_same (v : list Q) (m : nat) (a : list nat) (c0 c1 : list Q) :
  multiple 1 c0 v -> multiple 1 c1 v ->
  exists c0',
    kmeans_round (repeat v (S m)) (a, c0, c1) = (repeat 0 (S m), c0', c1)
    /\ multiple 1 c0' v.
Proof.
  intros H0 H1. unfold kmeans_round.
  rewrite (assign_all_same (repeat v (S m)) c0 c1 v H0 H1), repeat_length.
  unfold accumulate. cbn [List.hd repeat].
  destruct (accumulate_same v (repeat 0%Q (List.length v)) (S m) 0
              (repeat 0%Q (List.length v)) (zeros_multiple v)) as (s' & E & Hm).
  cbn [repeat] in E. rewrite E. cbn [Nat.add Nat.eqb].
  eexists. split; [reflexivity|]. apply (mean_multiple (S m)); [lia | exact Hm].
Qed.

Lemma rounds_same (v : list Q) (m n : nat) (a : list nat) (c0 c1 : list Q) :
  multiple 1 c0 v -> multiple 1 c1 v ->
  exists c0',
    Nat.iter (S n) (kmeans_round (repeat v (S m))) (a, c0, c1)
    = (repeat 0 (S m), c0', c1)
    /\ multiple 1 c0' v.
Proof.
  intros H0 H1. induction n as [|n (c & E & Hc)].
  - cbn [Nat.iter nat_rect]. now apply round_same.
  - change (Nat.iter (S (S n)) (kmeans_round (repeat v (S m))) (a, c0, c1))
      with (kmeans_round (repeat v (S m))
              (Nat.iter (S n) (kmeans_round (repeat v (S m))) (a, c0, c1))).
    rewrite E. now apply round_same.
Qed.

Lemma last_repeat (v : list Q) (m : nat) : List.last (repeat v (S m)) v = v.
Proof.
  induction m as [|m IH]; [reflexivity|].
  change (repeat v (S (S m))) with (v :: repeat v (S m)).
  cbn [List.last]. exact IH.
Qed.

Lemma kmeans2_same (v : list Q) (m : nat) :
  fst (fst (_kmeans2 (repeat v m) 15)) = repeat 0 m.
Proof.
  destruct m as [|m]; [reflexivity|].
  unfold _kmeans2. cbn [repeat]. change (v :: repeat v m) with (repeat v (S m)).
  rewrite last_repeat.
  change (Z.to_nat (Z.max 1 15)) with 15.
  destruct (rounds_same v m 14 (repeat 0 (List.length (repeat v (S m)))) v v
              (multiple_refl v) (multiple_refl v)) as (c0' & E & _).
  now rewrite E.
Qed.

Lemma side_false_zeros (idxs : list nat) :
  side false idxs (repeat 0 (List.length idxs)) = [].
Proof.
  unfold side. induction idxs as [|i idxs IH]; [reflexivity|].
  cbn [List.length repeat combine List.filter snd Nat.eqb Bool.eqb]. exact IH.
Qed.

Lemma subset_same (vecs : list (list Q)) (idxs : list nat) (v : list Q) :
  Forall (fun i => nth_error vecs i = Some v) idxs ->
  subset_of vecs idxs = Ok (repeat v (List.length idxs)).
Proof.
  unfold subset_of. induction 1 as [|i idxs Hi _ IH]; [reflexivity|].
  cbn [exc_map]. rewrite Hi. cbn [exc_bind]. rewrite IH. reflexivity.
Qed.

End DegenerateFacts.

(** X26. A subset all of whose vectors are one and the same vector is
    never split: whatever the depth budget and the threshold,
    [_bisect_recursive] returns it as a single leaf, since 2-means sends
    every copy to the first group and the guard for an empty side
    applies. *)
Theorem X26_identical_vectors_stay_together
    (vecs : list (list Q)) (idxs : list nat) (depth min_size : Z) (v : list Q)
    (Hsame : Forall (fun i => nth_error vecs i = Some v) idxs) :
  Cluster._bisect_recursive vecs idxs depth min_size
  = Ok (Cluster.Leaf (List.length idxs) idxs).
Proof.
  unfold Cluster._bisect_recursive.
  destruct (Z.to_nat depth) as [|d]; [reflexivity|].
  rewrite ClusterFacts.bisect_S.
  destruct (Z.of_nat (List.length idxs) <=? Z.max 2 min_size)%Z; [reflexivity|].
  rewrite (DegenerateFacts.subset_same vecs idxs v Hsame). cbn [exc_bind].
  assert (Hr : snd (Cluster.split_of (repeat v (List.length idxs)) idxs) = []).
  { unfold Cluster.split_of.
    pose proof (DegenerateFacts.kmeans2_same v (List.length idxs)) as Hk.
    destruct (Cluster._kmeans2 (repeat v (List.length idxs)) 15) as [[a c0] c1].
    cbn [fst snd] in *. subst a. apply DegenerateFacts.side_false_zeros. }
  rewrite Hr. cbn [Cluster.is_nil]. now rewrite orb_true_r.
Qed.

Lemma X26_identical_vectors_stay_together_witness :
  Cluster._bisect_recursive [[1%Q; 0%Q]; [0%Q; 1%Q]; [1%Q; 0%Q]] [0; 2; 0; 2] 3 0
  = Ok (Cluster.Leaf 4 [0; 2; 0; 2]).
Proof.
  apply (X26_identical_vectors_stay_together
           [[1%Q; 0%Q]; [0%Q; 1%Q]; [1%Q; 0%Q]] [0; 2; 0; 2] 3 0 [1%Q; 0%Q]).
  repeat constructor.
Defined.
